(** * walgo: a write-ahead log of length-prefixed, checksummed entries

    A shallow embedding of the Go package [wal] (entry.go, segment.go and the
    reader) and the properties of its entry codec, segment rollover, loader
    and positioned reader.

    Machine integers are [Z] with their wrap-around written out, byte slices
    are [list byte], files live in a finite map from paths to nodes, and an
    open [*os.File] is a path together with an offset. *)

From Stdlib Require Import ZArith Lia List.
From Stdlib Require Import Strings.Byte Strings.Ascii Strings.String.
From stdpp Require Import base option list strings gmap sorting.

Local Open Scope Z_scope.

(** ** Bytes and fixed-width integers *)

Definition uint32 (x : Z) : Z := x mod 2 ^ 32.
Definition uint64 (x : Z) : Z := x mod 2 ^ 64.

(** Conversion of an unsigned [w]-bit pattern to the signed integer with the
    same bits (Go's [int64(u)], [int32(u)], [int16(u)]). *)
Definition signed (w : Z) (x : Z) : Z :=
  let y := x mod 2 ^ w in
  if y <? 2 ^ (w - 1) then y else y - 2 ^ w.

Definition byte_of_Z (z : Z) : byte :=
  match Byte.of_N (Z.to_N (z mod 256)) with
  | Some b => b
  | None => x00
  end.

Definition Z_of_byte (b : byte) : Z := Z.of_N (Byte.to_N b).

(** [binary.LittleEndian.PutUint32/64]: [n] bytes, least significant first. *)
Fixpoint le_bytes (n : nat) (x : Z) : list byte :=
  match n with
  | O => []
  | S n' => byte_of_Z x :: le_bytes n' (x / 256)
  end.

(** [binary.LittleEndian.Uint32/64]. *)
Fixpoint le_value (bs : list byte) : Z :=
  match bs with
  | [] => 0
  | b :: bs' => Z_of_byte b + 256 * le_value bs'
  end.

(** Big-endian order, as package [time] lays out seconds and nanoseconds. *)
Definition be_bytes (n : nat) (x : Z) : list byte := rev (le_bytes n x).
Definition be_value (bs : list byte) : Z := le_value (rev bs).

(** ** CRC-32C (package hash/crc32, Castagnoli polynomial) *)

Definition Castagnoli : Z := 0x82f63b78.

(** One entry of [crc32.MakeTable]: eight shift-and-conditionally-xor steps. *)
Fixpoint crc_shift (k : nat) (crc : Z) : Z :=
  match k with
  | O => crc
  | S k' =>
      crc_shift k'
        (if Z.testbit crc 0 then Z.lxor (Z.shiftr crc 1) Castagnoli
         else Z.shiftr crc 1)
  end.

Definition table (i : Z) : Z := crc_shift 8 i.

Definition crc_step (crc : Z) (v : byte) : Z :=
  Z.lxor (table (Z.lxor (crc mod 256) (Z_of_byte v))) (Z.shiftr crc 8).

(** [crc32.Update]: complement, fold the table over the bytes, complement. *)
Definition crc_update (crc : Z) (p : list byte) : Z :=
  Z.lxor (fold_left crc_step p (Z.lxor crc 0xFFFFFFFF)) 0xFFFFFFFF.

(** [crc32.Checksum(data, table)]. *)
Definition Checksum (data : list byte) : Z := crc_update 0 data.

(** ** Package time: the representation of [time.Time]

    A [Time] is Go's struct: [wall] (uint64) holds the has-monotonic flag in
    bit 63, a 33-bit seconds field and 30 bits of nanoseconds; [ext] (int64)
    holds either the monotonic reading (flag set) or the seconds since year 1.
    A location is UTC (Go's nil location) or a zone, represented by its offset
    in seconds east of UTC; the log only ever distinguishes UTC from the rest. *)

Inductive Location : Type :=
  | UTC
  | Zone (offset : Z).

Record Time : Type := mkTime { wall : Z; ext : Z; loc : Location }.

Definition nsecMask : Z := 2 ^ 30 - 1.
Definition wallToInternal : Z := (1884 * 365 + 1884 / 4 - 1884 / 100 + 1884 / 400) * 86400.

Definition hasMonotonic (t : Time) : bool := Z.testbit (wall t) 63.

Definition Time_nsec (t : Time) : Z := Z.land (wall t) nsecMask.

Definition Time_sec (t : Time) : Z :=
  if hasMonotonic t then wallToInternal + (wall t mod 2 ^ 63) / 2 ^ 30
  else ext t.

Definition Time_IsZero (t : Time) : bool :=
  (Time_sec t =? 0) && (Time_nsec t =? 0).

Definition Time_After (t u : Time) : bool :=
  if hasMonotonic t && hasMonotonic u then ext u <? ext t
  else
    (Time_sec u <? Time_sec t)
    || ((Time_sec t =? Time_sec u) && (Time_nsec u <? Time_nsec t)).

Definition Time_Before (t u : Time) : bool :=
  if hasMonotonic t && hasMonotonic u then ext t <? ext u
  else
    (Time_sec t <? Time_sec u)
    || ((Time_sec t =? Time_sec u) && (Time_nsec t <? Time_nsec u)).

Definition Time_Equal (t u : Time) : bool :=
  if hasMonotonic t && hasMonotonic u then ext t =? ext u
  else (Time_sec t =? Time_sec u) && (Time_nsec t =? Time_nsec u).

Definition stripMono (t : Time) : Time :=
  if hasMonotonic t
  then mkTime (Z.land (wall t) nsecMask) (Time_sec t) (loc t)
  else t.

Definition setLoc (t : Time) (l : Location) : Time :=
  let t' := stripMono t in mkTime (wall t') (ext t') l.

(** [t.In(loc)]. *)
Definition Time_In (t : Time) (l : Location) : Time := setLoc t l.

(** The zero [time.Time{}]. *)
Definition zeroTime : Time := mkTime 0 0 UTC.

(** The errors of the package and of the library calls it makes.  [ErrFuel]
    is no error of the Go program: it marks the bound of a modelled loop, and
    [seek_while_from] shows that on a file of entries the bound is not
    reached.  [ErrGlobPattern] is no error of the Go program either: it marks
    a call of [filepath.Glob] on a directory name that holds pattern
    characters, which the model does not follow (see [filepath_Glob]). *)
Inductive error : Type :=
  | EOF
  | ErrUnexpectedEOF
  | ErrCrc32Mismatch
  | ErrNoPreviousEntry
  | ErrIndexAndTimestampSet
  | ErrNoSegmentsFound
  | ErrFileAlreadyOpen
  | ErrNotADirectory
  | ErrConfigNotFound
  | ErrParseConfig
  | ErrExist
  | ErrNotExist
  | ErrInvalid
  | ErrIsDir
  | ErrTimeMarshal
  | ErrTimeUnmarshal
  | ErrScan
  | ErrFuel
  | ErrGlobPattern.

(** The outcome of a call: a value, a returned error, or a run-time panic. *)
Inductive result (A : Type) : Type :=
  | Ok (a : A)
  | Err (e : error)
  | Panic.
Arguments Ok {A} a.
Arguments Err {A} e.
Arguments Panic {A}.

(** [Time.MarshalBinary]: version, 8 bytes of seconds, 4 of nanoseconds and
    the zone offset in minutes ([-1] for UTC); a zone with a fraction of a
    minute adds a 16th byte (version 2). *)
Definition MarshalBinary (t : Time) : result (list byte) :=
  let body (version offsetMin : Z) (tail : list byte) :=
    Ok (byte_of_Z version :: be_bytes 8 (Time_sec t)
          ++ be_bytes 4 (Time_nsec t) ++ be_bytes 2 offsetMin ++ tail) in
  match loc t with
  | UTC => body 1 (-1) []
  | Zone offset =>
      let offsetSec := Z.rem offset 60 in
      let min := Z.quot offset 60 in
      if (min <? -32768) || (min =? -1) || (32767 <? min)
      then Err ErrTimeMarshal
      else if offsetSec =? 0 then body 1 min []
           else body 2 min [byte_of_Z offsetSec]
  end.

(** [Time.UnmarshalBinary]. A 15-byte input is accepted exactly when its
    version byte is 1. The decoded fields go into a fresh [Time] and the
    location is set with [setLoc], which strips a monotonic flag: a stored
    nanosecond field with its top bit set sign-extends into that flag. *)
Definition UnmarshalBinary (data : list byte) : result Time :=
  match data with
  | [] => Err ErrTimeUnmarshal
  | v :: buf =>
      let version := Z_of_byte v in
      if negb ((version =? 1) || (version =? 2)) then Err ErrTimeUnmarshal
      else
        let wantLen := if version =? 2 then 16%nat else 15%nat in
        if negb (length data =? wantLen)%nat then Err ErrTimeUnmarshal
        else
          let sec := signed 64 (be_value (take 8 buf)) in
          let nsec := signed 32 (be_value (take 4 (drop 8 buf))) in
          let offset :=
            signed 16 (be_value (take 2 (drop 12 buf))) * 60
            + (if version =? 2 then Z_of_byte (nth 14 buf x00) else 0) in
          Ok (setLoc (mkTime (uint64 nsec) sec UTC)
                (if offset =? -60 then UTC else Zone offset))
  end.

(** ** Streams: what [io.Reader], [io.ReadSeeker] and [io.Writer] see of a file

    A stream is the bytes of a file and the offset of one open handle on it.
    Every operation returns the offset it leaves behind, also when it fails. *)

Record stream : Type := mkStream { content : list byte; pos : Z }.

Definition io (A : Type) : Type := stream -> result A * stream.

Definition ret {A} (a : A) : io A := fun s => (Ok a, s).
Definition throw {A} (e : error) : io A := fun s => (Err e, s).
Definition bind {A B} (m : io A) (k : A -> io B) : io B :=
  fun s =>
    match m s with
    | (Ok a, s') => k a s'
    | (Err e, s') => (Err e, s')
    | (Panic, s') => (Panic, s')
    end.

Notation "'let*' x ':=' m 'in' k" := (bind m (fun x => k))
  (at level 10, x name, m at level 100, k at level 200).

(** Sequencing of plain results. *)
Definition rbind {A B} (r : result A) (k : A -> result B) : result B :=
  match r with
  | Ok a => k a
  | Err e => Err e
  | Panic => Panic
  end.

Notation "'let?' x ':=' r 'in' k" := (rbind r (fun x => k))
  (at level 10, x name, r at level 100, k at level 200).

Definition lift {A} (r : result A) : io A := fun s => (r, s).

(** [io.ReadFull] on a buffer of [n] bytes: nothing is read for an empty
    buffer; [io.EOF] when no byte is left; [io.ErrUnexpectedEOF] (with the
    offset moved to the end) when fewer than [n] are left. *)
Definition ReadFull (n : nat) : io (list byte) :=
  fun s =>
    if (n =? 0)%nat then (Ok [], s)
    else
      let rest := drop (Z.to_nat (pos s)) (content s) in
      if (length rest =? 0)%nat then (Err EOF, s)
      else if (length rest <? n)%nat
           then (Err ErrUnexpectedEOF,
                 mkStream (content s) (Z.of_nat (length (content s))))
           else (Ok (take n rest), mkStream (content s) (pos s + Z.of_nat n)).

(** [binary.Read(r, binary.LittleEndian, &x)] for an unsigned integer of
    [n] bytes. *)
Definition binary_Read_uint (n : nat) : io Z :=
  let* bs := ReadFull n in ret (le_value bs).

Inductive Whence : Type := SeekStart | SeekCurrent | SeekEnd.

(** [os.File.Seek]: a negative resulting offset is an error and moves
    nothing; an offset past the end is allowed. *)
Definition Seek (offset : Z) (whence : Whence) : io Z :=
  fun s =>
    let target :=
      match whence with
      | SeekStart => offset
      | SeekCurrent => pos s + offset
      | SeekEnd => Z.of_nat (length (content s)) + offset
      end in
    if target <? 0 then (Err ErrInvalid, s)
    else (Ok target, mkStream (content s) target).

(** The bytes of a file after [bs] is written at offset [p]: a gap past the
    old end reads as zeros. *)
Definition write_at (c : list byte) (p : Z) (bs : list byte) : list byte :=
  let n := Z.to_nat p in
  take n c ++ replicate (n - length c) x00 ++ bs ++ drop (n + length bs) c.

(** [os.File.Write]. *)
Definition Write (bs : list byte) (s : stream) : stream :=
  mkStream (write_at (content s) (pos s) bs) (pos s + Z.of_nat (length bs)).

(** ** entry.go *)

Record Entry : Type := mkEntry {
  Index : Z;
  Length : Z;
  Data : list byte;
  Timestamp : Time;
  Crc32 : Z
}.

(** [newMessage]; [now] is the value [time.Now()] returns. *)
Definition newMessage (now : Time) (index : Z) (data : list byte) : Entry :=
  {| Index := index;
     Length := uint32 (Z.of_nat (length data));
     Data := data;
     Timestamp := now;
     Crc32 := Checksum data |}.

Definition ConstEntrySize : Z := 35.

(** [Entry.size]. *)
Definition Entry_size (m : Entry) : Z :=
  uint64 (ConstEntrySize + Z.of_nat (length (Data m))).

(** The buffer [writeEntry] assembles before its single [Write]. *)
Definition entry_buffer (m : Entry) : result (list byte) :=
  let t := Time_In (Timestamp m) UTC in
  let? tbin := MarshalBinary t in
  Ok (le_bytes 8 (Index m) ++ le_bytes 4 (Length m) ++ Data m
        ++ tbin ++ le_bytes 4 (Crc32 m) ++ le_bytes 4 (Length m)).

(** [writeEntry]; a nil entry writes nothing. *)
Definition writeEntry (m : option Entry) (w : stream) : result unit * stream :=
  match m with
  | None => (Ok tt, w)
  | Some m =>
      match entry_buffer m with
      | Ok buffer => (Ok tt, Write buffer w)
      | Err e => (Err e, w)
      | Panic => (Panic, w)
      end
  end.

(** [readEntry]. The trailer length is read into the same field as the
    header length. *)
Definition readEntry : io Entry :=
  let* index := binary_Read_uint 8 in
  let* length1 := binary_Read_uint 4 in
  let* data := ReadFull (Z.to_nat length1) in
  let* tbin := ReadFull 15 in
  let* timestamp := lift (UnmarshalBinary tbin) in
  let* crc := binary_Read_uint 4 in
  let* length2 := binary_Read_uint 4 in
  if negb (Checksum data =? crc) then throw ErrCrc32Mismatch
  else ret (mkEntry index length2 data timestamp crc).

(** [gotoPreviousEntry]; [length + ConstEntrySize] is a uint32 sum. *)
Definition gotoPreviousEntry : io unit :=
  let* current := Seek 0 SeekCurrent in
  if current =? 0 then throw ErrNoPreviousEntry
  else
    let* _ := Seek (-4) SeekCurrent in
    let* length := binary_Read_uint 4 in
    let* _ := Seek (- uint32 (length + ConstEntrySize)) SeekCurrent in
    ret tt.

(** [readPreviousEntry]. *)
Definition readPreviousEntry : io Entry :=
  let* _ := gotoPreviousEntry in readEntry.

(** ** Paths and file names (packages path/filepath and fmt)

    Paths are absolute, clean and slash-separated, which is what
    [filepath.Abs] followed by [filepath.ToSlash] returns; on such a path both
    are the identity, and [Join] of a directory and a name puts one slash
    between them. *)

Definition filepath_Join (dir name : string) : string :=
  (dir ++ "/" ++ name)%string.

Fixpoint has_slash (s : string) : bool :=
  match s with
  | EmptyString => false
  | String c s' => Ascii.eqb c "/"%char || has_slash s'
  end.

(** Splits a path at its last slash: [Some (dir, base)], or [None] when the
    path has no slash. *)
Fixpoint split_path (s : string) : option (string * string) :=
  match s with
  | EmptyString => None
  | String c s' =>
      match split_path s' with
      | Some (d, b) => Some (String c d, b)
      | None => if Ascii.eqb c "/"%char then Some (EmptyString, s') else None
      end
  end.

(** [filepath.Dir] and [filepath.Base] of a non-empty path that does not end
    in a slash. *)
Definition filepath_Dir (p : string) : string :=
  match split_path p with
  | Some (d, _) => d
  | None => "."%string
  end.

Definition filepath_Base (p : string) : string :=
  match split_path p with
  | Some (_, b) => b
  | None => p
  end.

(** [filepath.Ext]: the suffix that starts at the last dot of the last
    element, empty when that element has no dot. *)
Fixpoint ext_of (s : string) : option string :=
  match s with
  | EmptyString => None
  | String c s' =>
      match ext_of s' with
      | Some e => Some e
      | None =>
          if has_slash s' then None
          else if Ascii.eqb c "."%char then Some s else None
      end
  end.

Definition filepath_Ext (p : string) : string :=
  match ext_of p with
  | Some e => e
  | None => EmptyString
  end.

Definition digit (d : Z) : Ascii.ascii := Ascii.ascii_of_N (Z.to_N (48 + d mod 10)).

(** The [n] low decimal digits of [x], most significant first. *)
Fixpoint digits (n : nat) (x : Z) : string :=
  match n with
  | O => EmptyString
  | S n' => String (digit (x / 10 ^ Z.of_nat n')) (digits n' x)
  end.

(** [fmt.Sprintf("%020d.wal", index)] for a uint64 [index]: such a number has
    at most 20 decimal digits, so the zero-padded form is exactly 20 digits. *)
Definition Sprintf_020d_wal (index : Z) : string :=
  (digits 20 index ++ ".wal")%string.

Definition digit_value (c : Ascii.ascii) : option Z :=
  let n := Z.of_N (Ascii.N_of_ascii c) in
  if (48 <=? n) && (n <=? 57) then Some (n - 48) else None.

(** The longest run of leading decimal digits and what follows it. *)
Fixpoint scan_digits (s : string) (acc : Z) (seen : bool)
  : Z * bool * string :=
  match s with
  | EmptyString => (acc, seen, s)
  | String c s' =>
      match digit_value c with
      | Some d => scan_digits s' (10 * acc + d) true
      | None => (acc, seen, s)
      end
  end.

Fixpoint strip_prefix (pre s : string) : option string :=
  match pre with
  | EmptyString => Some s
  | String a pre' =>
      match s with
      | EmptyString => None
      | String b s' => if Ascii.eqb a b then strip_prefix pre' s' else None
      end
  end.

(** [fmt.Sscanf(name, "%d.wal", &current)] with a uint64 target: decimal
    digits (leading zeros are plain digits under the verb d), a value that
    fits 64 bits, then the literal text; input after it is not looked at.
    The blanks [fmt] skips before a number do not occur in a segment name. *)
Definition Sscanf_d_wal (name : string) : result Z :=
  match scan_digits name 0 false with
  | (v, true, rest) =>
      if v <? 2 ^ 64 then
        match strip_prefix ".wal" rest with
        | Some _ => Ok v
        | None => Err ErrScan
        end
      else Err ErrScan
  | (_, false, _) => Err ErrScan
  end.

(** ** The file system and open files (package os) *)

Inductive node : Type :=
  | Dir
  | File (data : list byte).

Abbreviation filesystem := (gmap string node).

(** An open [os.File]: the path it was opened on and its offset. *)
Record handle : Type := mkHandle { hpath : string; hpos : Z }.

Definition os_Lstat (fs : filesystem) (name : string) : result node :=
  match fs !! name with
  | Some n => Ok n
  | None => Err ErrNotExist
  end.

(** [os.OpenFile(name, os.O_RDWR, _)]. *)
Definition os_OpenFile (fs : filesystem) (name : string) : result handle :=
  match fs !! name with
  | Some (File _) => Ok (mkHandle name 0)
  | Some Dir => Err ErrIsDir
  | None => Err ErrNotExist
  end.

(** [os.Create]: creates or truncates; the parent must be a directory. *)
Definition os_Create (fs : filesystem) (name : string)
  : result handle * filesystem :=
  match fs !! name with
  | Some Dir => (Err ErrIsDir, fs)
  | _ =>
      match fs !! filepath_Dir name with
      | Some Dir => (Ok (mkHandle name 0), <[name := File []]> fs)
      | _ => (Err ErrNotExist, fs)
      end
  end.

(** [os.MkdirAll] of a path whose parents exist. *)
Definition os_MkdirAll (fs : filesystem) (name : string)
  : result unit * filesystem :=
  match fs !! name with
  | Some Dir => (Ok tt, fs)
  | Some (File _) => (Err ErrExist, fs)
  | None => (Ok tt, <[name := Dir]> fs)
  end.

(** Runs a stream computation through an open file; a nil [*os.File] or one
    whose file is gone answers [os.ErrInvalid]. *)
Definition file_io {A} (fs : filesystem) (m : io A) (f : option handle)
  : result A * option handle :=
  match f with
  | None => (Err ErrInvalid, f)
  | Some h =>
      match fs !! hpath h with
      | Some (File c) =>
          let (r, s) := m (mkStream c (hpos h)) in
          (r, Some (mkHandle (hpath h) (pos s)))
      | _ => (Err ErrInvalid, f)
      end
  end.

(** [p] lies directly under [dir]. *)
Definition is_child (dir p : string) : bool :=
  match strip_prefix (dir ++ "/") p with
  | Some name => negb (String.eqb name EmptyString) && negb (has_slash name)
  | None => false
  end.

(** The paths directly under [dir]. *)
Definition children (fs : filesystem) (dir : string) : list string :=
  filter (fun p => is_child dir p) (map fst (map_to_list fs)).

(** [hasMeta] of package path/filepath: the path holds one of the characters
    that [filepath.Match] reads as pattern syntax, which are the star, the
    question mark, the opening bracket and the backslash (character 92). *)
Fixpoint hasMeta (path : string) : bool :=
  match path with
  | EmptyString => false
  | String c rest =>
      Ascii.eqb c "*"%char || Ascii.eqb c "?"%char || Ascii.eqb c "["%char
      || Ascii.eqb c "092"%char || hasMeta rest
  end.

(** [filepath.Glob(filepath.Join(dir, "*"))]. Go reads the whole argument as
    a pattern, the directory part included. For a directory name without
    pattern characters the matches are the paths directly under [dir], and
    there is no error (errors of reading the directory are ignored). A
    directory name with pattern characters is itself matched against the
    file system, and a malformed one is refused with [ErrBadPattern]; the
    model does not follow Go there and answers [ErrGlobPattern], so that
    nothing is concluded from such a call. *)
Definition filepath_Glob (fs : filesystem) (dir : string)
  : result (list string) :=
  if hasMeta dir then Err ErrGlobPattern else Ok (children fs dir).

(** [slices.Sort] on strings: ascending byte-wise order. *)
Definition slices_Sort (l : list string) : list string :=
  merge_sort String.le l.

(** ** segment.go: segments *)

Record segment : Type := mkSegment {
  firstIndex : Z;
  lastIndex : Z;
  firstTimestamp : Time;
  lastTimestamp : Time;
  path : string;
  file : option handle;
  fileLength : Z
}.

(** [createSegment]. *)
Definition createSegment (fs : filesystem) (dir : string) (index : Z)
  : result segment * filesystem :=
  let fname := Sprintf_020d_wal index in
  let fpath := filepath_Join dir fname in
  match os_Create fs fpath with
  | (Ok f, fs') =>
      (Ok {| firstIndex := index; lastIndex := index;
             firstTimestamp := zeroTime; lastTimestamp := zeroTime;
             path := fpath; file := Some f; fileLength := 0 |}, fs')
  | (Err e, fs') => (Err e, fs')
  | (Panic, fs') => (Panic, fs')
  end.

(** The first read of [loadSegment]: [io.EOF] on an empty file is no error
    and leaves the zero timestamp. *)
Definition read_first_timestamp : io Time :=
  fun s =>
    match readEntry s with
    | (Ok m, s') => (Ok (Timestamp m), s')
    | (Err EOF, s') => (Ok zeroTime, s')
    | (Err e, s') => (Err e, s')
    | (Panic, s') => (Panic, s')
    end.

(** What [loadSegment] does on the file it opened. *)
Definition loadSegment_file (path : string) : io segment :=
  let* firstTimestamp := read_first_timestamp in
  let* length := Seek 0 SeekEnd in
  let name := filepath_Base path in
  let* current := lift (Sscanf_d_wal name) in
  let* last :=
    if length >? 0
    then let* m := readPreviousEntry in ret (Index m, Timestamp m)
    else ret (current, firstTimestamp) in
  ret {| firstIndex := current; lastIndex := fst last;
         firstTimestamp := firstTimestamp; lastTimestamp := snd last;
         path := path; file := None; fileLength := uint64 length |}.

(** [loadSegment]: the file is closed again before it returns. *)
Definition loadSegment (fs : filesystem) (path : string) : result segment :=
  let? f := os_OpenFile fs path in
  fst (file_io fs (loadSegment_file path) (Some f)).

(** [segment.open]. *)
Definition segment_open (fs : filesystem) (s : segment) : result segment :=
  match file s with
  | Some _ => Err ErrFileAlreadyOpen
  | None =>
      let? f := os_OpenFile fs (path s) in
      Ok {| firstIndex := firstIndex s; lastIndex := lastIndex s;
            firstTimestamp := firstTimestamp s;
            lastTimestamp := lastTimestamp s;
            path := path s; file := Some f; fileLength := fileLength s |}
  end.

(** [segment.write]: the metadata moves only after a successful write. *)
Definition segment_write (fs : filesystem) (s : segment) (message : Entry)
  : result unit * segment * filesystem :=
  match file s with
  | None => (Err ErrInvalid, s, fs)
  | Some h =>
      match fs !! hpath h with
      | Some (File c) =>
          match writeEntry (Some message) (mkStream c (hpos h)) with
          | (Ok _, st) =>
              (Ok tt,
               {| firstIndex := firstIndex s;
                  lastIndex := Index message;
                  firstTimestamp :=
                    if fileLength s =? 0 then Timestamp message
                    else firstTimestamp s;
                  lastTimestamp := Timestamp message;
                  path := path s;
                  file := Some (mkHandle (hpath h) (pos st));
                  fileLength := uint64 (fileLength s + Entry_size message) |},
               <[hpath h := File (content st)]> fs)
          | (Err e, _) => (Err e, s, fs)
          | (Panic, _) => (Panic, s, fs)
          end
      | _ => (Err ErrInvalid, s, fs)
      end
  end.

(** Stable storage: for each path, the content that the last completed
    [Sync] of the file committed. *)
Abbreviation disk := (gmap string (list byte)).

(** [segment.flush]: [Sync] on the open file commits the content the file
    has at that moment to stable storage. *)
Definition segment_flush (fs : filesystem) (d : disk) (s : segment)
  : result unit * disk :=
  match file s with
  | None => (Err ErrInvalid, d)
  | Some h =>
      match fs !! hpath h with
      | Some (File c) => (Ok tt, <[hpath h := c]> d)
      | _ => (Err ErrInvalid, d)
      end
  end.

(** [segment.close]: the handle is cleared whatever [Close] answers. *)
Definition segment_close (fs : filesystem) (s : segment)
  : result unit * segment :=
  (fst (file_io fs (ret tt) (file s)),
   {| firstIndex := firstIndex s; lastIndex := lastIndex s;
      firstTimestamp := firstTimestamp s; lastTimestamp := lastTimestamp s;
      path := path s; file := None; fileLength := fileLength s |}).

(** ** segment.go: the log *)

Record config : Type := mkConfig {
  MaxSegmentSize : Z;
  MaxSegmentCount : Z;
  ExpirationTime : Z;
  ExpirationInterval : Z
}.

(** The segment objects of a log live in [segments]; [wal_current] is the
    pointer [wal.current], the position in [segments] of the object it
    aliases ([None] is the nil pointer). *)
Record Wal : Type := mkWal {
  wal_path : string;
  wal_current : option nat;
  segments : list segment;
  wal_config : config;
  wal_index : Z
}.

Definition Option : Type := Wal -> Wal.

Definition set_config (w : Wal) (c : config) : Wal :=
  {| wal_path := wal_path w; wal_current := wal_current w;
     segments := segments w; wal_config := c; wal_index := wal_index w |}.

Definition WithMaxSegmentSize (maxSegmentSize : Z) : Option :=
  fun w =>
    set_config w
      {| MaxSegmentSize := maxSegmentSize;
         MaxSegmentCount := MaxSegmentCount (wal_config w);
         ExpirationTime := ExpirationTime (wal_config w);
         ExpirationInterval := ExpirationInterval (wal_config w) |}.

Definition WithMaxSegmentCount (maxSegmentCount : Z) : Option :=
  fun w =>
    set_config w
      {| MaxSegmentSize := MaxSegmentSize (wal_config w);
         MaxSegmentCount := maxSegmentCount;
         ExpirationTime := ExpirationTime (wal_config w);
         ExpirationInterval := ExpirationInterval (wal_config w) |}.

Definition WithExpiration (limit interval : Z) : Option :=
  fun w =>
    set_config w
      {| MaxSegmentSize := MaxSegmentSize (wal_config w);
         MaxSegmentCount := MaxSegmentCount (wal_config w);
         ExpirationTime := limit;
         ExpirationInterval := interval |}.

(** Package encoding/json, as far as the log uses it: an encoder and a
    decoder of [config] values. *)
Class JsonCodec : Type := {
  json_encode : config -> list byte;
  json_decode : list byte -> option config
}.

Definition deref (w : Wal) : option segment :=
  match wal_current w with
  | Some c => segments w !! c
  | None => None
  end.

(** Assignment through the pointer [wal.current]. *)
Definition store (w : Wal) (s : segment) : Wal :=
  match wal_current w with
  | Some c =>
      {| wal_path := wal_path w; wal_current := wal_current w;
         segments := <[c := s]> (segments w);
         wal_config := wal_config w; wal_index := wal_index w |}
  | None => w
  end.

(** [Wal.Flush]; calling it on a log without a current segment dereferences a
    nil pointer. *)
Definition Wal_Flush (w : Wal) (fs : filesystem) (d : disk)
  : result unit * disk :=
  match deref w with
  | None => (Panic, d)
  | Some cur => segment_flush fs d cur
  end.

(** [Wal.Close]: flush, then close. *)
Definition Wal_Close (w : Wal) (fs : filesystem) (d : disk)
  : result unit * Wal * disk :=
  match deref w with
  | None => (Panic, w, d)
  | Some cur =>
      match segment_flush fs d cur with
      | (Ok _, d') =>
          let (r, cur') := segment_close fs cur in (r, store w cur', d')
      | (Err e, d') => (Err e, w, d')
      | (Panic, d') => (Panic, w, d')
      end
  end.

(** [Wal.cycle]: a failed [createSegment] leaves [wal.current] nil. *)
Definition cycle (w : Wal) (fs : filesystem) (d : disk)
  : result unit * Wal * filesystem * disk :=
  match Wal_Close w fs d with
  | (Ok _, w1, d1) =>
      match createSegment fs (wal_path w1) (wal_index w1) with
      | (Ok s, fs') =>
          (Ok tt,
           {| wal_path := wal_path w1;
              wal_current := Some (length (segments w1));
              segments := segments w1 ++ [s];
              wal_config := wal_config w1; wal_index := wal_index w1 |},
           fs', d1)
      | (Err e, fs') =>
          (Err e,
           {| wal_path := wal_path w1; wal_current := None;
              segments := segments w1;
              wal_config := wal_config w1; wal_index := wal_index w1 |},
           fs', d1)
      | (Panic, fs') => (Panic, w1, fs', d1)
      end
  | (Err e, w1, d1) => (Err e, w1, fs, d1)
  | (Panic, w1, d1) => (Panic, w1, fs, d1)
  end.

(** The test [Wal.Write] makes before it cycles. *)
Definition segment_full (w : Wal) (cur : segment) : bool :=
  negb (MaxSegmentSize (wal_config w) =? 0)
  && (MaxSegmentSize (wal_config w) <=? fileLength cur).

(** The tail of [Wal.Write]: write to the current segment and count the
    index up, whatever the write answered. *)
Definition write_current (now : Time) (message : list byte) (w : Wal)
    (fs : filesystem) : result unit * Wal * filesystem :=
  match deref w with
  | None => (Panic, w, fs)
  | Some cur =>
      match segment_write fs cur (newMessage now (wal_index w) message) with
      | (r, cur', fs') =>
          let w' := store w cur' in
          (r,
           {| wal_path := wal_path w'; wal_current := wal_current w';
              segments := segments w'; wal_config := wal_config w';
              wal_index := uint64 (wal_index w' + 1) |},
           fs')
      end
  end.

(** [Wal.Write]; [now] is what [time.Now()] returns during the call. *)
Definition Wal_Write (now : Time) (message : list byte) (w : Wal)
    (fs : filesystem) (d : disk) : result unit * Wal * filesystem * disk :=
  match wal_current w with
  | None => (Err ErrNoSegmentsFound, w, fs, d)
  | Some _ =>
      match deref w with
      | None => (Panic, w, fs, d)
      | Some cur =>
          if segment_full w cur then
            match cycle w fs d with
            | (Ok _, w1, fs1, d1) => (write_current now message w1 fs1, d1)
            | (Err e, w1, fs1, d1) => (Err e, w1, fs1, d1)
            | (Panic, w1, fs1, d1) => (Panic, w1, fs1, d1)
            end
          else (write_current now message w fs, d)
      end
  end.

Section Lifecycle.
Context `{JsonCodec}.

(** [Wal.writeConfigToDisk]. *)
Definition writeConfigToDisk (w : Wal) (fs : filesystem)
  : result unit * filesystem :=
  let cpath := filepath_Join (wal_path w) "config.json" in
  match os_Create fs cpath with
  | (Ok f, fs') =>
      (Ok tt, <[cpath := File (json_encode (wal_config w))]> fs')
  | (Err e, fs') => (Err e, fs')
  | (Panic, fs') => (Panic, fs')
  end.

(** [New]. *)
Definition New (path : string) (options : list Option) (fs : filesystem)
  : result Wal * filesystem :=
  let wal :=
    {| wal_path := path; wal_current := None; segments := [];
       wal_config := mkConfig 0 0 0 0; wal_index := 0 |} in
  let wal := fold_left (fun w option => option w) options wal in
  match os_Lstat fs path with
  | Ok _ => (Err ErrExist, fs)
  | Panic => (Panic, fs)
  | Err ErrNotExist =>
      match os_MkdirAll fs (wal_path wal) with
      | (Ok _, fs1) =>
          match createSegment fs1 (wal_path wal) 0 with
          | (Ok s, fs2) =>
              let wal :=
                {| wal_path := wal_path wal;
                   wal_current := Some (length (segments wal));
                   segments := segments wal ++ [s];
                   wal_config := wal_config wal;
                   wal_index := wal_index wal |} in
              match writeConfigToDisk wal fs2 with
              | (Ok _, fs3) => (Ok wal, fs3)
              | (Err e, fs3) => (Err e, fs3)
              | (Panic, fs3) => (Panic, fs3)
              end
          | (Err e, fs2) => (Err e, fs2)
          | (Panic, fs2) => (Panic, fs2)
          end
      | (Err e, fs1) => (Err e, fs1)
      | (Panic, fs1) => (Panic, fs1)
      end
  | Err e => (Err e, fs)
  end.

(** The loop of [Load] over the sorted paths: every regular file with
    extension [.wal] is loaded as a segment. *)
Fixpoint load_segments (fs : filesystem) (paths : list string)
    (acc : list segment) : result (list segment) :=
  match paths with
  | [] => Ok acc
  | p :: rest =>
      let? info := os_Lstat fs p in
      let name := filepath_Base p in
      match info with
      | File _ =>
          if String.eqb (filepath_Ext name) ".wal" then
            let? s := loadSegment fs p in
            load_segments fs rest (acc ++ [s])
          else load_segments fs rest acc
      | Dir => load_segments fs rest acc
      end
  end.

(** [Load]. Indexing the last element of an empty [wal.segments] is a
    run-time panic. *)
Definition Load (dir : string) (fs : filesystem) : result Wal :=
  let? info := os_Lstat fs dir in
  match info with
  | File _ => Err ErrNotADirectory
  | Dir =>
      let cpath := filepath_Join dir "config.json" in
      match fs !! cpath with
      | None => Err ErrConfigNotFound
      | Some Dir => Err ErrParseConfig
      | Some (File bytes) =>
          match json_decode bytes with
          | None => Err ErrParseConfig
          | Some cfg =>
              let? paths := filepath_Glob fs dir in
              let paths := slices_Sort paths in
              let? segs := load_segments fs paths [] in
              match last segs with
              | None => Panic
              | Some cur =>
                  let c := (length segs - 1)%nat in
                  let? cur := segment_open fs cur in
                  let (r, f) := file_io fs (Seek 0 SeekEnd) (file cur) in
                  let? _ := r in
                  let cur :=
                    {| firstIndex := firstIndex cur;
                       lastIndex := lastIndex cur;
                       firstTimestamp := firstTimestamp cur;
                       lastTimestamp := lastTimestamp cur;
                       path := path cur; file := f;
                       fileLength := fileLength cur |} in
                  Ok {| wal_path := dir; wal_current := Some c;
                        segments := <[c := cur]> segs;
                        wal_config := cfg;
                        wal_index :=
                          if fileLength cur =? 0 then lastIndex cur
                          else uint64 (lastIndex cur + 1) |}
              end
          end
      end
  end.
End Lifecycle.

(** ** The reader *)

Record Reader : Type := mkReader {
  reader_index : Z;
  reader_timestamp : Time;
  reader_current : option segment
}.

Definition ReaderOption : Type := Reader -> result unit * Reader.

(** [WithIndex]. *)
Definition WithIndex (index : Z) : ReaderOption :=
  fun reader =>
    let reader :=
      mkReader index (reader_timestamp reader) (reader_current reader) in
    if negb (Time_IsZero (reader_timestamp reader))
    then (Err ErrIndexAndTimestampSet, reader)
    else (Ok tt, reader).

(** [WithTimestamp]. *)
Definition WithTimestamp (timestamp : Time) : ReaderOption :=
  fun reader =>
    let reader :=
      mkReader (reader_index reader) timestamp (reader_current reader) in
    if negb (reader_index reader =? 0)
    then (Err ErrIndexAndTimestampSet, reader)
    else (Ok tt, reader).

(** The option loop of [Wal.Reader]: the first error ends the call. *)
Fixpoint apply_options (options : list ReaderOption) (reader : Reader)
  : result Reader :=
  match options with
  | [] => Ok reader
  | option :: rest =>
      match option reader with
      | (Ok _, reader') => apply_options rest reader'
      | (Err e, _) => Err e
      | (Panic, _) => Panic
      end
  end.

(** The segment search by index: the position of the first segment whose
    range holds the target. *)
Fixpoint find_by_index (target : Z) (segs : list segment) (i : nat)
  : option nat :=
  match segs with
  | [] => None
  | s :: rest =>
      if ((firstIndex s <? target) && (target <? lastIndex s))
         || ((target =? firstIndex s) || (target =? lastIndex s))
      then Some i
      else find_by_index target rest (S i)
  end.

(** The segment search by timestamp. *)
Fixpoint find_by_timestamp (target : Time) (segs : list segment) (i : nat)
  : option nat :=
  match segs with
  | [] => None
  | s :: rest =>
      if (Time_After target (firstTimestamp s)
          && Time_Before target (lastTimestamp s))
         || (Time_Equal target (firstTimestamp s)
             || Time_Equal target (lastTimestamp s))
         || match rest with
            | next :: _ =>
                Time_After target (lastTimestamp s)
                && Time_Before target (firstTimestamp next)
            | [] => false
            end
      then Some i
      else find_by_timestamp target rest (S i)
  end.

(** The loop [for reader.index > i]: entries are decoded until one has
    reached the target or the file ends; it answers the last [i]. *)
Fixpoint seek_index (fuel : nat) (target i : Z) : io Z :=
  fun st =>
    if i <? target then
      match fuel with
      | O => (Err ErrFuel, st)
      | S fuel' =>
          match readEntry st with
          | (Ok entry, st') => seek_index fuel' target (Index entry) st'
          | (Err EOF, st') => (Ok i, st')
          | (Err e, st') => (Err e, st')
          | (Panic, st') => (Panic, st')
          end
      end
    else (Ok i, st).

(** The loop [for reader.timestamp.After(t)]. *)
Fixpoint seek_timestamp (fuel : nat) (target t : Time) (i : Z) : io Z :=
  fun st =>
    if Time_After target t then
      match fuel with
      | O => (Err ErrFuel, st)
      | S fuel' =>
          match readEntry st with
          | (Ok entry, st') =>
              seek_timestamp fuel' target (Timestamp entry) (Index entry) st'
          | (Err EOF, st') => (Ok i, st')
          | (Err e, st') => (Err e, st')
          | (Panic, st') => (Panic, st')
          end
      end
    else (Ok i, st).

(** [gotoPreviousEntry] with [ErrNoPreviousEntry] ignored. *)
Definition rewind : io unit :=
  fun st =>
    match gotoPreviousEntry st with
    | (Err ErrNoPreviousEntry, st') => (Ok tt, st')
    | r => r
    end.

Definition set_file (s : segment) (f : option handle) : segment :=
  {| firstIndex := firstIndex s; lastIndex := lastIndex s;
     firstTimestamp := firstTimestamp s; lastTimestamp := lastTimestamp s;
     path := path s; file := f; fileLength := fileLength s |}.

(** The segment a reader starts in: the one the search found, else the first
    or the last one ([clamp_first] tells which). *)
Definition start_segment (w : Wal) (fs : filesystem) (sindex : option nat)
    (clamp_first : segment -> bool) : result segment :=
  let? found :=
    match sindex with
    | Some i =>
        match segments w !! i with
        | Some s => let? c := loadSegment fs (path s) in Ok (Some c)
        | None => Panic
        end
    | None => Ok None
    end in
  match found with
  | Some c => Ok c
  | None =>
      match segments w with
      | [] => Panic
      | s0 :: _ =>
          if clamp_first s0 then loadSegment fs (path s0)
          else
            match last (segments w) with
            | Some sl => loadSegment fs (path sl)
            | None => Panic
            end
      end
  end.

(** [Wal.Reader]. *)
Definition Wal_Reader (w : Wal) (fs : filesystem)
    (options : list ReaderOption) : result Reader :=
  let? reader := apply_options options (mkReader 0 zeroTime None) in
  let by_index := Time_IsZero (reader_timestamp reader) in
  let? current :=
    if by_index then
      start_segment w fs (find_by_index (reader_index reader) (segments w) 0)
        (fun s0 => reader_index reader <? firstIndex s0)
    else
      start_segment w fs
        (find_by_timestamp (reader_timestamp reader) (segments w) 0)
        (fun s0 => Time_Before (reader_timestamp reader) (firstTimestamp s0)) in
  let? current := segment_open fs current in
  let seek : io Z :=
    fun st =>
      let fuel := S (length (content st)) in
      if by_index
      then seek_index fuel (reader_index reader) (firstIndex current) st
      else seek_timestamp fuel (reader_timestamp reader)
             (firstTimestamp current) (firstIndex current) st in
  let (r, f) :=
    file_io fs (let* i := seek in let* _ := rewind in ret i) (file current) in
  let? i := r in
  Ok (mkReader i (reader_timestamp reader) (Some (set_file current f))).

(** [slices.IndexFunc(r.wal.segments, func(s) bool { return s.path == p })]. *)
Fixpoint index_of_path (p : string) (segs : list segment) (i : nat)
  : option nat :=
  match segs with
  | [] => None
  | s :: rest =>
      if String.eqb (path s) p then Some i else index_of_path p rest (S i)
  end.

(** [Reader.Next]; the reader it leaves behind is returned with the
    outcome. *)
Definition Next (w : Wal) (fs : filesystem) (r : Reader)
  : result Entry * Reader :=
  match reader_current r with
  | None => (Err ErrNoSegmentsFound, r)
  | Some cur =>
      let opened :=
        match file cur with
        | None => segment_open fs cur
        | Some _ => Ok cur
        end in
      match opened with
      | Err e => (Err e, r)
      | Panic => (Panic, r)
      | Ok cur =>
          let r := mkReader (reader_index r) (reader_timestamp r) (Some cur) in
          let advanced : result segment * Reader :=
            if lastIndex cur <? reader_index r then
              match index_of_path (path cur) (segments w) 0 with
              | None => (Err ErrNoSegmentsFound, r)
              | Some sindex =>
                  if (length (segments w) <=? sindex + 1)%nat
                  then (Err ErrNoSegmentsFound, r)
                  else
                    let (rc, closed) := segment_close fs cur in
                    let r :=
                      mkReader (reader_index r) (reader_timestamp r)
                        (Some closed) in
                    match rc with
                    | Err e => (Err e, r)
                    | Panic => (Panic, r)
                    | Ok _ =>
                        match segments w !! (sindex + 1)%nat with
                        | None => (Panic, r)
                        | Some next =>
                            match loadSegment fs (path next) with
                            | Err e =>
                                (Err e,
                                 mkReader (reader_index r)
                                   (reader_timestamp r) None)
                            | Panic => (Panic, r)
                            | Ok loaded =>
                                match segment_open fs loaded with
                                | Err e =>
                                    (Err e,
                                     mkReader (reader_index r)
                                       (reader_timestamp r) (Some loaded))
                                | Panic => (Panic, r)
                                | Ok o =>
                                    (Ok o,
                                     mkReader (reader_index r)
                                       (reader_timestamp r) (Some o))
                                end
                            end
                        end
                    end
              end
            else (Ok cur, r) in
          match advanced with
          | (Err e, r) => (Err e, r)
          | (Panic, r) => (Panic, r)
          | (Ok cur, r) =>
              let (re, f) := file_io fs readEntry (file cur) in
              let cur := set_file cur f in
              match re with
              | Ok entry =>
                  (Ok entry,
                   mkReader (uint64 (Index entry + 1)) (reader_timestamp r)
                     (Some cur))
              | Err e =>
                  (Err e,
                   mkReader (reader_index r) (reader_timestamp r) (Some cur))
              | Panic => (Panic, r)
              end
          end
      end
  end.

(** [Reader.Close]. *)
Definition Reader_Close (fs : filesystem) (r : Reader)
  : result unit * Reader :=
  match reader_current r with
  | Some cur =>
      let (rc, closed) := segment_close fs cur in
      (rc, mkReader (reader_index r) (reader_timestamp r) (Some closed))
  | None => (Ok tt, r)
  end.

(** * Vocabulary of the statements *)

(** A [Time] as Go builds them: the fields fit their machine types, and a
    value without a monotonic reading keeps only nanoseconds in [wall]. *)
Definition Time_wf (t : Time) : Prop :=
  0 <= wall t < 2 ^ 64 /\ - 2 ^ 63 <= ext t < 2 ^ 63
  /\ (hasMonotonic t = false -> wall t < 2 ^ 30).

(** A timestamp normalized to UTC: what [t.In(time.UTC)] and [t.UTC()]
    return, with the monotonic reading stripped. *)
Definition utc_normalized (t : Time) : Prop :=
  Time_wf t /\ loc t = UTC /\ hasMonotonic t = false.

(** The 15 bytes [writeEntry] stores for a timestamp. *)
Definition time_bytes (t : Time) : list byte :=
  let u := Time_In t UTC in
  byte_of_Z 1 :: be_bytes 8 (Time_sec u) ++ be_bytes 4 (Time_nsec u)
    ++ be_bytes 2 (-1).

(** The on-disk layout of an entry. *)
Definition entry_bytes (m : Entry) : list byte :=
  le_bytes 8 (Index m) ++ le_bytes 4 (Length m) ++ Data m
    ++ time_bytes (Timestamp m) ++ le_bytes 4 (Crc32 m)
    ++ le_bytes 4 (Length m).

(** The fields of an entry fit their machine types. *)
Definition Entry_wf (m : Entry) : Prop :=
  0 <= Index m < 2 ^ 64 /\ 0 <= Length m < 2 ^ 32.

(** The entry a reader gets back for a stored entry: the same fields, the
    timestamp in UTC. *)
Definition stored (m : Entry) : Entry :=
  mkEntry (Index m) (Length m) (Data m) (Time_In (Timestamp m) UTC) (Crc32 m).

(** A stream whose unread part is [l]. *)
Definition at_cursor (s : stream) (l : list byte) : Prop :=
  0 <= pos s /\ drop (Z.to_nat (pos s)) (content s) = l.

Definition advance (s : stream) (n : Z) : stream :=
  mkStream (content s) (pos s + n).

(** The unsigned little-endian field of [n] bytes that starts [off] bytes
    after the offset of a stream. *)
Definition field_at (s : stream) (off : Z) (n : nat) : Z :=
  le_value (take n (drop (Z.to_nat (pos s + off)) (content s))).

(** An entry as [newMessage] builds them and [writeEntry] expects them: the
    length field counts the data, the checksum is the data's. *)
Definition entry_ok (m : Entry) : Prop :=
  Entry_wf m /\ Z.of_nat (length (Data m)) = Length m
  /\ Crc32 m = Checksum (Data m) /\ Time_wf (Timestamp m).

(** The values a [config] can hold: uint64 sizes and counts, int64
    durations. *)
Definition config_wf (c : config) : Prop :=
  0 <= MaxSegmentSize c < 2 ^ 64 /\ 0 <= MaxSegmentCount c < 2 ^ 64
  /\ - 2 ^ 63 <= ExpirationTime c < 2 ^ 63
  /\ - 2 ^ 63 <= ExpirationInterval c < 2 ^ 63.

(** What the log needs of encoding/json: decoding gives back what was
    encoded. *)
Definition json_lawful (codec : JsonCodec) : Prop :=
  forall c, config_wf c -> json_decode (json_encode c) = Some c.

(** A codec to run the model with: four 8-byte fields. *)
Definition fixed_codec : JsonCodec :=
  {| json_encode := fun c =>
       le_bytes 8 (MaxSegmentSize c) ++ le_bytes 8 (MaxSegmentCount c)
         ++ le_bytes 8 (ExpirationTime c) ++ le_bytes 8 (ExpirationInterval c);
     json_decode := fun b =>
       if (length b =? 32)%nat
       then Some (mkConfig (le_value (take 8 b))
                    (le_value (take 8 (drop 8 b)))
                    (signed 64 (le_value (take 8 (drop 16 b))))
                    (signed 64 (le_value (take 8 (drop 24 b)))))
       else None |}.

Definition bytes_of_string (s : string) : list byte :=
  map (fun a => byte_of_Z (Z.of_N (N_of_ascii a))) (list_ascii_of_string s).

(** A client that appends one message after the other and stops at the first
    error; each message comes with the clock reading of its [Write]. *)
Fixpoint Wal_Writes (appends : list (Time * list byte)) (w : Wal)
    (fs : filesystem) (d : disk) : result unit * Wal * filesystem * disk :=
  match appends with
  | [] => (Ok tt, w, fs, d)
  | (now, message) :: rest =>
      match Wal_Write now message w fs d with
      | (Ok _, w', fs', d') => Wal_Writes rest w' fs' d'
      | r => r
      end
  end.

(** [n] calls of [Next] in a row: the outcomes, and the reader afterwards. *)
Fixpoint Nexts (n : nat) (w : Wal) (fs : filesystem) (r : Reader)
  : list (result Entry) * Reader :=
  match n with
  | O => ([], r)
  | S n' =>
      let (e, r') := Next w fs r in
      let (es, r'') := Nexts n' w fs r' in
      (e :: es, r'')
  end.

(** A payload of 4 GiB less 35 bytes, and the entry [Wal.Write] makes of
    it. *)
Definition huge_payload : list byte := replicate (Z.to_nat (2 ^ 32 - 35)) x00.
Definition huge_entry : Entry := newMessage zeroTime 0 huge_payload.

(** A file that holds [huge_entry] alone, with the offset after it. *)
Definition huge_stream : stream :=
  mkStream (entry_bytes huge_entry)
    (Z.of_nat (length (entry_bytes huge_entry))).

Definition sample_entry : Entry :=
  newMessage (mkTime 5 63000000000 UTC) 7 (bytes_of_string "test-0").

(** A record whose trailer says 5 although it holds no data: header length 0,
    the zero timestamp, the checksum of the empty data, trailer length 5. *)
Definition mismatched_record : list byte :=
  le_bytes 8 0 ++ le_bytes 4 0 ++ time_bytes zeroTime ++ le_bytes 4 0
    ++ le_bytes 4 5.

(** ** The layout of a log on disk and in memory *)

(** The bytes of a segment file that holds the entries [c]. *)
Definition chunk_bytes (c : list Entry) : list byte := flat_map entry_bytes c.

Definition segment_path (dir : string) (first : Z) : string :=
  filepath_Join dir (Sprintf_020d_wal first).

Definition config_path (dir : string) : string :=
  filepath_Join dir "config.json".

Definition first_timestamp (c : list Entry) : Time :=
  match c with
  | [] => zeroTime
  | e :: _ => Timestamp e
  end.

Definition last_timestamp (c : list Entry) : Time :=
  match last c with
  | Some e => Timestamp e
  | None => zeroTime
  end.

Definition last_index (first : Z) (c : list Entry) : Z :=
  match last c with
  | Some e => Index e
  | None => first
  end.

(** The segment object of the writer for a file named after [first] that
    holds the entries [c]; [opened] tells whether its handle is open (at the
    end of the file). *)
Definition seg_of (dir : string) (first : Z) (c : list Entry) (opened : bool)
  : segment :=
  {| firstIndex := first;
     lastIndex := last_index first c;
     firstTimestamp := first_timestamp c;
     lastTimestamp := last_timestamp c;
     path := segment_path dir first;
     file :=
       if opened
       then Some (mkHandle (segment_path dir first)
                    (Z.of_nat (length (chunk_bytes c))))
       else None;
     fileLength := Z.of_nat (length (chunk_bytes c)) |}.

(** The segment objects of the closed segments, the first of which starts at
    index [first]. *)
Fixpoint closed_segments (dir : string) (first : Z)
    (closed : list (list Entry)) : list segment :=
  match closed with
  | [] => []
  | c :: rest =>
      seg_of dir first c false
        :: closed_segments dir (first + Z.of_nat (length c)) rest
  end.

(** The number of entries in a list of chunks. *)
Definition count (chunks : list (list Entry)) : Z :=
  Z.of_nat (length (concat chunks)).

(** The index at which chunk number [k] starts. *)
Definition start (chunks : list (list Entry)) (k : nat) : Z :=
  count (take k chunks).

(** The entries [Wal.Write] builds for a list of appends, the first with
    index [k]. *)
Fixpoint entries_from (k : Z) (appends : list (Time * list byte))
  : list Entry :=
  match appends with
  | [] => []
  | (now, message) :: rest =>
      newMessage now k message :: entries_from (k + 1) rest
  end.

(** An append the format can hold: a clock reading as Go builds them, and a
    payload whose length fits the 32-bit length field. *)
Definition append_fits (a : Time * list byte) : Prop :=
  Time_wf (fst a) /\ Z.of_nat (length (snd a)) < 2 ^ 32.

(** An append whose payload, with the 35 bytes around it, is shorter than
    [2^32] bytes. *)
Definition append_ok (a : Time * list byte) : Prop :=
  Time_wf (fst a) /\ Z.of_nat (length (snd a)) + 35 < 2 ^ 32.

(** Entries whose length plus 35 does not wrap in 32 bits. *)
Definition small_entries (es : list Entry) : Prop :=
  Forall (fun e => Length e + ConstEntrySize < 2 ^ 32) es.

(** The bytes a list of appends takes on disk. *)
Definition log_bytes (appends : list (Time * list byte)) : Z :=
  fold_right (fun a n => 35 + Z.of_nat (length (snd a)) + n) 0 appends.

(** The options the package exports, with arguments of their Go types. *)
Inductive api_option : Option -> Prop :=
  | api_size (n : Z) : 0 <= n < 2 ^ 64 -> api_option (WithMaxSegmentSize n)
  | api_count (n : Z) : 0 <= n < 2 ^ 64 -> api_option (WithMaxSegmentCount n)
  | api_expiration (limit interval : Z) :
      - 2 ^ 63 <= limit < 2 ^ 63 -> - 2 ^ 63 <= interval < 2 ^ 63 ->
      api_option (WithExpiration limit interval).

(** A file tree: whatever lies directly under a path lies under a
    directory. *)
Definition fs_wf (fs : filesystem) : Prop :=
  forall dir p, is_child dir p = true -> is_Some (fs !! p) ->
                fs !! dir = Some Dir.

(** [New] followed by a run of appends: the outcome, the log and the files
    (what the appends committed to stable storage is left out). *)
Definition build_log `{JsonCodec} (path : string) (options : list Option)
    (appends : list (Time * list byte)) (fs : filesystem)
  : result unit * Wal * filesystem :=
  match New path options fs with
  | (Ok w, fs') => fst (Wal_Writes appends w fs' ∅)
  | (Err e, fs') => (Err e, mkWal path None [] (mkConfig 0 0 0 0) 0, fs')
  | (Panic, fs') => (Panic, mkWal path None [] (mkConfig 0 0 0 0) 0, fs')
  end.

(** The writer is full: the test of [Wal.Write] on the bytes of the active
    chunk. *)
Definition chunk_full (max : Z) (c : list Entry) : bool :=
  negb (max =? 0) && (max <=? Z.of_nat (length (chunk_bytes c))).

Section Invariant.
Context `{JsonCodec}.

(** The state of a log that holds the closed chunks [closed] and the active
    chunk [act]. *)
Record log_inv (w : Wal) (fs : filesystem) (closed : list (list Entry))
    (act : list Entry) : Prop := {
  inv_segments :
    segments w
    = closed_segments (wal_path w) 0 closed
        ++ [seg_of (wal_path w) (count closed) act true];
  inv_current : wal_current w = Some (length closed);
  inv_index : wal_index w = count (closed ++ [act]);
  inv_max : config_wf (wal_config w);
  inv_entries :
    forall (k : nat) (e : Entry),
      concat (closed ++ [act]) !! k = Some e ->
      Index e = Z.of_nat k /\ entry_ok e;
  inv_closed : Forall (fun c => c <> []) closed;
  inv_size :
    Z.of_nat (length (chunk_bytes (concat (closed ++ [act])))) < 2 ^ 63;
  inv_dir : fs !! wal_path w = Some Dir;
  inv_files :
    forall (k : nat) (c : list Entry),
      (closed ++ [act]) !! k = Some c ->
      fs !! segment_path (wal_path w) (start (closed ++ [act]) k)
      = Some (File (chunk_bytes c));
  inv_children :
    forall p, is_child (wal_path w) p = true -> is_Some (fs !! p) ->
              p = config_path (wal_path w)
              \/ exists k, (k < length (closed ++ [act]))%nat
                           /\ p = segment_path (wal_path w)
                                  (start (closed ++ [act]) k);
  inv_config :
    fs !! config_path (wal_path w)
    = Some (File (json_encode (wal_config w)))
}.
End Invariant.

(** ** A small log to run the model on *)

Definition at_second (s : Z) : Time := mkTime 0 s UTC.

Definition demo_appends : list (Time * list byte) :=
  [(at_second 10, bytes_of_string "a");
   (at_second 30, bytes_of_string "bc");
   (at_second 50, bytes_of_string "def")].

(** Three appends to a log whose segments roll over at one byte, so every
    entry has a segment of its own. *)
Definition demo_log : result unit * Wal * filesystem :=
  @build_log fixed_codec "/wal" [WithMaxSegmentSize 1] demo_appends ∅.

Definition demo_wal : Wal := snd (fst demo_log).
Definition demo_fs : filesystem := snd demo_log.

(** A log right after [New], with nothing appended. *)
Definition empty_log : result unit * Wal * filesystem :=
  @build_log fixed_codec "/wal" [] [] ∅.

(** A log with one entry, whose payload is 4 GiB less 35 bytes long. *)
Definition huge_log : result unit * Wal * filesystem :=
  @build_log fixed_codec "/wal" [] [(zeroTime, huge_payload)] ∅.

(** A directory that holds a configuration file and no segment. *)
Definition bare_fs : filesystem :=
  <["/d" := Dir]>
    (<["/d/config.json" := File (@json_encode fixed_codec (mkConfig 0 0 0 0))]> ∅).

(** ** What a reader sees *)

(** The segment object [loadSegment] returns for a file named after [first]
    that holds the entries [c]: indices from the name and the last entry,
    timestamps as stored (in UTC), no open handle. *)
Definition loaded (dir : string) (first : Z) (c : list Entry) : segment :=
  {| firstIndex := first;
     lastIndex := last_index first c;
     firstTimestamp := first_timestamp (map stored c);
     lastTimestamp := last_timestamp (map stored c);
     path := segment_path dir first;
     file := None;
     fileLength := Z.of_nat (length (chunk_bytes c)) |}.

(** A log as a reader needs it: the segment objects and files of the chunks
    [chunks], every chunk with entries, every entry small. *)
Record log_view (w : Wal) (fs : filesystem) (chunks : list (list Entry))
  : Prop := {
  view_length : length (segments w) = length chunks;
  view_segments :
    forall (k : nat) (c : list Entry),
      chunks !! k = Some c ->
      exists s, segments w !! k = Some s
                /\ path s = segment_path (wal_path w) (start chunks k)
                /\ firstIndex s = start chunks k
                /\ lastIndex s = last_index (start chunks k) c
                /\ firstTimestamp s = first_timestamp c
                /\ lastTimestamp s = last_timestamp c;
  view_files :
    forall (k : nat) (c : list Entry),
      chunks !! k = Some c ->
      fs !! segment_path (wal_path w) (start chunks k)
      = Some (File (chunk_bytes c));
  view_entries :
    forall (k : nat) (e : Entry),
      concat chunks !! k = Some e -> Index e = Z.of_nat k /\ entry_ok e;
  view_small : small_entries (concat chunks);
  view_nonempty : Forall (fun c => c <> []) chunks;
  view_size : Z.of_nat (length (chunk_bytes (concat chunks))) < 2 ^ 63
}.

(** A reader that stands in chunk [k], after the entries [pre] and before the
    entries [post] of it. *)
Definition reader_at (dir : string) (chunks : list (list Entry)) (r : Reader)
    (k : nat) (pre post : list Entry) : Prop :=
  chunks !! k = Some (pre ++ post)
  /\ reader_index r = start chunks k + Z.of_nat (length pre)
  /\ exists s,
       reader_current r = Some s
       /\ path s = segment_path dir (start chunks k)
       /\ lastIndex s = last_index (start chunks k) (pre ++ post)
       /\ file s = Some (mkHandle (segment_path dir (start chunks k))
                           (Z.of_nat (length (chunk_bytes pre)))).

(** ** Where a reader starts *)

(** The two seek loops of [Wal.Reader] have one shape: entries are read while
    the key of the last one calls for more ([go]), and the index of the last
    one read is the answer. *)
Fixpoint seek_while (go : Entry -> bool) (fuel : nat) (cont : bool) (i : Z)
  : io Z :=
  fun st =>
    if cont then
      match fuel with
      | O => (Err ErrFuel, st)
      | S fuel' =>
          match readEntry st with
          | (Ok entry, st') => seek_while go fuel' (go entry) (Index entry) st'
          | (Err EOF, st') => (Ok i, st')
          | (Err e, st') => (Err e, st')
          | (Panic, st') => (Panic, st')
          end
      end
    else (Ok i, st).

(** The file of the entries [c] with the offset after the entries [pre]. *)
Definition cursor_after (c pre : list Entry) : stream :=
  mkStream (chunk_bytes c) (Z.of_nat (length (chunk_bytes pre))).

(** What makes the seek loop of a reader read on: an index below the target,
    or a timestamp before it. *)
Definition reader_go (rd : Reader) (e : Entry) : bool :=
  if Time_IsZero (reader_timestamp rd)
  then Index e <? reader_index rd
  else Time_After (reader_timestamp rd) (Timestamp e).

(** The position of the segment [Wal.Reader] starts in, for the reader the
    options have built. *)
Definition chosen_segment (w : Wal) (rd : Reader) : nat :=
  let found :=
    if Time_IsZero (reader_timestamp rd)
    then find_by_index (reader_index rd) (segments w) 0
    else find_by_timestamp (reader_timestamp rd) (segments w) 0 in
  match found with
  | Some i => i
  | None =>
      match segments w with
      | [] => 0%nat
      | s0 :: _ =>
          if (if Time_IsZero (reader_timestamp rd)
              then reader_index rd <? firstIndex s0
              else Time_Before (reader_timestamp rd) (firstTimestamp s0))
          then 0%nat
          else (length (segments w) - 1)%nat
      end
  end.

(** The three ways a segment covers a timestamp, in the words of the
    specification: strictly inside its range, on one of its ends, or in the
    gap before the next segment. *)
Definition covers (t : Time) (segs : list segment) (i : nat) : bool :=
  match segs !! i with
  | None => false
  | Some s =>
      (Time_After t (firstTimestamp s) && Time_Before t (lastTimestamp s))
      || (Time_Equal t (firstTimestamp s) || Time_Equal t (lastTimestamp s))
      || match segs !! S i with
         | Some next =>
             Time_After t (lastTimestamp s)
             && Time_Before t (firstTimestamp next)
         | None => false
         end
  end.

(** The segment the specification has a reader with a timestamp start in:
    the first one that covers the timestamp; where none does, the first
    segment for a timestamp before its first entry and the last segment
    otherwise. *)
Definition selected (t : Time) (segs : list segment) (k : nat) : Prop :=
  (covers t segs k = true
   /\ forall j, (j < k)%nat -> covers t segs j = false)
  \/ ((forall j, covers t segs j = false)
      /\ exists s0, head segs = Some s0
                    /\ k = if Time_Before t (firstTimestamp s0) then 0%nat
                           else (length segs - 1)%nat).

(** ** What [Load] finds *)

(** The segment objects [Load] builds for the chunks of a log, the first of
    which starts at index [first]. *)
Fixpoint loaded_segments (dir : string) (first : Z)
    (chunks : list (list Entry)) : list segment :=
  match chunks with
  | [] => []
  | c :: rest =>
      loaded dir first c
        :: loaded_segments dir (first + Z.of_nat (length c)) rest
  end.

(** The paths [Load] takes for segments: regular files with the extension
    [.wal]. *)
Definition wal_file (fs : filesystem) (p : string) : bool :=
  match fs !! p with
  | Some (File _) => String.eqb (filepath_Ext (filepath_Base p)) ".wal"
  | _ => false
  end.

(** The metadata of a segment that the specification compares. *)
Definition segment_meta (s : segment) : Z * Z * Z :=
  (firstIndex s, lastIndex s, fileLength s).

(** ** How segments fill up *)

(** The log [New] starts from: the zero [Wal] with its path set and the
    options applied in order. *)
Definition configured (dir : string) (options : list Option) : Wal :=
  fold_left (fun (w : Wal) (option : Wal -> Wal) => option w) options
    (mkWal dir None [] (mkConfig 0 0 0 0) 0).

(** A segment that was closed by a rollover with the limit [max]: its file
    has reached the limit, and had not reached it before its last entry. *)
Definition rolled (max : Z) (c : list Entry) : Prop :=
  0 < max <= Z.of_nat (length (chunk_bytes c))
  /\ Z.of_nat (length (chunk_bytes (removelast c))) < max.

(** A segment that is still written to: there is no limit, or the file had
    not reached it before its last entry. *)
Definition filling (max : Z) (c : list Entry) : Prop :=
  max = 0 \/ Z.of_nat (length (chunk_bytes (removelast c))) < max.

(** ** Paths the model is exact on *)

(** The elements of a path, split at its slashes. *)
Fixpoint path_elements (p : string) : list string :=
  match p with
  | EmptyString => [EmptyString]
  | String c rest =>
      if Ascii.eqb c "/"%char then EmptyString :: path_elements rest
      else
        match path_elements rest with
        | e :: es => String c e :: es
        | [] => [String c EmptyString]
        end
  end.

(** An absolute, clean path other than the root: it starts with a slash, and
    its elements are non-empty and neither [.] nor [..].  [filepath.Abs] and
    [filepath.ToSlash] return such a path as it is, and [filepath.Join] puts
    one slash between it and a name. *)
Definition abs_clean (p : string) : bool :=
  match path_elements p with
  | first :: e :: es =>
      String.eqb first EmptyString
      && forallb (fun x => negb (String.eqb x EmptyString)
                           && negb (String.eqb x ".")
                           && negb (String.eqb x ".."))
           (e :: es)
  | _ => false
  end.

(** The directory above [dir] is there: it is the root, or a directory of
    the file system. *)
Definition parent_exists (fs : filesystem) (dir : string) : Prop :=
  filepath_Dir dir = EmptyString \/ fs !! filepath_Dir dir = Some Dir.

(** * Bytes and little-endian fields *)

Lemma Z_of_byte_range (b : byte) : 0 <= Z_of_byte b < 256.
Proof.
  unfold Z_of_byte. pose proof (Byte.to_N_bounded b). lia.
Qed.

Lemma byte_of_Z_of_byte (b : byte) : byte_of_Z (Z_of_byte b) = b.
Proof.
  unfold byte_of_Z. rewrite Z.mod_small by apply Z_of_byte_range.
  unfold Z_of_byte. rewrite N2Z.id, Byte.of_to_N. reflexivity.
Qed.

Lemma Z_of_byte_of_Z (z : Z) : Z_of_byte (byte_of_Z z) = z mod 256.
Proof.
  unfold byte_of_Z, Z_of_byte.
  pose proof (Z.mod_pos_bound z 256 eq_refl) as Hr.
  destruct (Byte.of_N (Z.to_N (z mod 256))) as [b|] eqn:E.
  - apply Byte.to_of_N in E. rewrite E. lia.
  - apply Byte.of_N_None_iff in E. lia.
Qed.

Lemma length_le_bytes (n : nat) (x : Z) : length (le_bytes n x) = n.
Proof. revert x. induction n; intros; simpl; auto. Qed.

Lemma le_value_le_bytes (n : nat) (x : Z) :
  le_value (le_bytes n x) = x mod 256 ^ Z.of_nat n.
Proof.
  revert x. induction n as [|n IH]; intros x.
  - simpl. rewrite Z.mod_1_r. reflexivity.
  - cbn [le_bytes le_value]. rewrite Z_of_byte_of_Z, IH.
    rewrite Nat2Z.inj_succ, Z.pow_succ_r by lia.
    rewrite Z.rem_mul_r by (try apply Z.pow_pos_nonneg; lia). reflexivity.
Qed.

Lemma le_value_range (bs : list byte) :
  0 <= le_value bs < 256 ^ Z.of_nat (length bs).
Proof.
  induction bs as [|b bs IH].
  - simpl. lia.
  - cbn [le_value length]. rewrite Nat2Z.inj_succ, Z.pow_succ_r by lia.
    pose proof (Z_of_byte_range b). lia.
Qed.

Lemma le_value_le_bytes_small (n : nat) (x : Z) :
  0 <= x < 256 ^ Z.of_nat n -> le_value (le_bytes n x) = x.
Proof. intros. rewrite le_value_le_bytes. apply Z.mod_small. assumption. Qed.

Lemma length_be_bytes (n : nat) (x : Z) : length (be_bytes n x) = n.
Proof. unfold be_bytes. rewrite length_rev. apply length_le_bytes. Qed.

Lemma be_value_be_bytes (n : nat) (x : Z) :
  be_value (be_bytes n x) = x mod 256 ^ Z.of_nat n.
Proof.
  unfold be_value, be_bytes. rewrite rev_involutive. apply le_value_le_bytes.
Qed.

Lemma signed_mod (w x : Z) :
  0 < w -> - 2 ^ (w - 1) <= x < 2 ^ (w - 1) -> signed w (x mod 2 ^ w) = x.
Proof.
  intros Hw Hx. unfold signed. rewrite Z.mod_mod by (apply Z.pow_nonzero; lia).
  assert (E : 2 ^ w = 2 * 2 ^ (w - 1)).
  { rewrite <- Z.pow_succ_r by lia. f_equal. lia. }
  destruct (Z_lt_le_dec x 0) as [Hn|Hp].
  - assert (x mod 2 ^ w = x + 2 ^ w).
    { symmetry. apply (Z.mod_unique_pos _ _ (-1)); lia. }
    destruct (Z.ltb_spec (x mod 2 ^ w) (2 ^ (w - 1))); lia.
  - rewrite Z.mod_small by lia.
    destruct (Z.ltb_spec x (2 ^ (w - 1))); lia.
Qed.

(** * CRC-32C stays within 32 bits *)

Lemma lxor_range (n a b : Z) :
  0 <= n -> 0 <= a < 2 ^ n -> 0 <= b < 2 ^ n -> 0 <= Z.lxor a b < 2 ^ n.
Proof.
  intros Hn Ha Hb.
  assert (E : Z.lxor a b = Z.lxor a b mod 2 ^ n).
  { rewrite <- Z.land_ones by assumption.
    apply Z.bits_inj'. intros i Hi.
    rewrite Z.land_spec, Z.lxor_spec.
    destruct (Z_lt_le_dec i n) as [Hlt|Hge].
    - rewrite Z.ones_spec_low by lia. rewrite andb_true_r. reflexivity.
    - rewrite Z.ones_spec_high by lia. rewrite andb_false_r.
      rewrite <- (Z.mod_small a (2 ^ n)), <- (Z.mod_small b (2 ^ n)) by assumption.
      rewrite !Z.mod_pow2_bits_high by lia. reflexivity. }
  rewrite E. apply Z.mod_pos_bound. apply Z.pow_pos_nonneg; lia.
Qed.

Lemma shiftr_range (n k a : Z) :
  0 <= k -> 0 <= a < 2 ^ n -> 0 <= Z.shiftr a k < 2 ^ n.
Proof.
  intros Hk Ha. rewrite Z.shiftr_div_pow2 by assumption.
  assert (0 < 2 ^ k) by (apply Z.pow_pos_nonneg; lia).
  split.
  - apply Z.div_pos; lia.
  - apply Z.le_lt_trans with a; [|lia]. apply Z.div_le_upper_bound; nia.
Qed.

Lemma crc_shift_range (k : nat) (crc : Z) :
  0 <= crc < 2 ^ 32 -> 0 <= crc_shift k crc < 2 ^ 32.
Proof.
  revert crc. induction k as [|k IH]; intros crc H; cbn [crc_shift]; [assumption|].
  apply IH. destruct (Z.testbit crc 0).
  - apply lxor_range; [lia | apply shiftr_range; lia | unfold Castagnoli; lia].
  - apply shiftr_range; lia.
Qed.

Lemma crc_step_range (crc : Z) (v : byte) :
  0 <= crc < 2 ^ 32 -> 0 <= crc_step crc v < 2 ^ 32.
Proof.
  intros H. unfold crc_step, table.
  apply lxor_range; [lia | | apply shiftr_range; lia].
  apply crc_shift_range.
  pose proof (Z.mod_pos_bound crc 256 eq_refl).
  pose proof (Z_of_byte_range v).
  assert (0 <= Z.lxor (crc mod 256) (Z_of_byte v) < 2 ^ 8)
    by (apply lxor_range; lia).
  lia.
Qed.

Lemma Checksum_range (data : list byte) : 0 <= Checksum data < 2 ^ 32.
Proof.
  unfold Checksum, crc_update.
  apply lxor_range; [lia | | lia].
  assert (H : 0 <= Z.lxor 0 0xFFFFFFFF < 2 ^ 32)
    by (split; [apply Z.leb_le | apply Z.ltb_lt]; reflexivity).
  revert H. generalize (Z.lxor 0 0xFFFFFFFF).
  induction data as [|v data IH]; intros z Hz; simpl; [assumption|].
  apply IH. apply crc_step_range. assumption.
Qed.

(** * Timestamps *)

Lemma testbit_63_small (x : Z) : 0 <= x < 2 ^ 63 -> Z.testbit x 63 = false.
Proof.
  intros H. rewrite <- (Z.mod_small x (2 ^ 63)) by assumption.
  apply Z.mod_pow2_bits_high. lia.
Qed.

Lemma land_nsecMask (x : Z) : Z.land x nsecMask = x mod 2 ^ 30.
Proof. unfold nsecMask. change (2 ^ 30 - 1) with (Z.ones 30). apply Z.land_ones. lia. Qed.

Lemma Time_nsec_range (t : Time) : 0 <= Time_nsec t < 2 ^ 30.
Proof.
  unfold Time_nsec. rewrite land_nsecMask. apply Z.mod_pos_bound. lia.
Qed.

Lemma Time_In_UTC_normalized (t : Time) :
  Time_wf t -> utc_normalized (Time_In t UTC).
Proof.
  intros (Hw & He & Hm).
  unfold Time_In, setLoc, stripMono, utc_normalized, Time_wf.
  destruct (hasMonotonic t) eqn:E; cbn [wall ext loc].
  - pose proof (Time_nsec_range t) as Hn. unfold Time_nsec in Hn.
    assert (Hb : hasMonotonic
              {| wall := Z.land (wall t) nsecMask; ext := Time_sec t; loc := UTC |}
            = false).
    { unfold hasMonotonic. cbn [wall]. apply testbit_63_small. lia. }
    rewrite Hb.
    assert (Hs : - 2 ^ 63 <= Time_sec t < 2 ^ 63).
    { unfold Time_sec. rewrite E. unfold wallToInternal.
      assert (0 <= (wall t mod 2 ^ 63) / 2 ^ 30 < 2 ^ 33).
      { pose proof (Z.mod_pos_bound (wall t) (2 ^ 63) eq_refl).
        split; [apply Z.div_pos; lia|].
        apply Z.div_lt_upper_bound; lia. }
      change ((1884 * 365 + 1884 / 4 - 1884 / 100 + 1884 / 400) * 86400)
        with 59453308800.
      lia. }
    repeat split; try lia.
  - assert (Hb : hasMonotonic {| wall := wall t; ext := ext t; loc := UTC |} = false)
      by exact E.
    rewrite Hb. repeat split; try lia.
Qed.

Lemma Time_In_UTC_id (t : Time) : utc_normalized t -> Time_In t UTC = t.
Proof.
  intros (_ & Hl & Hm). unfold Time_In, setLoc, stripMono. rewrite Hm.
  destruct t as [w e l]. cbn in *. subst. reflexivity.
Qed.

Lemma length_time_bytes (t : Time) : length (time_bytes t) = 15%nat.
Proof.
  unfold time_bytes. cbn [length]. rewrite !length_app, !length_be_bytes.
  reflexivity.
Qed.

Lemma MarshalBinary_In_UTC (t : Time) :
  MarshalBinary (Time_In t UTC) = Ok (time_bytes t).
Proof.
  unfold MarshalBinary, time_bytes.
  assert (E : loc (Time_In t UTC) = UTC) by reflexivity.
  rewrite E. rewrite app_nil_r. reflexivity.
Qed.

Lemma UnmarshalBinary_time_bytes (t : Time) :
  Time_wf t -> UnmarshalBinary (time_bytes t) = Ok (Time_In t UTC).
Proof.
  intros Hwf. pose proof (Time_In_UTC_normalized t Hwf) as (Hw & Hl & Hm).
  pose proof (length_time_bytes t) as Hlen.
  unfold time_bytes in *. set (u := Time_In t UTC) in *.
  unfold UnmarshalBinary.
  rewrite Z_of_byte_of_Z. change (1 mod 256) with 1.
  change (negb ((1 =? 1) || (1 =? 2))) with false. cbv iota.
  change (1 =? 2) with false. cbv iota.
  rewrite Hlen. change (negb (15 =? 15)%nat) with false. cbv iota.
  rewrite take_app_length' by (rewrite length_be_bytes; reflexivity).
  rewrite drop_app_length' by (rewrite length_be_bytes; reflexivity).
  rewrite take_app_length' by (rewrite length_be_bytes; reflexivity).
  replace 12%nat with (8 + 4)%nat by reflexivity.
  rewrite <- drop_drop.
  rewrite drop_app_length' by (rewrite length_be_bytes; reflexivity).
  rewrite drop_app_length' by (rewrite length_be_bytes; reflexivity).
  rewrite take_ge by (rewrite length_be_bytes; lia).
  rewrite !be_value_be_bytes.
  destruct Hw as (Hwall & Hext & Hmono). specialize (Hmono Hm).
  assert (Hsec : Time_sec u = ext u) by (unfold Time_sec; rewrite Hm; reflexivity).
  assert (Hns : Time_nsec u = wall u).
  { unfold Time_nsec. rewrite land_nsecMask. apply Z.mod_small. lia. }
  rewrite Hsec, Hns.
  change (256 ^ Z.of_nat 8) with (2 ^ 64).
  change (256 ^ Z.of_nat 4) with (2 ^ 32).
  rewrite (signed_mod 64) by first [lia | change (64 - 1) with 63; lia].
  rewrite (signed_mod 32) by first [lia | change (32 - 1) with 31; lia].
  change (signed 16 (-1 mod 256 ^ Z.of_nat 2) * 60 + 0 =? -60) with true.
  cbv iota. unfold uint64. rewrite Z.mod_small by lia.
  unfold setLoc, stripMono.
  assert (Hb : hasMonotonic {| wall := wall u; ext := ext u; loc := UTC |}
               = false) by exact Hm.
  rewrite Hb.
  destruct u as [w e l]. cbn in *. subst l. reflexivity.
Qed.

(** * Streams *)

Lemma bind_ok {A B} (m : io A) (k : A -> io B) s a s' :
  m s = (Ok a, s') -> bind m k s = k a s'.
Proof. unfold bind. intros ->. reflexivity. Qed.

Lemma bind_err {A B} (m : io A) (k : A -> io B) s e s' :
  m s = (Err e, s') -> bind m k s = (Err e, s').
Proof. unfold bind. intros ->. reflexivity. Qed.

Lemma advance_0 (s : stream) : advance s 0 = s.
Proof. destruct s. unfold advance. cbn. f_equal. lia. Qed.

Lemma advance_advance (s : stream) (a b : Z) :
  advance (advance s a) b = advance s (a + b).
Proof. unfold advance. cbn. f_equal. lia. Qed.

Lemma at_cursor_advance (s : stream) (bs rest : list byte) :
  at_cursor s (bs ++ rest) ->
  at_cursor (advance s (Z.of_nat (length bs))) rest.
Proof.
  intros [Hp Hd]. unfold at_cursor, advance. cbn [pos content]. split; [lia|].
  rewrite Z2Nat.inj_add, Nat2Z.id by lia.
  rewrite <- drop_drop, Hd. apply drop_app_length.
Qed.

Lemma ReadFull_cursor (n : nat) (s : stream) (bs rest : list byte) :
  at_cursor s (bs ++ rest) -> length bs = n ->
  ReadFull n s = (Ok bs, advance s (Z.of_nat n)).
Proof.
  intros [Hp Hd] Hn. unfold ReadFull.
  destruct (Nat.eqb_spec n 0) as [->|Hpos].
  - destruct bs; [|discriminate]. rewrite advance_0. reflexivity.
  - rewrite Hd, length_app.
    destruct (Nat.eqb_spec (length bs + length rest) 0); [lia|].
    destruct (Nat.ltb_spec (length bs + length rest) n); [lia|].
    rewrite take_app_length' by (symmetry; assumption). reflexivity.
Qed.

Lemma ReadFull_eof (n : nat) (s : stream) :
  at_cursor s [] -> n <> 0%nat -> ReadFull n s = (Err EOF, s).
Proof.
  intros [Hp Hd] Hn. unfold ReadFull.
  destruct (Nat.eqb_spec n 0); [contradiction|].
  rewrite Hd. reflexivity.
Qed.

Lemma binary_Read_uint_cursor (n : nat) (s : stream) (x : Z) (rest : list byte) :
  at_cursor s (le_bytes n x ++ rest) -> 0 <= x < 256 ^ Z.of_nat n ->
  binary_Read_uint n s = (Ok x, advance s (Z.of_nat n)).
Proof.
  intros Hc Hx. unfold binary_Read_uint.
  rewrite (bind_ok _ _ _ _ _ (ReadFull_cursor n s _ _ Hc (length_le_bytes n x))).
  unfold ret. rewrite le_value_le_bytes_small by assumption. reflexivity.
Qed.

Lemma at_cursor_le_bytes (n : nat) (s : stream) (x : Z) (rest : list byte) :
  at_cursor s (le_bytes n x ++ rest) -> at_cursor (advance s (Z.of_nat n)) rest.
Proof.
  intros Hc. apply at_cursor_advance in Hc. rewrite length_le_bytes in Hc.
  exact Hc.
Qed.

(** * The entry codec *)

Lemma entry_buffer_bytes (m : Entry) : entry_buffer m = Ok (entry_bytes m).
Proof.
  unfold entry_buffer. rewrite MarshalBinary_In_UTC. reflexivity.
Qed.

Lemma length_entry_bytes (m : Entry) :
  Z.of_nat (length (entry_bytes m)) = 35 + Z.of_nat (length (Data m)).
Proof.
  unfold entry_bytes. rewrite !length_app, !length_le_bytes, length_time_bytes.
  lia.
Qed.

Lemma readEntry_cursor (s : stream) (m : Entry) (rest : list byte) :
  entry_ok m -> at_cursor s (entry_bytes m ++ rest) ->
  readEntry s
  = (Ok (stored m), advance s (Z.of_nat (length (entry_bytes m)))).
Proof.
  intros ((Hi & Hl) & Hlen & Hcrc & Ht) Hc.
  pose proof (length_entry_bytes m) as Htot.
  unfold entry_bytes in Hc. rewrite <- !app_assoc in Hc.
  unfold readEntry.
  rewrite (bind_ok _ _ _ _ _ (binary_Read_uint_cursor 8 _ _ _ Hc Hi)).
  apply at_cursor_le_bytes in Hc.
  rewrite (bind_ok _ _ _ _ _ (binary_Read_uint_cursor 4 _ _ _ Hc Hl)).
  apply at_cursor_le_bytes in Hc.
  assert (Hd : length (Data m) = Z.to_nat (Length m)) by lia.
  rewrite (bind_ok _ _ _ _ _ (ReadFull_cursor _ _ _ _ Hc Hd)).
  apply at_cursor_advance in Hc. rewrite Hd in Hc.
  rewrite (bind_ok _ _ _ _ _ (ReadFull_cursor 15 _ _ _ Hc (length_time_bytes _))).
  apply at_cursor_advance in Hc. rewrite length_time_bytes in Hc.
  unfold lift at 1. unfold bind at 1.
  rewrite UnmarshalBinary_time_bytes by assumption.
  pose proof (Checksum_range (Data m)) as Hcr. rewrite <- Hcrc in Hcr.
  rewrite (bind_ok _ _ _ _ _ (binary_Read_uint_cursor 4 _ _ _ Hc Hcr)).
  apply at_cursor_le_bytes in Hc.
  rewrite (bind_ok _ _ _ _ _ (binary_Read_uint_cursor 4 _ _ _ Hc Hl)).
  rewrite <- Hcrc, Z.eqb_refl. cbn [negb]. unfold ret.
  rewrite !advance_advance. unfold stored. do 2 f_equal. lia.
Qed.

Lemma at_cursor_app (s : stream) (pre l : list byte) :
  content s = pre ++ l -> pos s = Z.of_nat (length pre) -> at_cursor s l.
Proof.
  intros Hc Hp. unfold at_cursor. split; [lia|].
  rewrite Hc, Hp, Nat2Z.id. apply drop_app_length.
Qed.

Lemma at_cursor_end (s : stream) :
  pos s = Z.of_nat (length (content s)) -> at_cursor s [].
Proof.
  intros Hp. apply (at_cursor_app s (content s)); [|assumption].
  rewrite app_nil_r. reflexivity.
Qed.

Lemma readEntry_eof (s : stream) : at_cursor s [] -> readEntry s = (Err EOF, s).
Proof.
  intros Hc. unfold readEntry, binary_Read_uint.
  unfold bind at 1. unfold bind at 1.
  rewrite (ReadFull_eof 8 s Hc) by discriminate. reflexivity.
Qed.

Lemma write_at_end (c bs : list byte) :
  write_at c (Z.of_nat (length c)) bs = c ++ bs.
Proof.
  unfold write_at. rewrite Nat2Z.id.
  rewrite take_ge by lia. rewrite Nat.sub_diag. cbn [replicate app].
  rewrite drop_ge by lia. rewrite app_nil_r. reflexivity.
Qed.

Lemma writeEntry_bytes (m : Entry) (w : stream) :
  writeEntry (Some m) w = (Ok tt, Write (entry_bytes m) w).
Proof. unfold writeEntry. rewrite entry_buffer_bytes. reflexivity. Qed.

Lemma writeEntry_append (m : Entry) (c : list byte) :
  writeEntry (Some m) (mkStream c (Z.of_nat (length c)))
  = (Ok tt, mkStream (c ++ entry_bytes m)
              (Z.of_nat (length (c ++ entry_bytes m)))).
Proof.
  rewrite writeEntry_bytes. unfold Write. cbn [content pos].
  rewrite write_at_end, length_app. f_equal. f_equal. lia.
Qed.

(** The rewind lands [uint32 (Length + 35)] bytes before the end of the entry
    it starts after. *)
Lemma gotoPreviousEntry_after (s : stream) (pre rest : list byte) (m : Entry) :
  entry_ok m ->
  content s = pre ++ entry_bytes m ++ rest ->
  pos s = Z.of_nat (length pre) + Z.of_nat (length (entry_bytes m)) ->
  gotoPreviousEntry s
  = (Ok tt, mkStream (content s)
              (pos s - uint32 (Length m + ConstEntrySize))).
Proof.
  intros ((Hi & Hl) & Hlen & Hcrc & Ht) Hc Hp.
  pose proof (length_entry_bytes m) as Htot.
  unfold gotoPreviousEntry.
  assert (E1 : Seek 0 SeekCurrent s = (Ok (pos s), s)).
  { unfold Seek. rewrite Z.add_0_r.
    destruct (Z.ltb_spec (pos s) 0); [lia|]. destruct s; reflexivity. }
  rewrite (bind_ok _ _ _ _ _ E1).
  destruct (Z.eqb_spec (pos s) 0); [lia|].
  assert (E2 : Seek (-4) SeekCurrent s = (Ok (pos s - 4), advance s (-4))).
  { unfold Seek. destruct (Z.ltb_spec (pos s + -4) 0); [lia|]. reflexivity. }
  rewrite (bind_ok _ _ _ _ _ E2).
  set (body := le_bytes 8 (Index m) ++ le_bytes 4 (Length m) ++ Data m
                 ++ time_bytes (Timestamp m) ++ le_bytes 4 (Crc32 m)).
  assert (Hb : entry_bytes m = body ++ le_bytes 4 (Length m)).
  { unfold entry_bytes, body. rewrite <- !app_assoc. reflexivity. }
  assert (Hbl : Z.of_nat (length body) = Z.of_nat (length (entry_bytes m)) - 4).
  { rewrite Hb, length_app, length_le_bytes. lia. }
  assert (C : at_cursor (advance s (-4)) (le_bytes 4 (Length m) ++ rest)).
  { apply (at_cursor_app _ (pre ++ body)).
    - cbn [advance content]. rewrite Hc, Hb, <- !app_assoc. reflexivity.
    - cbn [advance pos]. rewrite length_app. lia. }
  rewrite (bind_ok _ _ _ _ _ (binary_Read_uint_cursor 4 _ _ _ C Hl)).
  rewrite advance_advance.
  assert (Hu : 0 <= uint32 (Length m + ConstEntrySize) <= Length m + ConstEntrySize).
  { unfold uint32, ConstEntrySize.
    pose proof (Z.mod_pos_bound (Length m + 35) (2 ^ 32) eq_refl).
    pose proof (Z.mod_le (Length m + 35) (2 ^ 32)). lia. }
  unfold ConstEntrySize in *.
  assert (E3 : Seek (- uint32 (Length m + 35)) SeekCurrent
                 (advance s (-4 + Z.of_nat 4))
               = (Ok (pos s - uint32 (Length m + 35)),
                  mkStream (content s) (pos s - uint32 (Length m + 35)))).
  { unfold Seek. cbn [advance pos content].
    replace (pos s + (-4 + Z.of_nat 4) + - uint32 (Length m + 35))
      with (pos s - uint32 (Length m + 35)) by lia.
    destruct (Z.ltb_spec (pos s - uint32 (Length m + 35)) 0); [lia|].
    reflexivity. }
  rewrite (bind_ok _ _ _ _ _ E3). reflexivity.
Qed.

Lemma gotoPreviousEntry_start (s : stream) :
  pos s = 0 -> gotoPreviousEntry s = (Err ErrNoPreviousEntry, s).
Proof.
  intros Hp. unfold gotoPreviousEntry, bind, Seek. rewrite Hp. cbn.
  destruct s; cbn in *; subst; reflexivity.
Qed.

Lemma readPreviousEntry_start (s : stream) :
  pos s = 0 -> readPreviousEntry s = (Err ErrNoPreviousEntry, s).
Proof.
  intros Hp. unfold readPreviousEntry.
  rewrite (bind_err _ _ _ _ _ (gotoPreviousEntry_start s Hp)). reflexivity.
Qed.

(** Within the range of the 32-bit sum the rewind lands on the start of the
    entry, and [readPreviousEntry] reads that entry again. *)
Lemma gotoPreviousEntry_entry (s : stream) (pre rest : list byte) (m : Entry) :
  entry_ok m -> Length m + ConstEntrySize < 2 ^ 32 ->
  content s = pre ++ entry_bytes m ++ rest ->
  pos s = Z.of_nat (length pre) + Z.of_nat (length (entry_bytes m)) ->
  gotoPreviousEntry s = (Ok tt, mkStream (content s) (Z.of_nat (length pre))).
Proof.
  intros Hok Hsmall Hc Hp.
  rewrite (gotoPreviousEntry_after s pre rest m Hok Hc Hp).
  destruct Hok as ((Hi & Hl) & Hlen & _).
  pose proof (length_entry_bytes m). unfold ConstEntrySize in *.
  unfold uint32. rewrite Z.mod_small by lia. do 2 f_equal. lia.
Qed.

Lemma readPreviousEntry_entry (s : stream) (pre rest : list byte) (m : Entry) :
  entry_ok m -> Length m + ConstEntrySize < 2 ^ 32 ->
  content s = pre ++ entry_bytes m ++ rest ->
  pos s = Z.of_nat (length pre) + Z.of_nat (length (entry_bytes m)) ->
  readPreviousEntry s = (Ok (stored m), s).
Proof.
  intros Hok Hsmall Hc Hp. unfold readPreviousEntry.
  rewrite (bind_ok _ _ _ _ _ (gotoPreviousEntry_entry s pre rest m Hok Hsmall Hc Hp)).
  assert (C : at_cursor (mkStream (content s) (Z.of_nat (length pre)))
                (entry_bytes m ++ rest))
    by (apply (at_cursor_app _ pre); [exact Hc | reflexivity]).
  rewrite (readEntry_cursor _ m rest Hok C).
  f_equal. unfold advance. cbn [content pos]. destruct s as [c p].
  cbn in *. f_equal. lia.
Qed.

(** * What a successful read tells about the bytes *)

Lemma ReadFull_inv (n : nat) (s s' : stream) (bs : list byte) :
  0 <= pos s -> ReadFull n s = (Ok bs, s') ->
  bs = take n (drop (Z.to_nat (pos s)) (content s))
  /\ length bs = n /\ s' = advance s (Z.of_nat n).
Proof.
  intros Hp. unfold ReadFull.
  destruct (Nat.eqb_spec n 0) as [->|Hn].
  - intros [= <- <-]. rewrite advance_0. auto.
  - destruct (Nat.eqb_spec (length (drop (Z.to_nat (pos s)) (content s))) 0);
      [discriminate|].
    destruct (Nat.ltb_spec (length (drop (Z.to_nat (pos s)) (content s))) n);
      [discriminate|].
    intros [= <- <-]. rewrite length_take. repeat split; auto. lia.
Qed.

Lemma binary_Read_uint_inv (n : nat) (s s' : stream) (x : Z) :
  0 <= pos s -> binary_Read_uint n s = (Ok x, s') ->
  x = field_at s 0 n /\ s' = advance s (Z.of_nat n).
Proof.
  intros Hp. unfold binary_Read_uint, bind.
  destruct (ReadFull n s) as [[bs| |] s1] eqn:E; try discriminate.
  apply ReadFull_inv in E as (-> & _ & ->); [|assumption].
  unfold ret. intros [= <- <-]. unfold field_at. rewrite Z.add_0_r. auto.
Qed.

Lemma field_at_advance (s : stream) (k off : Z) (n : nat) :
  field_at (advance s k) off n = field_at s (k + off) n.
Proof. unfold field_at, advance. cbn [pos content]. do 4 f_equal. lia. Qed.

Lemma field_at_range (s : stream) (off : Z) (n : nat) : 0 <= field_at s off n.
Proof. unfold field_at. apply le_value_range. Qed.

Lemma readEntry_inv (s s' : stream) (e : Entry) :
  0 <= pos s -> readEntry s = (Ok e, s') ->
  Index e = field_at s 0 8
  /\ Z.of_nat (length (Data e)) = field_at s 8 4
  /\ Crc32 e = Checksum (Data e)
  /\ Crc32 e = field_at s (27 + Z.of_nat (length (Data e))) 4
  /\ Length e = field_at s (31 + Z.of_nat (length (Data e))) 4
  /\ s' = advance s (35 + Z.of_nat (length (Data e))).
Proof.
  intros Hp. unfold readEntry.
  unfold bind at 1.
  destruct (binary_Read_uint 8 s) as [[index| |] s1] eqn:E1; try discriminate.
  apply binary_Read_uint_inv in E1 as (-> & ->); [|assumption].
  unfold bind at 1.
  destruct (binary_Read_uint 4 _) as [[length1| |] s2] eqn:E2; try discriminate.
  apply binary_Read_uint_inv in E2 as (-> & ->); [|cbn; lia].
  unfold bind at 1.
  destruct (ReadFull _ _) as [[data| |] s3] eqn:E3; try discriminate.
  apply ReadFull_inv in E3 as (Hdata & Hdl & ->); [|cbn; lia].
  unfold bind at 1.
  destruct (ReadFull 15 _) as [[tbin| |] s4] eqn:E4; try discriminate.
  apply ReadFull_inv in E4 as (_ & _ & ->); [|cbn; lia].
  unfold bind at 1. unfold lift at 1.
  destruct (UnmarshalBinary tbin) as [t| |]; try discriminate.
  unfold bind at 1.
  destruct (binary_Read_uint 4 _) as [[crc| |] s5] eqn:E5; try discriminate.
  apply binary_Read_uint_inv in E5 as (-> & ->); [|cbn; lia].
  unfold bind at 1.
  destruct (binary_Read_uint 4 _) as [[length2| |] s6] eqn:E6; try discriminate.
  apply binary_Read_uint_inv in E6 as (-> & ->); [|cbn; lia].
  destruct (Z.eqb_spec (Checksum data) (field_at
     (advance (advance (advance (advance s (Z.of_nat 8)) (Z.of_nat 4))
        (Z.of_nat (Z.to_nat (field_at (advance s (Z.of_nat 8)) 0 4))))
        (Z.of_nat 15)) 0 4)) as [Hcrc|Hcrc];
    cbn [negb]; [|discriminate].
  unfold ret. intros [= <- <-]. cbn [Index Data Crc32 Length].
  pose proof (field_at_range (advance s (Z.of_nat 8)) 0 4) as Hr.
  rewrite !advance_advance in *. rewrite !field_at_advance in *.
  rewrite Hdl. rewrite Z2Nat.id by assumption.
  repeat split; auto.
  all: try (f_equal; lia).
  rewrite Z2Nat.id in Hcrc by assumption. rewrite Hcrc. reflexivity.
Qed.

Lemma newMessage_ok (now : Time) (index : Z) (data : list byte) :
  Time_wf now -> 0 <= index < 2 ^ 64 -> Z.of_nat (length data) < 2 ^ 32 ->
  entry_ok (newMessage now index data).
Proof.
  intros Ht Hi Hd. unfold entry_ok, Entry_wf, newMessage.
  cbn [Index Length Data Timestamp Crc32]. unfold uint32.
  rewrite Z.mod_small by lia.
  split; [split; lia | split; [lia | split; [reflexivity | exact Ht]]].
Qed.

Lemma Time_wf_zeroTime : Time_wf zeroTime.
Proof. unfold Time_wf, zeroTime. cbn [wall ext]. repeat split; try lia. Qed.

(** * The 32-bit sum of [gotoPreviousEntry] *)

Lemma length_huge_payload : Z.of_nat (length huge_payload) = 2 ^ 32 - 35.
Proof.
  unfold huge_payload. rewrite length_replicate. apply Z2Nat.id. lia.
Qed.

Lemma entry_ok_huge : entry_ok huge_entry /\ Length huge_entry = 2 ^ 32 - 35.
Proof.
  pose proof length_huge_payload as Hl. split.
  - apply newMessage_ok; [apply Time_wf_zeroTime | lia | lia].
  - unfold huge_entry, newMessage. cbn [Length]. unfold uint32.
    rewrite Hl. apply Z.mod_small. lia.
Qed.

Lemma gotoPreviousEntry_wrap (s : stream) (pre rest : list byte) (m : Entry) :
  entry_ok m -> Length m = 2 ^ 32 - 35 ->
  content s = pre ++ entry_bytes m ++ rest ->
  pos s = Z.of_nat (length pre) + Z.of_nat (length (entry_bytes m)) ->
  gotoPreviousEntry s = (Ok tt, s).
Proof.
  intros Hok Hl Hc Hp.
  rewrite (gotoPreviousEntry_after s pre rest m Hok Hc Hp).
  rewrite Hl. unfold ConstEntrySize, uint32.
  replace (2 ^ 32 - 35 + 35) with (1 * 2 ^ 32) by lia.
  rewrite Z.mod_mul by lia. rewrite Z.sub_0_r. destruct s; reflexivity.
Qed.

(** * Paths and segment names *)

Lemma append_cons (c : ascii) (a b : string) :
  (String c a ++ b)%string = String c (a ++ b).
Proof. reflexivity. Qed.

Lemma append_nil (b : string) : (EmptyString ++ b)%string = b.
Proof. reflexivity. Qed.

Lemma has_slash_app (a b : string) :
  has_slash (a ++ b) = has_slash a || has_slash b.
Proof.
  induction a as [|c a IH]; [reflexivity|].
  rewrite ?append_cons, ?append_nil; cbn [has_slash]. rewrite IH. apply orb_assoc.
Qed.

Lemma split_path_no_slash (s : string) :
  has_slash s = false -> split_path s = None.
Proof.
  induction s as [|c s IH]; [reflexivity|].
  cbn [has_slash split_path]. intros H. apply orb_false_elim in H as [Hc Hs].
  rewrite (IH Hs), Hc. reflexivity.
Qed.

Lemma split_path_join (dir name : string) :
  has_slash name = false ->
  split_path (filepath_Join dir name) = Some (dir, name).
Proof.
  intros Hn. unfold filepath_Join. induction dir as [|c dir IH].
  - rewrite ?append_cons, ?append_nil; cbn [split_path]. rewrite (split_path_no_slash _ Hn).
    reflexivity.
  - rewrite ?append_cons, ?append_nil; cbn [split_path]. rewrite ?append_cons, ?append_nil in IH.
    rewrite IH. reflexivity.
Qed.

Lemma filepath_Base_join (dir name : string) :
  has_slash name = false -> filepath_Base (filepath_Join dir name) = name.
Proof. intros H. unfold filepath_Base. rewrite split_path_join; auto. Qed.

Lemma filepath_Dir_join (dir name : string) :
  has_slash name = false -> filepath_Dir (filepath_Join dir name) = dir.
Proof. intros H. unfold filepath_Dir. rewrite split_path_join; auto. Qed.

Lemma strip_prefix_app (pre s : string) : strip_prefix pre (pre ++ s) = Some s.
Proof.
  induction pre as [|c pre IH]; [reflexivity|].
  rewrite ?append_cons, ?append_nil; cbn [strip_prefix]. rewrite Ascii.eqb_refl. exact IH.
Qed.

Lemma strip_prefix_Some (pre s r : string) :
  strip_prefix pre s = Some r -> s = (pre ++ r)%string.
Proof.
  revert s. induction pre as [|c pre IH]; intros s.
  - cbn. intros [= ->]. reflexivity.
  - destruct s as [|b s]; cbn [strip_prefix]; [discriminate|].
    destruct (Ascii.eqb_spec c b) as [->|]; [|discriminate].
    intros H. apply IH in H. subst. reflexivity.
Qed.

Lemma append_assoc (a b c : string) :
  (a ++ b ++ c)%string = ((a ++ b) ++ c)%string.
Proof.
  induction a as [|x a IH]; [reflexivity|].
  rewrite !append_cons, IH. reflexivity.
Qed.

Lemma join_assoc (dir name : string) :
  filepath_Join dir name = ((dir ++ "/") ++ name)%string.
Proof. unfold filepath_Join. apply append_assoc. Qed.

Lemma is_child_join (dir name : string) :
  name <> EmptyString -> has_slash name = false ->
  is_child dir (filepath_Join dir name) = true.
Proof.
  intros Hne Hs. unfold is_child. rewrite join_assoc, strip_prefix_app, Hs.
  destruct (String.eqb_spec name ""); [contradiction|]. reflexivity.
Qed.

Lemma is_child_inv (dir p : string) :
  is_child dir p = true ->
  exists name, p = filepath_Join dir name /\ name <> EmptyString
               /\ has_slash name = false.
Proof.
  unfold is_child. destruct (strip_prefix (dir ++ "/") p) as [name|] eqn:E;
    [|discriminate].
  apply strip_prefix_Some in E. intros H. apply andb_true_iff in H as [H1 H2].
  exists name. rewrite join_assoc. split; [assumption|]. split.
  - destruct (String.eqb_spec name ""); [discriminate|assumption].
  - destruct (has_slash name); [discriminate|reflexivity].
Qed.

Lemma append_inj_l (pre a b : string) :
  (pre ++ a)%string = (pre ++ b)%string -> a = b.
Proof.
  induction pre as [|c pre IH]; [auto|]. rewrite !append_cons.
  intros [= H]. auto.
Qed.

Lemma join_inj (dir a b : string) :
  filepath_Join dir a = filepath_Join dir b -> a = b.
Proof. rewrite !join_assoc. apply append_inj_l. Qed.

Lemma length_append (a b : string) :
  String.length (a ++ b) = (String.length a + String.length b)%nat.
Proof.
  induction a as [|c a IH]; [reflexivity|].
  rewrite append_cons. cbn [String.length]. rewrite IH. reflexivity.
Qed.

Lemma join_neq_dir (dir name : string) : filepath_Join dir name <> dir.
Proof.
  intros H. apply (f_equal String.length) in H.
  unfold filepath_Join in H. rewrite !length_append in H.
  cbn [String.length] in H. lia.
Qed.

(** ** Decimal digits *)

Lemma digit_cases (d : Z) :
  exists k, d mod 10 = k /\ (k = 0 \/ k = 1 \/ k = 2 \/ k = 3 \/ k = 4 \/ k = 5
                             \/ k = 6 \/ k = 7 \/ k = 8 \/ k = 9).
Proof.
  exists (d mod 10). split; [reflexivity|].
  pose proof (Z.mod_pos_bound d 10 eq_refl). lia.
Qed.

Lemma digit_value_digit (d : Z) : digit_value (digit d) = Some (d mod 10).
Proof.
  unfold digit. destruct (digit_cases d) as (k & -> & Hk).
  repeat (destruct Hk as [->|Hk]; [reflexivity|]). subst. reflexivity.
Qed.

Lemma digit_not_slash (d : Z) : Ascii.eqb (digit d) "/" = false.
Proof.
  unfold digit. destruct (digit_cases d) as (k & -> & Hk).
  repeat (destruct Hk as [->|Hk]; [reflexivity|]). subst. reflexivity.
Qed.

Lemma digit_compare (a b : Z) :
  Ascii.compare (digit a) (digit b) = Z.compare (a mod 10) (b mod 10).
Proof.
  unfold digit.
  destruct (digit_cases a) as (k & -> & Hk).
  destruct (digit_cases b) as (l & -> & Hl).
  repeat (destruct Hk as [->|Hk]);
    repeat (destruct Hl as [->|Hl]); subst; reflexivity.
Qed.

Lemma has_slash_digits (n : nat) (x : Z) : has_slash (digits n x) = false.
Proof.
  induction n as [|n IH]; [reflexivity|].
  cbn [digits has_slash]. rewrite digit_not_slash, IH. reflexivity.
Qed.

Lemma has_slash_segment_name (index : Z) :
  has_slash (Sprintf_020d_wal index) = false.
Proof.
  unfold Sprintf_020d_wal. rewrite has_slash_app, has_slash_digits.
  reflexivity.
Qed.

Lemma segment_name_nonempty (index : Z) : Sprintf_020d_wal index <> EmptyString.
Proof.
  unfold Sprintf_020d_wal. cbn [digits Nat.pred]. rewrite append_cons.
  discriminate.
Qed.

Lemma mod_pow10_succ (n : nat) (x : Z) :
  x mod 10 ^ Z.of_nat (S n)
  = (x / 10 ^ Z.of_nat n) mod 10 * 10 ^ Z.of_nat n + x mod 10 ^ Z.of_nat n.
Proof.
  rewrite Nat2Z.inj_succ, Z.pow_succ_r by lia.
  rewrite (Z.mul_comm 10).
  rewrite Z.rem_mul_r by (try apply Z.pow_nonzero; lia). lia.
Qed.

Lemma scan_digits_digits (n : nat) (x acc : Z) (seen : bool) (rest : string) :
  scan_digits (digits n x ++ rest) acc seen
  = scan_digits rest (acc * 10 ^ Z.of_nat n + x mod 10 ^ Z.of_nat n)
      (seen || negb (n =? 0)%nat).
Proof.
  revert acc seen. induction n as [|n IH]; intros acc seen.
  - cbn [digits]. rewrite append_nil, Z.mod_1_r.
    change (10 ^ Z.of_nat 0) with 1. cbn [Nat.eqb negb].
    rewrite orb_false_r. f_equal. f_equal. lia.
  - cbn [digits]. rewrite append_cons. cbn [scan_digits].
    rewrite digit_value_digit, IH.
    rewrite (mod_pow10_succ n x).
    rewrite Nat2Z.inj_succ, Z.pow_succ_r by lia.
    cbn [Nat.eqb negb]. rewrite orb_true_r. f_equal. lia.
Qed.

Lemma Sscanf_Sprintf (index : Z) :
  0 <= index < 2 ^ 64 -> Sscanf_d_wal (Sprintf_020d_wal index) = Ok index.
Proof.
  intros H. unfold Sscanf_d_wal, Sprintf_020d_wal.
  rewrite scan_digits_digits.
  change (scan_digits ".wal" (0 * 10 ^ Z.of_nat 20 + index mod 10 ^ Z.of_nat 20)
            (false || negb (20 =? 0)%nat))
    with (0 * 10 ^ Z.of_nat 20 + index mod 10 ^ Z.of_nat 20, true,
          ".wal"%string).
  cbv iota beta. rewrite Z.mod_small by lia. rewrite Z.mul_0_l, Z.add_0_l.
  destruct (Z.ltb_spec index (2 ^ 64)); [|lia]. reflexivity.
Qed.

Lemma segment_name_inj (i j : Z) :
  0 <= i < 2 ^ 64 -> 0 <= j < 2 ^ 64 ->
  Sprintf_020d_wal i = Sprintf_020d_wal j -> i = j.
Proof.
  intros Hi Hj H. apply (f_equal Sscanf_d_wal) in H.
  rewrite !Sscanf_Sprintf in H by assumption. congruence.
Qed.

Lemma ext_of_prepend (pre s e : string) :
  ext_of s = Some e -> ext_of (pre ++ s) = Some e.
Proof.
  intros H. induction pre as [|c pre IH]; [exact H|].
  rewrite ?append_cons, ?append_nil; cbn [ext_of]. rewrite IH. reflexivity.
Qed.

Lemma filepath_Ext_segment_name (index : Z) :
  filepath_Ext (Sprintf_020d_wal index) = ".wal"%string.
Proof.
  unfold filepath_Ext, Sprintf_020d_wal.
  rewrite (ext_of_prepend _ ".wal" ".wal"); reflexivity.
Qed.

(** ** The order of segment names is the order of their indices *)

Lemma compare_prepend (pre a b : string) :
  String.compare (pre ++ a) (pre ++ b) = String.compare a b.
Proof.
  induction pre as [|c pre IH]; [reflexivity|].
  rewrite ?append_cons, ?append_nil; cbn [String.compare].
  assert (E : Ascii.compare c c = Eq).
  { unfold Ascii.compare. apply N.compare_refl. }
  rewrite E. exact IH.
Qed.

Lemma compare_refl (s : string) : String.compare s s = Eq.
Proof.
  induction s as [|c s IH]; [reflexivity|]. cbn [String.compare].
  assert (E : Ascii.compare c c = Eq).
  { unfold Ascii.compare. apply N.compare_refl. }
  rewrite E. exact IH.
Qed.

Lemma compare_digits (n : nat) (x y : Z) (r : string) :
  x mod 10 ^ Z.of_nat n <= y mod 10 ^ Z.of_nat n ->
  String.compare (digits n x ++ r) (digits n y ++ r) <> Gt.
Proof.
  revert x y. induction n as [|n IH]; intros x y H.
  - cbn [digits]. rewrite append_nil, compare_refl. discriminate.
  - cbn [digits]. rewrite !append_cons. cbn [String.compare].
    rewrite digit_compare.
    rewrite !mod_pow10_succ in H.
    pose proof (Z.mod_pos_bound x (10 ^ Z.of_nat n)) as Hx.
    pose proof (Z.mod_pos_bound y (10 ^ Z.of_nat n)) as Hy.
    assert (Hp : 0 < 10 ^ Z.of_nat n) by (apply Z.pow_pos_nonneg; lia).
    specialize (Hx Hp). specialize (Hy Hp).
    destruct (Z.compare_spec ((x / 10 ^ Z.of_nat n) mod 10)
                ((y / 10 ^ Z.of_nat n) mod 10)) as [E|L|G].
    + apply IH. rewrite E in H. lia.
    + discriminate.
    + exfalso. nia.
Qed.

(** * Chunks, counts and paths *)

Lemma chunk_bytes_app (a b : list Entry) :
  chunk_bytes (a ++ b) = chunk_bytes a ++ chunk_bytes b.
Proof. unfold chunk_bytes. apply flat_map_app. Qed.

Lemma chunk_bytes_cons (e : Entry) (c : list Entry) :
  chunk_bytes (e :: c) = entry_bytes e ++ chunk_bytes c.
Proof. reflexivity. Qed.

Lemma chunk_bytes_snoc (c : list Entry) (e : Entry) :
  chunk_bytes (c ++ [e]) = chunk_bytes c ++ entry_bytes e.
Proof. rewrite chunk_bytes_app. cbn. rewrite app_nil_r. reflexivity. Qed.

Lemma length_chunk_bytes_lower (c : list Entry) :
  35 * Z.of_nat (length c) <= Z.of_nat (length (chunk_bytes c)).
Proof.
  induction c as [|e c IH]; [cbn; lia|].
  rewrite chunk_bytes_cons, length_app.
  pose proof (length_entry_bytes e). cbn [length]. lia.
Qed.

Lemma chunk_bytes_empty (c : list Entry) :
  Z.of_nat (length (chunk_bytes c)) = 0 <-> c = [].
Proof.
  split.
  - intros H. pose proof (length_chunk_bytes_lower c).
    destruct c; [reflexivity|]. cbn [length] in *. lia.
  - intros ->. reflexivity.
Qed.

Lemma count_nil : count [] = 0.
Proof. reflexivity. Qed.

Lemma count_app (a b : list (list Entry)) : count (a ++ b) = count a + count b.
Proof. unfold count. rewrite concat_app, length_app. lia. Qed.

Lemma count_single (c : list Entry) : count [c] = Z.of_nat (length c).
Proof. unfold count. cbn. rewrite app_nil_r. reflexivity. Qed.

Lemma count_cons (c : list Entry) (cs : list (list Entry)) :
  count (c :: cs) = Z.of_nat (length c) + count cs.
Proof. unfold count. cbn. rewrite length_app. lia. Qed.

Lemma count_nonneg (cs : list (list Entry)) : 0 <= count cs.
Proof. unfold count. lia. Qed.

Lemma start_0 (cs : list (list Entry)) : start cs 0 = 0.
Proof. reflexivity. Qed.

Lemma start_app_l (a b : list (list Entry)) (k : nat) :
  (k <= length a)%nat -> start (a ++ b) k = start a k.
Proof. intros Hk. unfold start. rewrite take_app_le by lia. reflexivity. Qed.

Lemma start_length (a b : list (list Entry)) :
  start (a ++ b) (length a) = count a.
Proof. unfold start. rewrite take_app_length. reflexivity. Qed.

Lemma start_S (cs : list (list Entry)) (k : nat) (c : list Entry) :
  cs !! k = Some c -> start cs (S k) = start cs k + Z.of_nat (length c).
Proof.
  intros Hc. unfold start. rewrite (take_S_r _ _ _ Hc), count_app, count_single.
  reflexivity.
Qed.

Lemma start_le_count (cs : list (list Entry)) (k : nat) : start cs k <= count cs.
Proof.
  unfold start. rewrite <- (take_drop k cs) at 2. rewrite count_app.
  pose proof (count_nonneg (drop k cs)). lia.
Qed.

Lemma start_nonneg (cs : list (list Entry)) (k : nat) : 0 <= start cs k.
Proof. apply count_nonneg. Qed.

(** Chunks that hold entries start at strictly increasing indices. *)
Lemma start_lt (cs : list (list Entry)) (j k : nat) :
  (forall i c, (i < k)%nat -> cs !! i = Some c -> c <> []) ->
  (j < k)%nat -> (k <= length cs)%nat -> start cs j < start cs k.
Proof.
  intros Hne Hjk Hk. induction k as [|k IH]; [lia|].
  destruct (lookup_lt_is_Some_2 cs k) as [c Hc]; [lia|].
  rewrite (start_S _ _ _ Hc).
  assert (c <> []) by (apply (Hne k); [lia|assumption]).
  assert (0 < Z.of_nat (length c)) by (destruct c; [contradiction|cbn; lia]).
  destruct (Nat.eq_dec j k) as [->|Hn]; [lia|].
  assert (start cs j < start cs k).
  { apply IH; [|lia|lia]. intros i c' Hi. apply Hne. lia. }
  lia.
Qed.

Lemma segment_path_inj (dir : string) (i j : Z) :
  0 <= i < 2 ^ 64 -> 0 <= j < 2 ^ 64 ->
  segment_path dir i = segment_path dir j -> i = j.
Proof.
  intros Hi Hj H. unfold segment_path in H. apply join_inj in H.
  apply segment_name_inj in H; assumption.
Qed.

Lemma segment_path_not_config (dir : string) (i : Z) :
  segment_path dir i <> config_path dir.
Proof.
  unfold segment_path, config_path. intros H. apply join_inj in H.
  apply (f_equal filepath_Ext) in H. rewrite filepath_Ext_segment_name in H.
  discriminate H.
Qed.

Lemma segment_path_not_dir (dir : string) (i : Z) : segment_path dir i <> dir.
Proof. apply join_neq_dir. Qed.

Lemma config_path_not_dir (dir : string) : config_path dir <> dir.
Proof. apply join_neq_dir. Qed.

Lemma is_child_segment_path (dir : string) (i : Z) :
  is_child dir (segment_path dir i) = true.
Proof.
  apply is_child_join;
    [apply segment_name_nonempty | apply has_slash_segment_name].
Qed.

Lemma is_child_config_path (dir : string) :
  is_child dir (config_path dir) = true.
Proof. apply is_child_join; [discriminate | reflexivity]. Qed.

Lemma filepath_Dir_segment_path (dir : string) (i : Z) :
  filepath_Dir (segment_path dir i) = dir.
Proof. apply filepath_Dir_join, has_slash_segment_name. Qed.

Lemma filepath_Dir_config_path (dir : string) :
  filepath_Dir (config_path dir) = dir.
Proof. apply filepath_Dir_join. reflexivity. Qed.

Lemma is_child_not_self (dir : string) : is_child dir dir = false.
Proof.
  destruct (is_child dir dir) eqn:E; [|reflexivity].
  apply is_child_inv in E as (name & Hn & _). symmetry in Hn.
  apply join_neq_dir in Hn. contradiction.
Qed.

Ltac path_ne :=
  first
    [ apply segment_path_not_dir | apply not_eq_sym, segment_path_not_dir
    | apply segment_path_not_config | apply not_eq_sym, segment_path_not_config
    | apply config_path_not_dir | apply not_eq_sym, config_path_not_dir
    | congruence ].

(** * [New] *)

Lemma fold_api_options (options : list Option) (w : Wal) :
  Forall api_option options ->
  config_wf (wal_config w) ->
  let w' := fold_left (fun (w : Wal) (option : Wal -> Wal) => option w) options w in
  wal_path w' = wal_path w /\ wal_current w' = wal_current w
  /\ segments w' = segments w /\ wal_index w' = wal_index w
  /\ config_wf (wal_config w').
Proof.
  intros Hall. revert w. induction Hall as [|o options Ho Hall IH]; intros w Hm.
  - cbn. auto.
  - cbn [fold_left].
    assert (Hstep : wal_path (o w) = wal_path w /\ wal_current (o w) = wal_current w
                    /\ segments (o w) = segments w /\ wal_index (o w) = wal_index w
                    /\ config_wf (wal_config (o w))).
    { destruct Hm as (M1 & M2 & M3 & M4).
      destruct Ho; unfold config_wf; cbn; auto 10. }
    destruct Hstep as (H1 & H2 & H3 & H4 & H5).
    destruct (IH (o w) H5) as (I1 & I2 & I3 & I4 & I5).
    cbv zeta. rewrite I1, I2, I3, I4. auto.
Qed.

Section WriterInvariant.
Context `{JsonCodec}.

Lemma New_inv (path : string) (options : list Option) (fs0 : filesystem) :
  fs_wf fs0 -> fs0 !! path = None -> Forall api_option options ->
  exists w fs,
    New path options fs0 = (Ok w, fs) /\ wal_path w = path
    /\ log_inv w fs [] [].
Proof.
  intros Hwf Hnone Hopts.
  assert (Hch : forall p, is_child path p = true -> fs0 !! p = None).
  { intros p Hp. destruct (fs0 !! p) eqn:E; [|reflexivity].
    assert (Hd : fs0 !! path = Some Dir) by (apply (Hwf path p); eauto).
    congruence. }
  unfold New. unfold os_Lstat. rewrite Hnone.
  set (w0 := {| wal_path := path; wal_current := None; segments := [];
                wal_config := mkConfig 0 0 0 0; wal_index := 0 |}).
  destruct (fold_api_options options w0 Hopts) as (P1 & P2 & P3 & P4 & P5);
    [unfold config_wf; cbn; lia|].
  set (w1 := fold_left (fun (w : Wal) (option : Wal -> Wal) => option w) options w0) in *.
  cbn [wal_path wal_current segments wal_index w0] in P1, P2, P3, P4.
  unfold os_MkdirAll. rewrite P1, Hnone.
  unfold createSegment, os_Create.
  fold (segment_path path 0).
  rewrite lookup_insert_ne by path_ne.
  rewrite (Hch _ (is_child_segment_path path 0)).
  rewrite filepath_Dir_segment_path, lookup_insert_eq.
  unfold writeConfigToDisk, os_Create. cbn [wal_path wal_config].
  fold (config_path path).
  rewrite lookup_insert_ne by path_ne.
  rewrite lookup_insert_ne by path_ne.
  rewrite (Hch _ (is_child_config_path path)).
  rewrite filepath_Dir_config_path.
  rewrite lookup_insert_ne by path_ne.
  rewrite lookup_insert_eq.
  eexists _, _. split; [reflexivity|]. split; [reflexivity|].
  rewrite P3. cbn [length app].
  constructor; cbn [wal_path wal_current segments wal_config wal_index
                    closed_segments app length].
  - reflexivity.
  - reflexivity.
  - rewrite P4. reflexivity.
  - exact P5.
  - intros k e Hk. cbn in Hk. rewrite lookup_nil in Hk. discriminate.
  - constructor.
  - cbn. lia.
  - rewrite insert_insert_eq.
    rewrite lookup_insert_ne by path_ne.
    rewrite lookup_insert_ne by path_ne.
    apply lookup_insert_eq.
  - intros k c Hk. destruct k as [|[|k]]; try discriminate Hk.
    cbn in Hk. injection Hk as <-. rewrite start_0.
    rewrite insert_insert_eq.
    rewrite lookup_insert_ne by path_ne.
    apply lookup_insert_eq.
  - intros p Hp Hs. rewrite insert_insert_eq in Hs.
    destruct (decide (p = config_path path)) as [->|Hn1]; [left; reflexivity|].
    rewrite lookup_insert_ne in Hs by congruence.
    destruct (decide (p = segment_path path 0)) as [->|Hn2].
    + right. exists 0%nat. split; [cbn; lia|reflexivity].
    + rewrite lookup_insert_ne in Hs by congruence.
      destruct (decide (p = path)) as [->|Hn3].
      * rewrite is_child_not_self in Hp. discriminate.
      * rewrite lookup_insert_ne in Hs by congruence.
        rewrite (Hch p Hp) in Hs. destruct Hs as [? Hs]. discriminate.
  - rewrite insert_insert_eq. apply lookup_insert_eq.
Qed.

Lemma length_closed_segments (dir : string) (first : Z)
    (closed : list (list Entry)) :
  length (closed_segments dir first closed) = length closed.
Proof.
  revert first. induction closed as [|c closed IH]; intros first; cbn; auto.
Qed.

Lemma closed_segments_app (dir : string) (first : Z)
    (a b : list (list Entry)) :
  closed_segments dir first (a ++ b)
  = closed_segments dir first a ++ closed_segments dir (first + count a) b.
Proof.
  revert first. induction a as [|c a IH]; intros first.
  - cbn [app closed_segments]. rewrite count_nil, Z.add_0_r. reflexivity.
  - cbn [app closed_segments]. rewrite IH, count_cons.
    rewrite Z.add_assoc. reflexivity.
Qed.

Lemma deref_inv (w : Wal) (fs : filesystem) (closed : list (list Entry))
    (act : list Entry) :
  log_inv w fs closed act ->
  deref w = Some (seg_of (wal_path w) (count closed) act true).
Proof.
  intros I. unfold deref. rewrite (inv_current _ _ _ _ I), (inv_segments _ _ _ _ I).
  rewrite lookup_app_r by (rewrite length_closed_segments; lia).
  rewrite length_closed_segments, Nat.sub_diag. reflexivity.
Qed.

Lemma store_inv (w : Wal) (fs : filesystem) (closed : list (list Entry))
    (act : list Entry) (s : segment) :
  log_inv w fs closed act ->
  segments (store w s) = closed_segments (wal_path w) 0 closed ++ [s]
  /\ wal_path (store w s) = wal_path w
  /\ wal_current (store w s) = wal_current w
  /\ wal_config (store w s) = wal_config w
  /\ wal_index (store w s) = wal_index w.
Proof.
  intros I. unfold store. rewrite (inv_current _ _ _ _ I).
  cbn [segments wal_path wal_current wal_config wal_index].
  rewrite (inv_segments _ _ _ _ I).
  rewrite insert_app_r_alt by (rewrite length_closed_segments; lia).
  rewrite length_closed_segments, Nat.sub_diag.
  repeat split; auto.
Qed.

Lemma entries_bound (w : Wal) (fs : filesystem) (closed : list (list Entry))
    (act : list Entry) :
  log_inv w fs closed act -> 35 * count (closed ++ [act]) < 2 ^ 63.
Proof.
  intros I. pose proof (inv_size _ _ _ _ I).
  pose proof (length_chunk_bytes_lower (concat (closed ++ [act]))).
  unfold count. lia.
Qed.

Lemma chunk_size_bound (w : Wal) (fs : filesystem)
    (closed : list (list Entry)) (act : list Entry) :
  log_inv w fs closed act ->
  Z.of_nat (length (chunk_bytes act))
  <= Z.of_nat (length (chunk_bytes (concat (closed ++ [act])))).
Proof.
  intros _. rewrite concat_app, chunk_bytes_app, length_app.
  cbn [concat]. rewrite app_nil_r. lia.
Qed.

Lemma start_bound (w : Wal) (fs : filesystem) (closed : list (list Entry))
    (act : list Entry) (k : nat) :
  log_inv w fs closed act -> 0 <= start (closed ++ [act]) k < 2 ^ 64.
Proof.
  intros I. pose proof (entries_bound _ _ _ _ I).
  pose proof (start_le_count (closed ++ [act]) k).
  pose proof (start_nonneg (closed ++ [act]) k). lia.
Qed.

(** The paths of the segments of a log differ from one another. *)
Lemma start_inj (w : Wal) (fs : filesystem) (closed : list (list Entry))
    (act : list Entry) (j k : nat) :
  log_inv w fs closed act ->
  (j <= length closed)%nat -> (k <= length closed)%nat ->
  start (closed ++ [act]) j = start (closed ++ [act]) k -> j = k.
Proof.
  intros I Hj Hk E.
  assert (Hne : forall i c, (i < length closed)%nat ->
                            (closed ++ [act]) !! i = Some c -> c <> []).
  { intros i c Hi Hc. rewrite lookup_app_l in Hc by lia.
    pose proof (inv_closed _ _ _ _ I) as Hall.
    rewrite Forall_forall in Hall. apply Hall.
    apply list_elem_of_lookup. eauto. }
  destruct (lt_eq_lt_dec j k) as [[L|L]|L]; [|exact L|].
  - assert (start (closed ++ [act]) j < start (closed ++ [act]) k).
    { apply start_lt; [|lia|rewrite length_app; cbn; lia].
      intros i c Hi. apply Hne. lia. }
    lia.
  - assert (start (closed ++ [act]) k < start (closed ++ [act]) j).
    { apply start_lt; [|lia|rewrite length_app; cbn; lia].
      intros i c Hi. apply Hne. lia. }
    lia.
Qed.
End WriterInvariant.

(** * The writer keeps the layout *)

Lemma last_index_snoc (first : Z) (c : list Entry) (e : Entry) :
  last_index first (c ++ [e]) = Index e.
Proof. unfold last_index. rewrite last_snoc. reflexivity. Qed.

Lemma last_timestamp_snoc (c : list Entry) (e : Entry) :
  last_timestamp (c ++ [e]) = Timestamp e.
Proof. unfold last_timestamp. rewrite last_snoc. reflexivity. Qed.

Lemma first_timestamp_snoc (c : list Entry) (e : Entry) :
  first_timestamp (c ++ [e])
  = if Z.of_nat (length (chunk_bytes c)) =? 0 then Timestamp e
    else first_timestamp c.
Proof.
  destruct c as [|a c]; [reflexivity|].
  destruct (Z.eqb_spec (Z.of_nat (length (chunk_bytes (a :: c)))) 0) as [E|E].
  - apply chunk_bytes_empty in E. discriminate.
  - reflexivity.
Qed.

Lemma Entry_size_newMessage (now : Time) (index : Z) (data : list byte) :
  Z.of_nat (length data) < 2 ^ 32 ->
  Entry_size (newMessage now index data)
  = Z.of_nat (length (entry_bytes (newMessage now index data))).
Proof.
  intros H. unfold Entry_size, ConstEntrySize, uint64.
  rewrite length_entry_bytes. cbn [Data newMessage].
  apply Z.mod_small. lia.
Qed.

Section Writer.
Context `{JsonCodec}.

Lemma write_current_inv (now : Time) (message : list byte) (w : Wal)
    (fs : filesystem) (closed : list (list Entry)) (act : list Entry) :
  log_inv w fs closed act ->
  Time_wf now -> Z.of_nat (length message) < 2 ^ 32 ->
  Z.of_nat (length (chunk_bytes (concat (closed ++ [act]))))
    + 35 + Z.of_nat (length message) < 2 ^ 63 ->
  exists w' fs',
    write_current now message w fs = (Ok tt, w', fs')
    /\ wal_path w' = wal_path w /\ wal_config w' = wal_config w
    /\ log_inv w' fs' closed
         (act ++ [newMessage now (wal_index w) message]).
Proof.
  intros I Hnow Hmsg Hsize.
  set (e := newMessage now (wal_index w) message).
  set (dir := wal_path w) in *.
  pose proof (entries_bound _ _ _ _ I) as Hcnt.
  pose proof (count_nonneg (closed ++ [act])) as Hc0.
  assert (Hidx : 0 <= wal_index w < 2 ^ 64)
    by (rewrite (inv_index _ _ _ _ I); lia).
  assert (Hok : entry_ok e) by (apply newMessage_ok; [assumption|lia|lia]).
  assert (Hfile : fs !! segment_path dir (count closed)
                  = Some (File (chunk_bytes act))).
  { rewrite <- (start_length closed [act]).
    apply (inv_files _ _ _ _ I). apply list_lookup_middle. reflexivity. }
  assert (Hlen : Z.of_nat (length (chunk_bytes (act ++ [e])))
                 = Z.of_nat (length (chunk_bytes act)) + Entry_size e).
  { rewrite chunk_bytes_snoc, length_app. unfold e.
    rewrite Entry_size_newMessage by assumption. lia. }
  pose proof (chunk_size_bound _ _ _ _ I) as Hchunk.
  assert (Hes : Entry_size e = 35 + Z.of_nat (length message)).
  { unfold e. rewrite Entry_size_newMessage by assumption.
    rewrite length_entry_bytes. reflexivity. }
  unfold write_current. rewrite (deref_inv _ _ _ _ I). fold dir.
  unfold segment_write. cbn [file seg_of hpath hpos]. rewrite Hfile.
  fold e. rewrite writeEntry_append. cbn [content pos].
  cbn [firstIndex lastIndex firstTimestamp lastTimestamp path fileLength].
  rewrite <- chunk_bytes_snoc.
  match goal with |- context [store w ?s] => set (cur' := s) end.
  assert (Hcur : cur' = seg_of dir (count closed) (act ++ [e]) true).
  { unfold cur', seg_of. f_equal.
    - symmetry. apply last_index_snoc.
    - symmetry. apply first_timestamp_snoc.
    - symmetry. apply last_timestamp_snoc.
    - rewrite Hlen. unfold uint64. apply Z.mod_small. lia. }
  destruct (store_inv w fs closed act cur' I) as (S1 & S2 & S3 & S4 & S5).
  eexists _, _. split; [reflexivity|].
  cbn [wal_path wal_config]. split; [exact S2|]. split; [exact S4|].
  assert (Hcat : concat (closed ++ [act ++ [e]])
                 = concat (closed ++ [act]) ++ [e]).
  { rewrite !concat_app. cbn [concat]. rewrite !app_nil_r, app_assoc.
    reflexivity. }
  constructor;
    cbn [wal_path wal_current segments wal_config wal_index].
  - rewrite S1, S2, Hcur. reflexivity.
  - rewrite S3. apply (inv_current _ _ _ _ I).
  - rewrite S5, (inv_index _ _ _ _ I). rewrite !count_app, !count_single.
    rewrite length_app. cbn [length]. unfold uint64.
    rewrite !count_app, count_single in Hcnt, Hc0.
    rewrite Z.mod_small by lia. lia.
  - rewrite S4. apply (inv_max _ _ _ _ I).
  - intros k x Hk. rewrite Hcat in Hk.
    apply lookup_app_Some in Hk as [Hold|[Hge Hnew]].
    + apply (inv_entries _ _ _ _ I). exact Hold.
    + destruct (k - length (concat (closed ++ [act])))%nat eqn:Ek;
        [|destruct n; discriminate Hnew].
      cbn in Hnew. injection Hnew as <-.
      assert (k = length (concat (closed ++ [act]))) by lia. subst k.
      split; [|exact Hok].
      unfold e. cbn [Index newMessage].
      rewrite (inv_index _ _ _ _ I). reflexivity.
  - apply (inv_closed _ _ _ _ I).
  - rewrite Hcat, chunk_bytes_snoc, length_app.
    assert (Hl : Z.of_nat (length (entry_bytes e))
                 = 35 + Z.of_nat (length message))
      by (rewrite length_entry_bytes; reflexivity).
    lia.
  - rewrite S2. rewrite lookup_insert_ne by path_ne.
    apply (inv_dir _ _ _ _ I).
  - intros k c Hk. rewrite S2. fold dir.
    assert (Hkl : (k <= length closed)%nat).
    { apply lookup_lt_Some in Hk. rewrite length_app in Hk. cbn in Hk. lia. }
    rewrite (start_app_l closed _ k Hkl).
    destruct (Nat.eq_dec k (length closed)) as [->|Hne].
    * rewrite list_lookup_middle in Hk by reflexivity. injection Hk as <-.
      unfold start. rewrite firstn_all. apply lookup_insert_eq.
    * rewrite lookup_app_l in Hk by lia.
      rewrite lookup_insert_ne.
      -- rewrite <- (start_app_l closed [act] k Hkl).
         apply (inv_files _ _ _ _ I). rewrite lookup_app_l by lia. exact Hk.
      -- intros E. apply segment_path_inj in E.
         ++ rewrite <- (start_length closed [act]) in E.
            rewrite <- (start_app_l closed [act] k Hkl) in E.
            apply (start_inj _ _ _ _ _ _ I) in E; lia.
         ++ rewrite <- (start_length closed [act]).
            apply (start_bound _ _ _ _ _ I).
         ++ rewrite <- (start_app_l closed [act] k Hkl).
            apply (start_bound _ _ _ _ _ I).
  - intros p Hp Hs. rewrite S2 in *. fold dir in Hp |- *.
    rewrite length_app. cbn [length].
    destruct (decide (p = segment_path dir (count closed))) as [->|Hn].
    + right. exists (length closed). split; [lia|].
      rewrite start_length. reflexivity.
    + rewrite lookup_insert_ne in Hs by congruence.
      destruct (inv_children _ _ _ _ I p Hp Hs) as [->|(k & Hk & ->)];
        [left; reflexivity|].
      right. exists k. rewrite length_app in Hk. cbn [length] in Hk.
      split; [lia|]. fold dir.
      rewrite !start_app_l by lia. reflexivity.
  - rewrite S2, S4. rewrite lookup_insert_ne by path_ne.
    apply (inv_config _ _ _ _ I).
Qed.

Lemma cycle_inv (w : Wal) (fs : filesystem) (closed : list (list Entry))
    (act : list Entry) :
  log_inv w fs closed act -> act <> [] ->
  exists w1 fs1,
    (forall d,
        cycle w fs d
        = (Ok tt, w1, fs1,
           <[segment_path (wal_path w) (count closed) := chunk_bytes act]> d))
    /\ wal_path w1 = wal_path w /\ wal_config w1 = wal_config w
    /\ wal_index w1 = wal_index w
    /\ log_inv w1 fs1 (closed ++ [act]) [].
Proof.
  intros I Hact.
  set (dir := wal_path w) in *.
  pose proof (entries_bound _ _ _ _ I) as Hcnt.
  pose proof (count_nonneg (closed ++ [act])) as Hc0.
  assert (Hfile : fs !! segment_path dir (count closed)
                  = Some (File (chunk_bytes act))).
  { rewrite <- (start_length closed [act]).
    apply (inv_files _ _ _ _ I). apply list_lookup_middle. reflexivity. }
  assert (Hnew : fs !! segment_path dir (wal_index w) = None).
  { destruct (fs !! segment_path dir (wal_index w)) eqn:E; [|reflexivity].
    exfalso.
    destruct (inv_children _ _ _ _ I (segment_path dir (wal_index w))
                (is_child_segment_path _ _) (mk_is_Some _ _ E))
      as [Hc|(k & Hk & Hp)].
    - apply segment_path_not_config in Hc. exact Hc.
    - rewrite length_app in Hk. cbn [length] in Hk.
      apply segment_path_inj in Hp;
        [|rewrite (inv_index _ _ _ _ I); lia
         |apply (start_bound _ _ _ _ _ I)].
      rewrite (inv_index _ _ _ _ I) in Hp.
      assert (start (closed ++ [act]) k <= count closed).
      { destruct (Nat.eq_dec k (length closed)) as [->|Hn].
        - rewrite start_length. lia.
        - rewrite start_app_l by lia. apply start_le_count. }
      rewrite count_app, count_single in Hp.
      destruct act; [contradiction|]. cbn [length] in Hp. lia. }
  set (cur' := seg_of dir (count closed) act false).
  destruct (store_inv w fs closed act cur' I) as (S1 & S2 & S3 & S4 & S5).
  assert (Hdir : fs !! dir = Some Dir) by apply (inv_dir _ _ _ _ I).
  eexists _, _. split.
  { intros d. unfold cycle, Wal_Close. rewrite (deref_inv _ _ _ _ I). fold dir.
    unfold segment_flush, segment_close, file_io.
    cbn [file seg_of hpath hpos]. rewrite Hfile. cbn [ret fst].
    match goal with |- context [store w ?s] => change s with cur' end.
    unfold createSegment, os_Create. rewrite S2, S5. fold dir.
    fold (segment_path dir (wal_index w)).
    rewrite Hnew, filepath_Dir_segment_path, Hdir. reflexivity. }
  assert (Hcur : cur' = seg_of dir (count closed) act false) by reflexivity.
  cbn [wal_path wal_config wal_index].
  split; [first [exact S2 | reflexivity]|].
  split; [first [exact S4 | reflexivity]|].
  split; [first [exact S5 | reflexivity]|].
  assert (Hcat : concat ((closed ++ [act]) ++ [[]]) = concat (closed ++ [act])).
  { rewrite (concat_app (closed ++ [act])). cbn [concat].
    rewrite !app_nil_r. reflexivity. }
  assert (Hcount : count (closed ++ [act]) = wal_index w)
    by (symmetry; apply (inv_index _ _ _ _ I)).
  constructor;
    cbn [wal_path wal_current segments wal_config wal_index].
  - rewrite ?S1, ?S2, ?Hcur. fold dir. rewrite closed_segments_app.
    cbn [closed_segments]. rewrite Z.add_0_l, Hcount.
    rewrite <- !app_assoc. reflexivity.
  - rewrite ?S1. rewrite !length_app, length_closed_segments. cbn [length].
    f_equal.
  - rewrite ?S5. rewrite count_app, count_single. cbn [length]. lia.
  - rewrite ?S4. apply (inv_max _ _ _ _ I).
  - rewrite Hcat. apply (inv_entries _ _ _ _ I).
  - apply Forall_app. split; [apply (inv_closed _ _ _ _ I)|].
    constructor; [assumption|constructor].
  - rewrite Hcat. apply (inv_size _ _ _ _ I).
  - rewrite ?S2. rewrite lookup_insert_ne by path_ne.
    apply (inv_dir _ _ _ _ I).
  - intros k c Hk. rewrite ?S2. fold dir.
    apply lookup_app_Some in Hk as [Hold|[Hge Hlast]].
    + pose proof (lookup_lt_Some _ _ _ Hold) as Hlt.
      rewrite (start_app_l (closed ++ [act]) [[]] k) by lia.
      rewrite lookup_insert_ne.
      * apply (inv_files _ _ _ _ I). exact Hold.
      * intros E. apply segment_path_inj in E;
          [|rewrite (inv_index _ _ _ _ I); lia
           |apply (start_bound _ _ _ _ _ I)].
        rewrite (inv_index _ _ _ _ I) in E.
        rewrite length_app in Hlt. cbn [length] in Hlt.
        assert (start (closed ++ [act]) k <= count closed).
        { destruct (Nat.eq_dec k (length closed)) as [->|Hn].
          - rewrite start_length. lia.
          - rewrite start_app_l by lia. apply start_le_count. }
        rewrite count_app, count_single in E.
        destruct act; [contradiction|]. cbn [length] in E. lia.
    + destruct (k - length (closed ++ [act]))%nat eqn:Ek;
        [|destruct n; discriminate Hlast].
      cbn in Hlast. injection Hlast as <-.
      assert (k = length (closed ++ [act])) by lia. subst k.
      rewrite start_length, Hcount. apply lookup_insert_eq.
  - intros p Hp Hs. rewrite ?S2 in *. fold dir in Hp |- *.
    destruct (decide (p = segment_path dir (wal_index w))) as [->|Hn].
    + right. exists (length (closed ++ [act])).
      rewrite (length_app (closed ++ [act])). cbn [length]. split; [lia|].
      rewrite start_length, Hcount. reflexivity.
    + rewrite lookup_insert_ne in Hs by congruence.
      destruct (inv_children _ _ _ _ I p Hp Hs) as [->|(k & Hk & ->)];
        [left; reflexivity|].
      right. exists k. rewrite (length_app (closed ++ [act])).
      cbn [length]. split; [lia|]. fold dir.
      rewrite (start_app_l (closed ++ [act]) [[]] k) by lia. reflexivity.
  - rewrite ?S2, ?S4. rewrite lookup_insert_ne by path_ne.
    apply (inv_config _ _ _ _ I).
Qed.

Lemma segment_full_inv (w : Wal) (fs : filesystem)
    (closed : list (list Entry)) (act : list Entry) :
  log_inv w fs closed act ->
  segment_full w (seg_of (wal_path w) (count closed) act true)
  = chunk_full (MaxSegmentSize (wal_config w)) act.
Proof. reflexivity. Qed.

Lemma chunk_full_nonempty (max : Z) (act : list Entry) :
  0 <= max -> chunk_full max act = true -> act <> [].
Proof.
  unfold chunk_full. intros Hm Hf Hnil. subst act.
  apply andb_true_iff in Hf as [H1 H2].
  apply negb_true_iff, Z.eqb_neq in H1. apply Z.leb_le in H2.
  cbn in H2. lia.
Qed.

(** One [Wal.Write] on a log in the layout: it succeeds, and the entry
    goes to a new segment exactly when the active one was full. *)
Lemma Wal_Write_inv (now : Time) (message : list byte) (w : Wal)
    (fs : filesystem) (closed : list (list Entry)) (act : list Entry) :
  log_inv w fs closed act ->
  Time_wf now -> Z.of_nat (length message) < 2 ^ 32 ->
  Z.of_nat (length (chunk_bytes (concat (closed ++ [act]))))
    + 35 + Z.of_nat (length message) < 2 ^ 63 ->
  exists w' fs',
    (forall d,
        Wal_Write now message w fs d
        = (Ok tt, w', fs',
           if chunk_full (MaxSegmentSize (wal_config w)) act
           then <[segment_path (wal_path w) (count closed)
                  := chunk_bytes act]> d
           else d))
    /\ wal_path w' = wal_path w /\ wal_config w' = wal_config w
    /\ if chunk_full (MaxSegmentSize (wal_config w)) act
       then log_inv w' fs' (closed ++ [act])
              [newMessage now (wal_index w) message]
       else log_inv w' fs' closed
              (act ++ [newMessage now (wal_index w) message]).
Proof.
  intros I Hnow Hmsg Hsize.
  unfold Wal_Write. rewrite (inv_current _ _ _ _ I), (deref_inv _ _ _ _ I).
  rewrite (segment_full_inv _ _ _ _ I).
  destruct (chunk_full (MaxSegmentSize (wal_config w)) act) eqn:Hfull.
  - assert (Hact : act <> []).
    { apply (chunk_full_nonempty _ _ (proj1 (proj1 (inv_max _ _ _ _ I))) Hfull). }
    destruct (cycle_inv w fs closed act I Hact)
      as (w1 & fs1 & Hcy & P1 & P2 & P3 & I1).
    assert (Hsize1 : Z.of_nat (length (chunk_bytes
                       (concat ((closed ++ [act]) ++ [[]]))))
                     + 35 + Z.of_nat (length message) < 2 ^ 63).
    { rewrite (concat_app (closed ++ [act])). cbn [concat].
      rewrite !app_nil_r. exact Hsize. }
    destruct (write_current_inv now message w1 fs1 _ _ I1 Hnow Hmsg Hsize1)
      as (w' & fs' & Hwc & Q1 & Q2 & I').
    exists w', fs'. split; [intros d; rewrite Hcy, Hwc; reflexivity|].
    split; [congruence|]. split; [congruence|].
    rewrite P3 in I'. exact I'.
  - destruct (write_current_inv now message w fs _ _ I Hnow Hmsg Hsize)
      as (w' & fs' & Hwc & Q1 & Q2 & I').
    exists w', fs'. split; [intros d; rewrite Hwc; reflexivity|]. auto.
Qed.
End Writer.

(** * A run of appends *)

Lemma append_ok_fits (a : Time * list byte) : append_ok a -> append_fits a.
Proof. unfold append_ok, append_fits. intros [? ?]. split; [assumption|lia]. Qed.

Lemma log_bytes_cons (a : Time * list byte) (l : list (Time * list byte)) :
  log_bytes (a :: l) = 35 + Z.of_nat (length (snd a)) + log_bytes l.
Proof. reflexivity. Qed.

Lemma log_bytes_nonneg (appends : list (Time * list byte)) :
  0 <= log_bytes appends.
Proof.
  induction appends as [|a l IH]; [cbn; lia|]. rewrite log_bytes_cons. lia.
Qed.

Lemma log_bytes_length (appends : list (Time * list byte)) :
  35 * Z.of_nat (length appends) <= log_bytes appends.
Proof.
  induction appends as [|a l IH]; [cbn; lia|].
  rewrite log_bytes_cons. cbn [length]. lia.
Qed.

Lemma length_entries_from (k : Z) (appends : list (Time * list byte)) :
  length (entries_from k appends) = length appends.
Proof.
  revert k. induction appends as [|[now m] l IH]; intros k; cbn; auto.
Qed.

Lemma map_Data_entries_from (k : Z) (appends : list (Time * list byte)) :
  map Data (entries_from k appends) = map snd appends.
Proof.
  revert k. induction appends as [|[now m] l IH]; intros k; cbn; [auto|].
  rewrite IH. reflexivity.
Qed.

Lemma map_Index_entries_from (k : Z) (appends : list (Time * list byte)) :
  map Index (entries_from k appends) = seqZ k (Z.of_nat (length appends)).
Proof.
  revert k. induction appends as [|[now m] l IH]; intros k.
  - reflexivity.
  - cbn [entries_from map length Index newMessage].
    rewrite seqZ_cons by lia. rewrite IH. f_equal. f_equal; lia.
Qed.

Lemma small_entries_from (k : Z) (appends : list (Time * list byte)) :
  Forall append_ok appends -> small_entries (entries_from k appends).
Proof.
  intros Hall. revert k. induction Hall as [|[now m] l [Ht Hm] Hall IH];
    intros k; constructor.
  - cbn [entries_from Length newMessage snd] in *. unfold ConstEntrySize, uint32.
    rewrite Z.mod_small by lia. lia.
  - apply IH.
Qed.

Section Appends.
Context `{JsonCodec}.

Lemma Wal_Writes_inv (appends : list (Time * list byte)) :
  forall (w : Wal) (fs : filesystem) (closed : list (list Entry))
         (act : list Entry),
    log_inv w fs closed act ->
    Forall append_fits appends ->
    Z.of_nat (length (chunk_bytes (concat (closed ++ [act]))))
      + log_bytes appends < 2 ^ 63 ->
    exists w' fs' closed' act',
      (forall d, fst (Wal_Writes appends w fs d) = (Ok tt, w', fs'))
      /\ wal_path w' = wal_path w /\ wal_config w' = wal_config w
      /\ log_inv w' fs' closed' act'
      /\ concat (closed' ++ [act'])
         = concat (closed ++ [act]) ++ entries_from (wal_index w) appends
      /\ (appends <> [] -> act' <> [])
      /\ (appends = [] -> closed' = closed /\ act' = act).
Proof.
  induction appends as [|[now m] rest IH]; intros w fs closed act I Hall Hsize.
  - exists w, fs, closed, act. cbn [Wal_Writes entries_from].
    rewrite app_nil_r.
    split; [intros d; reflexivity|]. split; [reflexivity|].
    split; [reflexivity|].
    split; [exact I|]. split; [reflexivity|].
    split; [intros Hn; contradiction | auto].
  - apply Forall_cons in Hall as [[Hnow Hm] Hall]. cbn [fst snd] in *.
    rewrite log_bytes_cons in Hsize. cbn [snd] in Hsize.
    pose proof (log_bytes_nonneg rest) as Hrest.
    destruct (Wal_Write_inv now m w fs closed act I Hnow Hm)
      as (w1 & fs1 & E1 & P1 & P2 & I1); [lia|].
    set (e := newMessage now (wal_index w) m) in *.
    assert (Hel : Z.of_nat (length (entry_bytes e))
                  = 35 + Z.of_nat (length m))
      by (rewrite length_entry_bytes; reflexivity).
    assert (Hnext : exists closed1 act1,
               log_inv w1 fs1 closed1 act1
               /\ concat (closed1 ++ [act1]) = concat (closed ++ [act]) ++ [e]
               /\ act1 <> []).
    { destruct (chunk_full (MaxSegmentSize (wal_config w)) act).
      - exists (closed ++ [act]), [e]. split; [exact I1|]. split.
        + rewrite (concat_app (closed ++ [act])). reflexivity.
        + discriminate.
      - exists closed, (act ++ [e]). split; [exact I1|]. split.
        + rewrite !concat_app. cbn [concat]. rewrite !app_nil_r, app_assoc.
          reflexivity.
        + intros Hn. apply app_eq_nil in Hn as [_ Hn]. discriminate. }
    destruct Hnext as (closed1 & act1 & I1' & Hcat & Hne).
    assert (Hidx : wal_index w1 = wal_index w + 1).
    { rewrite (inv_index _ _ _ _ I1'), (inv_index _ _ _ _ I).
      unfold count. rewrite Hcat, length_app. cbn [length]. lia. }
    destruct (IH w1 fs1 closed1 act1 I1' Hall)
      as (w' & fs' & closed' & act' & E' & Q1 & Q2 & I' & Hcat' & Hne' & Hnil').
    { rewrite Hcat, chunk_bytes_snoc, length_app. lia. }
    exists w', fs', closed', act'.
    split; [intros d; cbn [Wal_Writes]; rewrite E1; apply E'|].
    split; [congruence|]. split; [congruence|]. split; [exact I'|]. split.
    + rewrite Hcat', Hcat, Hidx, <- app_assoc. reflexivity.
    + split; [|discriminate]. intros _. destruct rest as [|a rest'].
      * destruct (Hnil' eq_refl) as [_ ->]. exact Hne.
      * apply Hne'. discriminate.
Qed.

(** [New] and then a run of appends that fit: every call succeeds, and the
    log holds exactly the entries [Wal.Write] built, in order. *)
Lemma build_log_inv (path : string) (options : list Option)
    (appends : list (Time * list byte)) (fs0 : filesystem) :
  fs_wf fs0 -> fs0 !! path = None -> Forall api_option options ->
  Forall append_fits appends -> log_bytes appends < 2 ^ 63 ->
  exists w fs closed act,
    build_log path options appends fs0 = (Ok tt, w, fs)
    /\ wal_path w = path
    /\ log_inv w fs closed act
    /\ concat (closed ++ [act]) = entries_from 0 appends
    /\ (appends <> [] -> act <> []).
Proof.
  intros Hwf Hnone Hopts Hall Hsize.
  destruct (New_inv path options fs0 Hwf Hnone Hopts)
    as (w0 & fs1 & E0 & P0 & I0).
  destruct (Wal_Writes_inv appends w0 fs1 [] [] I0 Hall)
    as (w & fs & closed & act & E & Q1 & Q2 & I & Hcat & Hne & _).
  { cbn. lia. }
  exists w, fs, closed, act. unfold build_log. rewrite E0.
  split; [apply E|]. split; [congruence|]. split; [exact I|].
  split; [|exact Hne].
  rewrite Hcat. cbn [app concat]. rewrite (inv_index _ _ _ _ I0).
  reflexivity.
Qed.
End Appends.

(** * Loading a segment *)

Lemma chunk_split_last (c : list Entry) :
  c <> [] -> exists c' e, c = c' ++ [e] /\ last c = Some e.
Proof.
  intros Hne. destruct (exists_last Hne) as (c' & e & ->).
  exists c', e. split; [reflexivity|]. apply last_snoc.
Qed.

Lemma last_map {A B : Type} (f : A -> B) (l : list A) :
  last (map f l) = option_map f (last l).
Proof.
  induction l as [|a l IH]; [reflexivity|].
  destruct l as [|b l]; [reflexivity|]. cbn [map] in *.
  change (last (f a :: f b :: map f l)) with (last (f b :: map f l)).
  rewrite IH. reflexivity.
Qed.

Lemma Seek_end (s : stream) :
  Seek 0 SeekEnd s
  = (Ok (Z.of_nat (length (content s))),
     mkStream (content s) (Z.of_nat (length (content s)))).
Proof.
  unfold Seek. rewrite Z.add_0_r.
  destruct (Z.ltb_spec (Z.of_nat (length (content s))) 0); [lia|]. reflexivity.
Qed.

Lemma filepath_Base_segment_path (dir : string) (first : Z) :
  filepath_Base (segment_path dir first) = Sprintf_020d_wal first.
Proof. apply filepath_Base_join, has_slash_segment_name. Qed.

(** The first and the last steps of [loadSegment] on a file of entries. *)
Lemma read_first_timestamp_chunk (c : list Entry) :
  Forall entry_ok c ->
  exists p,
    read_first_timestamp (mkStream (chunk_bytes c) 0)
    = (Ok (first_timestamp (map stored c)), mkStream (chunk_bytes c) p).
Proof.
  intros Hok. unfold read_first_timestamp. destruct c as [|e c].
  - rewrite readEntry_eof by (apply at_cursor_end; reflexivity).
    eexists. reflexivity.
  - apply Forall_cons in Hok as [He _].
    assert (C : at_cursor (mkStream (chunk_bytes (e :: c)) 0)
                  (entry_bytes e ++ chunk_bytes c))
      by (apply (at_cursor_app _ []); reflexivity).
    rewrite (readEntry_cursor _ e _ He C). eexists. reflexivity.
Qed.

Lemma loadSegment_file_chunk (dir : string) (first : Z) (c : list Entry) :
  0 <= first < 2 ^ 64 ->
  Forall entry_ok c ->
  (forall e, last c = Some e -> Length e + ConstEntrySize < 2 ^ 32) ->
  Z.of_nat (length (chunk_bytes c)) < 2 ^ 63 ->
  fst (loadSegment_file (segment_path dir first) (mkStream (chunk_bytes c) 0))
  = Ok (loaded dir first c).
Proof.
  intros Hfirst Hok Hsmall Hsize. unfold loadSegment_file.
  destruct (read_first_timestamp_chunk c Hok) as (p & E1).
  rewrite (bind_ok _ _ _ _ _ E1).
  rewrite (bind_ok _ _ _ _ _ (Seek_end _)). cbn [content].
  rewrite filepath_Base_segment_path, Sscanf_Sprintf by assumption.
  unfold lift at 1. unfold bind at 1.
  destruct c as [|e0 c0].
  - cbn [chunk_bytes flat_map length]. cbn. reflexivity.
  - destruct (chunk_split_last (e0 :: c0)) as (c' & el & Hc & Hl); [discriminate|].
    assert (Hpos : 0 < Z.of_nat (length (chunk_bytes (e0 :: c0)))).
    { pose proof (length_chunk_bytes_lower (e0 :: c0)). cbn [length] in *. lia. }
    destruct (Z.gtb_spec (Z.of_nat (length (chunk_bytes (e0 :: c0)))) 0) as [_|];
      [|lia].
    assert (Hel : entry_ok el).
    { rewrite Forall_forall in Hok. apply Hok. rewrite Hc.
      apply elem_of_app. right. left. }
    assert (E3 : readPreviousEntry
                   (mkStream (chunk_bytes (e0 :: c0))
                      (Z.of_nat (length (chunk_bytes (e0 :: c0)))))
                 = (Ok (stored el),
                    mkStream (chunk_bytes (e0 :: c0))
                      (Z.of_nat (length (chunk_bytes (e0 :: c0)))))).
    { apply (readPreviousEntry_entry _ (chunk_bytes c') [] el Hel (Hsmall el Hl)).
      - cbn [content]. rewrite Hc, chunk_bytes_snoc, app_nil_r. reflexivity.
      - cbn [pos]. rewrite Hc, chunk_bytes_snoc, length_app. lia. }
    assert (E4 : (let* m := readPreviousEntry in ret (Index m, Timestamp m))
                   (mkStream (chunk_bytes (e0 :: c0))
                      (Z.of_nat (length (chunk_bytes (e0 :: c0)))))
                 = (Ok (Index (stored el), Timestamp (stored el)),
                    mkStream (chunk_bytes (e0 :: c0))
                      (Z.of_nat (length (chunk_bytes (e0 :: c0))))))
      by (rewrite (bind_ok _ _ _ _ _ E3); reflexivity).
    rewrite (bind_ok _ _ _ _ _ E4). unfold ret. cbn [fst snd].
    unfold loaded, last_index, last_timestamp.
    rewrite Hl, last_map, Hl. cbn [option_map]. unfold uint64.
    rewrite Z.mod_small by lia. reflexivity.
Qed.

Lemma loadSegment_chunk (fs : filesystem) (dir : string) (first : Z)
    (c : list Entry) :
  fs !! segment_path dir first = Some (File (chunk_bytes c)) ->
  0 <= first < 2 ^ 64 ->
  Forall entry_ok c ->
  (forall e, last c = Some e -> Length e + ConstEntrySize < 2 ^ 32) ->
  Z.of_nat (length (chunk_bytes c)) < 2 ^ 63 ->
  loadSegment fs (segment_path dir first) = Ok (loaded dir first c).
Proof.
  intros Hf Hfirst Hok Hsmall Hsize.
  unfold loadSegment, os_OpenFile. rewrite Hf. cbn [rbind].
  unfold file_io. cbn [hpath hpos]. rewrite Hf.
  pose proof (loadSegment_file_chunk dir first c Hfirst Hok Hsmall Hsize) as E.
  destruct (loadSegment_file (segment_path dir first)
              (mkStream (chunk_bytes c) 0)) as [r s].
  cbn [fst] in *. exact E.
Qed.

Lemma segment_open_loaded (fs : filesystem) (dir : string) (first : Z)
    (c data : list Entry) :
  fs !! segment_path dir first = Some (File (chunk_bytes data)) ->
  segment_open fs (loaded dir first c)
  = Ok (set_file (loaded dir first c)
          (Some (mkHandle (segment_path dir first) 0))).
Proof.
  intros Hf. unfold segment_open, os_OpenFile. cbn [file loaded path].
  rewrite Hf. reflexivity.
Qed.

(** * The view of a log *)

Lemma concat_lookup_chunk (chunks : list (list Entry)) (k j : nat)
    (c : list Entry) (e : Entry) :
  chunks !! k = Some c -> c !! j = Some e ->
  concat chunks !! (length (concat (take k chunks)) + j)%nat = Some e.
Proof.
  intros Hk Hj.
  assert (E : concat chunks
              = concat (take k chunks) ++ c ++ concat (drop (S k) chunks)).
  { rewrite <- concat_cons, <- concat_app. f_equal. symmetry.
    apply take_drop_middle. exact Hk. }
  rewrite E, lookup_app_r by lia.
  replace (length (concat (take k chunks)) + j - length (concat (take k chunks)))%nat
    with j by lia.
  rewrite lookup_app_l by (apply lookup_lt_Some in Hj; exact Hj). exact Hj.
Qed.

Lemma elem_of_concat_chunk (chunks : list (list Entry)) (k : nat)
    (c : list Entry) (e : Entry) :
  chunks !! k = Some c -> e ∈ c -> e ∈ concat chunks.
Proof.
  intros Hk He. apply list_elem_of_lookup in He as [j Hj].
  apply list_elem_of_lookup. eexists. eapply concat_lookup_chunk; eauto.
Qed.

Section View.
Variables (w : Wal) (fs : filesystem) (chunks : list (list Entry)).
Hypothesis V : log_view w fs chunks.

Lemma view_entry (k : nat) (pre post : list Entry) (e : Entry) :
  chunks !! k = Some (pre ++ e :: post) ->
  Index e = start chunks k + Z.of_nat (length pre)
  /\ entry_ok e /\ Length e + ConstEntrySize < 2 ^ 32.
Proof.
  intros Hk.
  assert (Hj : (pre ++ e :: post) !! length pre = Some e)
    by (apply list_lookup_middle; reflexivity).
  pose proof (concat_lookup_chunk chunks k _ _ e Hk Hj) as Hc.
  destruct (view_entries _ _ _ V _ _ Hc) as [Hi Hok].
  split; [|split; [exact Hok|]].
  - rewrite Hi. unfold start, count. lia.
  - pose proof (view_small _ _ _ V) as Hs. unfold small_entries in Hs.
    rewrite Forall_forall in Hs. apply Hs.
    apply list_elem_of_lookup. eauto.
Qed.

Lemma view_chunk_ok (k : nat) (c : list Entry) :
  chunks !! k = Some c -> Forall entry_ok c /\ small_entries c.
Proof.
  intros Hk. unfold small_entries. split; apply Forall_forall; intros e He.
  - apply list_elem_of_lookup in He as [j Hj].
    pose proof (concat_lookup_chunk chunks k j c e Hk Hj) as Hc.
    apply (view_entries _ _ _ V _ _ Hc).
  - pose proof (view_small _ _ _ V) as Hs. unfold small_entries in Hs.
    rewrite Forall_forall in Hs. apply Hs.
    eapply elem_of_concat_chunk; eauto.
Qed.

Lemma view_nonempty_chunk (k : nat) (c : list Entry) :
  chunks !! k = Some c -> c <> [].
Proof.
  intros Hk. pose proof (view_nonempty _ _ _ V) as Hn.
  rewrite Forall_forall in Hn. apply Hn. apply list_elem_of_lookup. eauto.
Qed.

Lemma view_count_bound : 35 * count chunks < 2 ^ 63.
Proof.
  pose proof (view_size _ _ _ V).
  pose proof (length_chunk_bytes_lower (concat chunks)). unfold count. lia.
Qed.

Lemma view_start_bound (k : nat) : 0 <= start chunks k < 2 ^ 64.
Proof.
  pose proof view_count_bound. pose proof (start_le_count chunks k).
  pose proof (start_nonneg chunks k). lia.
Qed.

Lemma view_chunk_size (k : nat) (c : list Entry) :
  chunks !! k = Some c -> Z.of_nat (length (chunk_bytes c)) < 2 ^ 63.
Proof.
  intros Hk. pose proof (view_size _ _ _ V) as Hs.
  assert (E : concat chunks
              = concat (take k chunks) ++ c ++ concat (drop (S k) chunks)).
  { rewrite <- concat_cons, <- concat_app. f_equal. symmetry.
    apply take_drop_middle. exact Hk. }
  rewrite E, !chunk_bytes_app, !length_app in Hs. lia.
Qed.

Lemma view_start_lt (j k : nat) :
  (j < k)%nat -> (k <= length chunks)%nat -> start chunks j < start chunks k.
Proof.
  intros Hjk Hk. apply start_lt; [|assumption|assumption].
  intros i c _ Hc. exact (view_nonempty_chunk i c Hc).
Qed.

Lemma view_start_inj (j k : nat) :
  (j <= length chunks)%nat -> (k <= length chunks)%nat ->
  start chunks j = start chunks k -> j = k.
Proof.
  intros Hj Hk E. destruct (lt_eq_lt_dec j k) as [[L|L]|L]; [|exact L|].
  - pose proof (view_start_lt j k L Hk). lia.
  - pose proof (view_start_lt k j L Hj). lia.
Qed.

Lemma view_last_index (k : nat) (c : list Entry) :
  chunks !! k = Some c ->
  last_index (start chunks k) c = start chunks k + Z.of_nat (length c) - 1.
Proof.
  intros Hk. pose proof (view_nonempty_chunk k c Hk) as Hne.
  destruct (chunk_split_last c Hne) as (c' & e & -> & Hl).
  unfold last_index. rewrite Hl.
  assert (Hk' : chunks !! k = Some (c' ++ e :: [])) by exact Hk.
  destruct (view_entry k c' [] e Hk') as (Hi & _).
  rewrite Hi, length_app. cbn [length]. lia.
Qed.

Lemma view_load (k : nat) (c : list Entry) :
  chunks !! k = Some c ->
  loadSegment fs (segment_path (wal_path w) (start chunks k))
  = Ok (loaded (wal_path w) (start chunks k) c).
Proof.
  intros Hk. destruct (view_chunk_ok k c Hk) as [Hok Hsm].
  apply loadSegment_chunk.
  - apply (view_files _ _ _ V). exact Hk.
  - apply view_start_bound.
  - exact Hok.
  - intros e He. unfold small_entries in Hsm. rewrite Forall_forall in Hsm.
    apply Hsm. apply last_Some_elem_of. exact He.
  - apply (view_chunk_size k c Hk).
Qed.

Lemma view_index_of_path (k : nat) (c : list Entry) :
  chunks !! k = Some c ->
  index_of_path (segment_path (wal_path w) (start chunks k)) (segments w) 0
  = Some k.
Proof.
  intros Hk.
  assert (G : forall (segs : list segment) (i n : nat),
             (forall j s, segs !! j = Some s ->
                path s = segment_path (wal_path w) (start chunks (i + j))) ->
             (i + length segs <= length chunks)%nat ->
             (i <= k)%nat -> (k < i + length segs)%nat ->
             index_of_path (segment_path (wal_path w) (start chunks k)) segs i
             = Some k).
  { induction segs as [|s segs IH]; intros i n Hp Hlen Hik Hki.
    - cbn [length] in Hki. lia.
    - cbn [index_of_path]. cbn [length] in Hlen, Hki.
      pose proof (Hp 0%nat s eq_refl) as Hs. rewrite Nat.add_0_r in Hs.
      destruct (String.eqb_spec (path s)
                  (segment_path (wal_path w) (start chunks k))) as [E|E].
      + rewrite Hs in E. apply segment_path_inj in E;
          try apply view_start_bound.
        apply view_start_inj in E; [congruence|lia|lia].
      + apply (IH (S i) n).
        * intros j s' Hj. specialize (Hp (S j) s' Hj).
          rewrite Hp. do 2 f_equal. lia.
        * lia.
        * destruct (Nat.eq_dec i k) as [->|Hn]; [|lia].
          exfalso. apply E. exact Hs.
        * lia. }
  apply (G (segments w) 0%nat 0%nat).
  - intros j s Hj. cbn [Nat.add].
    destruct (lookup_lt_is_Some_2 chunks j) as [c' Hc'].
    { rewrite <- (view_length _ _ _ V). apply lookup_lt_Some in Hj. exact Hj. }
    destruct (view_segments _ _ _ V j c' Hc') as (s' & Hs' & Hp & _).
    rewrite Hj in Hs'. injection Hs' as <-. exact Hp.
  - rewrite (view_length _ _ _ V). lia.
  - lia.
  - rewrite (view_length _ _ _ V). apply lookup_lt_Some in Hk. lia.
Qed.
End View.

(** * Reading a log *)

Lemma read_at_split (fs : filesystem) (p : string) (pre post : list Entry)
    (e : Entry) :
  fs !! p = Some (File (chunk_bytes (pre ++ e :: post))) -> entry_ok e ->
  file_io fs readEntry
    (Some (mkHandle p (Z.of_nat (length (chunk_bytes pre)))))
  = (Ok (stored e),
     Some (mkHandle p (Z.of_nat (length (chunk_bytes (pre ++ [e])))))).
Proof.
  intros Hf Hok. unfold file_io. cbn [hpath hpos]. rewrite Hf.
  rewrite (readEntry_cursor _ e (chunk_bytes post) Hok).
  - cbn [advance pos content]. rewrite chunk_bytes_app, length_app.
    cbn [chunk_bytes flat_map]. rewrite app_nil_r.
    do 3 f_equal. lia.
  - apply (at_cursor_app _ (chunk_bytes pre)).
    + cbn [content]. rewrite chunk_bytes_app. reflexivity.
    + reflexivity.
Qed.

Lemma read_at_end (fs : filesystem) (p : string) (c : list Entry) :
  fs !! p = Some (File (chunk_bytes c)) ->
  file_io fs readEntry (Some (mkHandle p (Z.of_nat (length (chunk_bytes c)))))
  = (Err EOF, Some (mkHandle p (Z.of_nat (length (chunk_bytes c))))).
Proof.
  intros Hf. unfold file_io. cbn [hpath hpos]. rewrite Hf.
  rewrite readEntry_eof by (apply at_cursor_end; reflexivity).
  reflexivity.
Qed.

Section Reading.
Variables (w : Wal) (fs : filesystem) (chunks : list (list Entry)).
Hypothesis V : log_view w fs chunks.

(** [Next] inside a segment. *)
Lemma Next_within (r : Reader) (k : nat) (pre post : list Entry) (e : Entry) :
  reader_at (wal_path w) chunks r k pre (e :: post) ->
  exists r',
    Next w fs r = (Ok (stored e), r')
    /\ reader_at (wal_path w) chunks r' k (pre ++ [e]) post
    /\ reader_timestamp r' = reader_timestamp r.
Proof.
  intros (Hk & Hi & s & Hcur & Hp & Hl & Hf).
  destruct (view_entry w fs chunks V k pre post e Hk) as (Hidx & Hok & Hsm).
  pose proof (view_last_index w fs chunks V k _ Hk) as Hlast.
  pose proof (view_files _ _ _ V k _ Hk) as Hfile.
  pose proof (view_start_bound w fs chunks V k) as Hsb.
  pose proof (view_count_bound w fs chunks V) as Hcb.
  assert (Hkl : (k < length chunks)%nat) by (apply lookup_lt_Some in Hk; exact Hk).
  pose proof (start_le_count chunks (S k)) as Hsc.
  rewrite (start_S _ _ _ Hk) in Hsc.
  rewrite length_app in Hlast, Hsc. cbn [length] in Hlast, Hsc.
  unfold Next. rewrite Hcur, Hf. cbn [reader_index reader_timestamp lastIndex].
  rewrite Hl, Hlast, Hi.
  destruct (Z.ltb_spec (start chunks k + Z.of_nat (length pre + S (length post)) - 1)
              (start chunks k + Z.of_nat (length pre))) as [L|_]; [lia|].
  rewrite Hf, (read_at_split fs _ pre post e Hfile Hok).
  eexists. split; [reflexivity|]. split; [|reflexivity].
  split; [|split].
  - rewrite <- app_assoc. exact Hk.
  - cbn [reader_index stored Index]. rewrite Hidx, length_app. cbn [length].
    unfold uint64. rewrite Z.mod_small by lia. lia.
  - eexists. split; [reflexivity|]. cbn [set_file path lastIndex file].
    split; [exact Hp|]. split; [|reflexivity].
    rewrite <- app_assoc. exact Hl.
Qed.

(** [Next] at the end of a segment that has a successor. *)
Lemma Next_crossing (r : Reader) (k : nat) (c post : list Entry) (e : Entry) :
  reader_at (wal_path w) chunks r k c [] ->
  chunks !! S k = Some (e :: post) ->
  exists r',
    Next w fs r = (Ok (stored e), r')
    /\ reader_at (wal_path w) chunks r' (S k) [e] post
    /\ reader_timestamp r' = reader_timestamp r.
Proof.
  intros (Hk & Hi & s & Hcur & Hp & Hl & Hf) Hn.
  rewrite app_nil_r in Hk, Hl.
  assert (Hn' : chunks !! S k = Some ([] ++ e :: post)) by exact Hn.
  destruct (view_entry w fs chunks V (S k) [] post e Hn') as (Hidx & Hok & Hsm).
  pose proof (view_last_index w fs chunks V k _ Hk) as Hlast.
  pose proof (view_files _ _ _ V k _ Hk) as Hfile.
  pose proof (view_files _ _ _ V (S k) _ Hn) as Hfile'.
  pose proof (view_start_bound w fs chunks V (S k)) as Hsb.
  pose proof (view_count_bound w fs chunks V) as Hcb.
  pose proof (start_le_count chunks (S (S k))) as Hsc.
  rewrite (start_S _ _ _ Hn) in Hsc. cbn [length] in Hsc.
  pose proof (start_S _ _ _ Hk) as HS.
  destruct (view_segments _ _ _ V (S k) _ Hn) as (sn & Hsn & Hpn & _).
  unfold Next. rewrite Hcur, Hf. cbn [reader_index reader_timestamp lastIndex].
  rewrite Hl, Hlast, Hi.
  destruct (Z.ltb_spec (start chunks k + Z.of_nat (length c) - 1)
              (start chunks k + Z.of_nat (length c))) as [_|L]; [|lia].
  rewrite Hp, (view_index_of_path w fs chunks V k c Hk).
  assert (Hlen : (length (segments w) <=? k + 1)%nat = false).
  { apply Nat.leb_gt. rewrite (view_length _ _ _ V).
    apply lookup_lt_Some in Hn. lia. }
  rewrite Hlen. unfold segment_close. rewrite Hf. unfold file_io at 1.
  cbn [hpath hpos]. rewrite Hfile. cbn [ret fst].
  replace (k + 1)%nat with (S k) by lia. rewrite Hsn, Hpn.
  rewrite (view_load w fs chunks V (S k) _ Hn).
  rewrite (segment_open_loaded fs _ _ _ _ Hfile').
  cbn [set_file file].
  pose proof (read_at_split fs _ [] post e Hfile' Hok) as R.
  change (Z.of_nat (length (chunk_bytes []))) with 0 in R. rewrite R.
  eexists. split; [reflexivity|]. split; [|reflexivity].
  split; [|split].
  - exact Hn.
  - cbn [reader_index stored Index length]. rewrite Hidx. cbn [length].
    unfold uint64. rewrite Z.mod_small by lia. lia.
  - eexists. split; [reflexivity|].
    cbn [set_file path lastIndex file loaded app].
    split; [reflexivity|]. split; reflexivity.
Qed.

(** [Next] at the end of the last segment. *)
Lemma Next_end (r : Reader) (k : nat) (c : list Entry) :
  reader_at (wal_path w) chunks r k c [] ->
  length chunks = S k ->
  exists r',
    Next w fs r = (Err ErrNoSegmentsFound, r')
    /\ reader_at (wal_path w) chunks r' k c [].
Proof.
  intros (Hk & Hi & s & Hcur & Hp & Hl & Hf) Hlen.
  pose proof Hk as Hk'. rewrite app_nil_r in Hk'.
  pose proof (view_last_index w fs chunks V k _ Hk') as Hlast.
  unfold Next. rewrite Hcur, Hf. cbn [reader_index reader_timestamp lastIndex].
  rewrite Hl, app_nil_r, Hlast, Hi.
  destruct (Z.ltb_spec (start chunks k + Z.of_nat (length c) - 1)
              (start chunks k + Z.of_nat (length c))) as [_|L]; [|lia].
  rewrite Hp, (view_index_of_path w fs chunks V k c Hk').
  assert (Hle : (length (segments w) <=? k + 1)%nat = true).
  { apply Nat.leb_le. rewrite (view_length _ _ _ V). lia. }
  rewrite Hle. eexists. split; [reflexivity|].
  split; [exact Hk|]. split; [reflexivity|].
  exists s. cbn [reader_current]. repeat split; assumption.
Qed.
End Reading.

(** * Seeking *)

Lemma seek_index_while (fuel : nat) (target i : Z) (st : stream) :
  seek_index fuel target i st
  = seek_while (fun e => Index e <? target) fuel (i <? target) i st.
Proof.
  revert i st. induction fuel as [|fuel IH]; intros i st.
  - reflexivity.
  - cbn [seek_index seek_while]. destruct (i <? target); [|reflexivity].
    destruct (readEntry st) as [[entry|e|] st']; [apply IH|reflexivity..].
Qed.

Lemma seek_timestamp_while (fuel : nat) (target t : Time) (i : Z) (st : stream) :
  seek_timestamp fuel target t i st
  = seek_while (fun e => Time_After target (Timestamp e)) fuel
      (Time_After target t) i st.
Proof.
  revert t i st. induction fuel as [|fuel IH]; intros t i st.
  - reflexivity.
  - cbn [seek_timestamp seek_while]. destruct (Time_After target t); [|reflexivity].
    destruct (readEntry st) as [[entry|e|] st']; [apply IH|reflexivity..].
Qed.

Lemma readEntry_cursor_after (pre post : list Entry) (e : Entry) :
  entry_ok e ->
  readEntry (cursor_after (pre ++ e :: post) pre)
  = (Ok (stored e), cursor_after (pre ++ e :: post) (pre ++ [e])).
Proof.
  intros Hok. unfold cursor_after.
  rewrite (readEntry_cursor _ e (chunk_bytes post) Hok).
  - cbn [advance pos content]. rewrite (chunk_bytes_app pre [e]), length_app.
    cbn [chunk_bytes flat_map]. rewrite app_nil_r, Nat2Z.inj_add.
    reflexivity.
  - apply (at_cursor_app _ (chunk_bytes pre)).
    + cbn [content]. rewrite chunk_bytes_app. reflexivity.
    + reflexivity.
Qed.

Lemma readEntry_cursor_end (c : list Entry) :
  readEntry (cursor_after c c) = (Err EOF, cursor_after c c).
Proof. apply readEntry_eof. apply at_cursor_end. reflexivity. Qed.

(** The seek loop from the middle of a file: it stops where it stands, at the
    end of the file, or after the first entry that does not call for more. *)
Lemma seek_while_from (go : Entry -> bool) (post pre : list Entry)
    (fuel : nat) (cont : bool) (i : Z) :
  Forall entry_ok post -> (length post < fuel)%nat ->
  exists (pre' post' : list Entry) (i' : Z),
    pre ++ post = pre' ++ post'
    /\ seek_while go fuel cont i (cursor_after (pre ++ post) pre)
       = (Ok i', cursor_after (pre ++ post) pre')
    /\ ((pre' = pre /\ i' = i /\ (cont = false \/ post = []))
        \/ (cont = true
            /\ exists (mid : list Entry) (e : Entry),
                 pre' = pre ++ mid ++ [e] /\ i' = Index e
                 /\ Forall (fun x => go (stored x) = true) mid
                 /\ (go (stored e) = false \/ post' = []))).
Proof.
  revert pre fuel cont i.
  induction post as [|e post IH]; intros pre fuel cont i Hok Hfuel.
  - exists pre, [], i. split; [reflexivity|]. split.
    + destruct fuel as [|fuel]; [cbn [length] in Hfuel; lia|].
      cbn [seek_while]. destruct cont; [|reflexivity].
      rewrite app_nil_r, readEntry_cursor_end. reflexivity.
    + left. split; [reflexivity|]. split; [reflexivity|]. right. reflexivity.
  - destruct cont.
    + destruct fuel as [|fuel]; [cbn [length] in Hfuel; lia|].
      cbn [length] in Hfuel.
      apply Forall_cons in Hok as [Hoke Hok].
      destruct (IH (pre ++ [e]) fuel (go (stored e)) (Index e) Hok)
        as (pre' & post' & i' & Hc & Hs & Hcase); [lia|].
      rewrite <- app_assoc in Hc, Hs. cbn [app] in Hc, Hs.
      exists pre', post', i'. split; [exact Hc|]. split.
      * cbn [seek_while]. rewrite (readEntry_cursor_after pre post e Hoke).
        exact Hs.
      * right. split; [reflexivity|].
        destruct Hcase as [(-> & -> & Hstop)|(Hgo & mid & e' & -> & -> & Hmid & Hend)].
        -- exists [], e. cbn [app]. split; [reflexivity|]. split; [reflexivity|].
           split; [constructor|].
           destruct Hstop as [Hstop| ->]; [left; exact Hstop|].
           right. rewrite <- app_assoc in Hc. cbn [app] in Hc.
           apply app_inv_head in Hc. injection Hc as <-. reflexivity.
        -- exists (e :: mid), e'. rewrite <- app_assoc. cbn [app].
           split; [reflexivity|]. split; [reflexivity|].
           split; [constructor; assumption|exact Hend].
    + exists pre, (e :: post), i. split; [reflexivity|]. split.
      * destruct fuel; reflexivity.
      * left. split; [reflexivity|]. split; [reflexivity|]. left. reflexivity.
Qed.

Lemma rewind_start (c : list Entry) :
  rewind (cursor_after c []) = (Ok tt, cursor_after c []).
Proof.
  unfold rewind. rewrite gotoPreviousEntry_start by reflexivity. reflexivity.
Qed.

Lemma rewind_entry (pre post : list Entry) (e : Entry) :
  entry_ok e -> Length e + ConstEntrySize < 2 ^ 32 ->
  rewind (cursor_after (pre ++ e :: post) (pre ++ [e]))
  = (Ok tt, cursor_after (pre ++ e :: post) pre).
Proof.
  intros Hok Hsm. unfold rewind.
  rewrite (gotoPreviousEntry_entry _ (chunk_bytes pre) (chunk_bytes post) e Hok Hsm).
  - reflexivity.
  - unfold cursor_after. cbn [content]. rewrite chunk_bytes_app. reflexivity.
  - unfold cursor_after. cbn [pos]. rewrite chunk_bytes_app, length_app.
    cbn [chunk_bytes flat_map]. rewrite app_nil_r. lia.
Qed.

(** The seek loop and the step back of [Wal.Reader], from the start of a
    file: the reader stands before the first entry that does not call for
    more, or before the last entry. *)
Lemma seek_rewind (go : Entry -> bool) (c : list Entry) (e0 : Entry)
    (fuel : nat) :
  head c = Some e0 -> Forall entry_ok c -> small_entries c ->
  (length c < fuel)%nat ->
  exists (pre post : list Entry) (e : Entry),
    c = pre ++ e :: post
    /\ bind (seek_while go fuel (go (stored e0)) (Index e0))
         (fun i => bind rewind (fun _ => ret i)) (cursor_after c [])
       = (Ok (Index e), cursor_after c pre)
    /\ Forall (fun x => go (stored x) = true) pre
    /\ (go (stored e) = false \/ post = []).
Proof.
  intros Hh Hok Hsm Hfuel.
  destruct c as [|e0' rest]; [discriminate|]. injection Hh as ->.
  destruct (seek_while_from go (e0 :: rest) [] fuel (go (stored e0)) (Index e0)
              Hok Hfuel) as (pre' & post' & i' & Hc & Hs & Hcase).
  cbn [app] in Hc, Hs.
  destruct Hcase as [(-> & -> & Hstop)|(Hgo & mid & e & -> & -> & Hmid & Hend)].
  - destruct Hstop as [Hstop|Hnil]; [|discriminate].
    exists [], rest, e0. split; [reflexivity|]. split.
    + rewrite (bind_ok _ _ _ _ _ Hs).
      rewrite (bind_ok _ _ _ _ _ (rewind_start (e0 :: rest))). reflexivity.
    + split; [constructor|]. left. exact Hstop.
  - cbn [app] in Hc. rewrite <- app_assoc in Hc. cbn [app] in Hc.
    exists mid, post', e. split; [exact Hc|]. split.
    + rewrite (bind_ok _ _ _ _ _ Hs). rewrite Hc.
      assert (Hoke : entry_ok e /\ Length e + ConstEntrySize < 2 ^ 32).
      { unfold small_entries in Hsm. rewrite Forall_forall in Hok, Hsm.
        assert (He : e ∈ e0 :: rest).
        { rewrite Hc. apply elem_of_app. right. left. }
        split; [apply Hok|apply Hsm]; exact He. }
      destruct Hoke as [Hoke Hsme].
      rewrite (bind_ok _ _ _ _ _ (rewind_entry mid post' e Hoke Hsme)).
      reflexivity.
    + split; assumption.
Qed.

(** * Opening a reader *)

Lemma find_by_index_bound (target : Z) (segs : list segment) (i0 i : nat) :
  find_by_index target segs i0 = Some i ->
  (i0 <= i < i0 + length segs)%nat.
Proof.
  revert i0. induction segs as [|s segs IH]; intros i0 Hf; [discriminate|].
  cbn [find_by_index length] in *.
  destruct (_ || _) in Hf.
  - injection Hf as <-. lia.
  - apply IH in Hf. lia.
Qed.

Lemma find_by_timestamp_bound (target : Time) (segs : list segment) (i0 i : nat) :
  find_by_timestamp target segs i0 = Some i ->
  (i0 <= i < i0 + length segs)%nat.
Proof.
  revert i0. induction segs as [|s segs IH]; intros i0 Hf; [discriminate|].
  cbn [find_by_timestamp length] in *.
  destruct (_ || _) in Hf.
  - injection Hf as <-. lia.
  - apply IH in Hf. lia.
Qed.

Section Opening.
Variables (w : Wal) (fs : filesystem) (chunks : list (list Entry)).
Hypothesis V : log_view w fs chunks.
Hypothesis Hne : chunks <> [].

Lemma chosen_segment_bound (rd : Reader) :
  (chosen_segment w rd < length chunks)%nat.
Proof.
  rewrite <- (view_length _ _ _ V).
  assert (Hl : (0 < length (segments w))%nat).
  { rewrite (view_length _ _ _ V). destruct chunks; [contradiction|cbn; lia]. }
  unfold chosen_segment.
  destruct (Time_IsZero (reader_timestamp rd)).
  - destruct (find_by_index _ _ _) as [i|] eqn:E.
    + apply find_by_index_bound in E. lia.
    + destruct (segments w) as [|s0 rest]; [cbn in Hl; lia|].
      destruct (_ <? _); cbn [length]; lia.
  - destruct (find_by_timestamp _ _ _) as [i|] eqn:E.
    + apply find_by_timestamp_bound in E. lia.
    + destruct (segments w) as [|s0 rest]; [cbn in Hl; lia|].
      destruct (Time_Before _ _); cbn [length]; lia.
Qed.

Lemma start_segment_found (k : nat) (c : list Entry)
    (clamp : segment -> bool) :
  chunks !! k = Some c ->
  start_segment w fs (Some k) clamp
  = Ok (loaded (wal_path w) (start chunks k) c).
Proof.
  intros Hk. destruct (view_segments _ _ _ V k c Hk) as (s & Hs & Hp & _).
  unfold start_segment. rewrite Hs, Hp, (view_load w fs chunks V k c Hk).
  reflexivity.
Qed.

Lemma start_segment_clamped (c : list Entry) (clamp : segment -> bool) :
  chunks !! (match segments w with
             | [] => 0%nat
             | s0 :: _ =>
                 if clamp s0 then 0%nat else (length (segments w) - 1)%nat
             end) = Some c ->
  start_segment w fs None clamp
  = Ok (loaded (wal_path w)
          (start chunks (match segments w with
                         | [] => 0%nat
                         | s0 :: _ =>
                             if clamp s0 then 0%nat
                             else (length (segments w) - 1)%nat
                         end)) c).
Proof.
  intros Hk. unfold start_segment. cbn [rbind].
  destruct (segments w) as [|s0 rest] eqn:Es.
  - exfalso. pose proof (view_length _ _ _ V) as Hl. rewrite Es in Hl.
    destruct chunks; [contradiction|discriminate].
  - destruct (clamp s0).
    + destruct (view_segments _ _ _ V 0%nat c Hk) as (s & Hs & Hp & _).
      rewrite Es in Hs. injection Hs as ->.
      rewrite Hp. apply (view_load w fs chunks V 0%nat c Hk).
    + destruct (view_segments _ _ _ V _ c Hk) as (s & Hs & Hp & _).
      rewrite Es in Hs. rewrite last_lookup.
      replace (Init.Nat.pred (length (s0 :: rest)))
        with (length (s0 :: rest) - 1)%nat by lia.
      rewrite Hs, Hp. apply (view_load w fs chunks V _ c Hk).
Qed.

(** [Wal.Reader] on a log with entries: the reader stands in the chosen
    segment, before the first entry that does not call for more or before
    the last entry of that segment. *)
Lemma Wal_Reader_positions (options : list ReaderOption) (rd : Reader) :
  apply_options options (mkReader 0 zeroTime None) = Ok rd ->
  exists (r : Reader) (pre post : list Entry) (e : Entry),
    Wal_Reader w fs options = Ok r
    /\ reader_at (wal_path w) chunks r (chosen_segment w rd) pre (e :: post)
    /\ reader_timestamp r = reader_timestamp rd
    /\ Forall (fun x => reader_go rd (stored x) = true) pre
    /\ (reader_go rd (stored e) = false \/ post = []).
Proof.
  intros Hopt.
  destruct (lookup_lt_is_Some_2 chunks (chosen_segment w rd)
              (chosen_segment_bound rd)) as [c Hk].
  pose proof (view_nonempty_chunk w fs chunks V _ c Hk) as Hcne.
  destruct c as [|e0 rest] eqn:Ec; [contradiction|]. rewrite <- Ec in *.
  assert (Hk0 : chunks !! chosen_segment w rd = Some ([] ++ e0 :: rest))
    by (rewrite Hk, Ec; reflexivity).
  destruct (view_entry w fs chunks V _ [] rest e0 Hk0) as (Hi0 & Hok0 & _).
  cbn [length] in Hi0. rewrite Z.add_0_r in Hi0.
  destruct (view_chunk_ok w fs chunks V _ c Hk) as [Hok Hsm].
  pose proof (view_files _ _ _ V _ c Hk) as Hfile.
  assert (Hfuel : (length c < S (length (chunk_bytes c)))%nat).
  { pose proof (length_chunk_bytes_lower c). lia. }
  assert (Hhead : head c = Some e0) by (rewrite Ec; reflexivity).
  assert (Hstart :
    (if Time_IsZero (reader_timestamp rd)
     then start_segment w fs
            (find_by_index (reader_index rd) (segments w) 0)
            (fun s0 => reader_index rd <? firstIndex s0)
     else start_segment w fs
            (find_by_timestamp (reader_timestamp rd) (segments w) 0)
            (fun s0 => Time_Before (reader_timestamp rd) (firstTimestamp s0)))
    = Ok (loaded (wal_path w) (start chunks (chosen_segment w rd)) c)).
  { revert Hk. clear Hk0 Hi0. unfold chosen_segment.
    destruct (Time_IsZero (reader_timestamp rd)).
    - destruct (find_by_index _ _ _) as [i|].
      + apply start_segment_found.
      + apply (start_segment_clamped c
                 (fun s0 => reader_index rd <? firstIndex s0)).
    - destruct (find_by_timestamp _ _ _) as [i|].
      + apply start_segment_found.
      + apply (start_segment_clamped c
                 (fun s0 => Time_Before (reader_timestamp rd)
                              (firstTimestamp s0))). }
  set (k := chosen_segment w rd) in *.
  set (go := fun x : Entry =>
               if Time_IsZero (reader_timestamp rd)
               then Index x <? reader_index rd
               else Time_After (reader_timestamp rd) (Timestamp x)).
  destruct (seek_rewind go c e0 (S (length (chunk_bytes c))) Hhead Hok Hsm Hfuel)
    as (pre & post & e & Hc & Hseek & Hpre & Hend).
  assert (Hkc : chunks !! k = Some (pre ++ e :: post)) by (rewrite Hk, Hc; reflexivity).
  destruct (view_entry w fs chunks V k pre post e Hkc) as (Hi & _).
  exists (mkReader (Index e) (reader_timestamp rd)
            (Some (set_file
                     (set_file (loaded (wal_path w) (start chunks k) c)
                        (Some (mkHandle (segment_path (wal_path w)
                                           (start chunks k)) 0)))
                     (Some (mkHandle (segment_path (wal_path w)
                                        (start chunks k))
                              (Z.of_nat (length (chunk_bytes pre)))))))),
    pre, post, e.
  split; [|split; [|split; [reflexivity|split; [exact Hpre|exact Hend]]]].
  - unfold Wal_Reader. rewrite Hopt. cbn [rbind]. rewrite Hstart. cbn [rbind].
    rewrite (segment_open_loaded fs _ _ c c Hfile). cbn [rbind].
    unfold file_io. cbn [set_file file hpath hpos]. rewrite Hfile.
    assert (Hrun :
      bind
        (fun st : stream =>
           if Time_IsZero (reader_timestamp rd)
           then seek_index (S (length (content st))) (reader_index rd)
                  (firstIndex (loaded (wal_path w) (start chunks k) c)) st
           else seek_timestamp (S (length (content st))) (reader_timestamp rd)
                  (firstTimestamp (loaded (wal_path w) (start chunks k) c))
                  (firstIndex (loaded (wal_path w) (start chunks k) c)) st)
        (fun i => bind rewind (fun _ => ret i))
        (mkStream (chunk_bytes c) 0)
      = (Ok (Index e), cursor_after c pre)).
    { rewrite <- Hseek. unfold bind at 1 3.
      change (mkStream (chunk_bytes c) 0) with (cursor_after c []).
      assert (Hsw :
        (if Time_IsZero (reader_timestamp rd)
         then seek_index (S (length (content (cursor_after c []))))
                (reader_index rd)
                (firstIndex (loaded (wal_path w) (start chunks k) c))
                (cursor_after c [])
         else seek_timestamp (S (length (content (cursor_after c []))))
                (reader_timestamp rd)
                (firstTimestamp (loaded (wal_path w) (start chunks k) c))
                (firstIndex (loaded (wal_path w) (start chunks k) c))
                (cursor_after c []))
        = seek_while go (S (length (chunk_bytes c))) (go (stored e0))
            (Index e0) (cursor_after c [])).
      { cbn [loaded firstIndex firstTimestamp cursor_after content].
        unfold go. destruct (Time_IsZero (reader_timestamp rd)).
        - rewrite seek_index_while. cbn [stored Index]. rewrite Hi0.
          reflexivity.
        - rewrite seek_timestamp_while.
          replace (first_timestamp (map stored c))
            with (Timestamp (stored e0)) by (rewrite Ec; reflexivity).
          rewrite Hi0. reflexivity. }
      rewrite Hsw. reflexivity. }
    cbn [content] in Hrun |- *.
    unfold ret in Hrun |- *. unfold bind in Hrun |- *.
    cbn [content] in Hrun |- *.
    match type of Hrun with
    | ?X = _ => match goal with |- context [let (r, s) := ?Y in _] =>
                  change Y with X; rewrite Hrun end
    end.
    cbn [rbind cursor_after pos]. reflexivity.
  - split; [exact Hkc|]. split; [exact Hi|].
    eexists. split; [reflexivity|]. cbn [set_file path lastIndex file loaded].
    split; [reflexivity|]. split; [|reflexivity].
    rewrite Hc. reflexivity.
Qed.
End Opening.

(** * Reading all of a log *)

Section ReadingOn.
Variables (w : Wal) (fs : filesystem) (chunks : list (list Entry)).
Hypothesis V : log_view w fs chunks.

Lemma Nexts_rest (n : nat) :
  forall (r : Reader) (k : nat) (pre post : list Entry),
    reader_at (wal_path w) chunks r k pre post ->
    length (post ++ concat (drop (S k) chunks)) = n ->
    exists (r' : Reader) (k' : nat) (c' : list Entry),
      Nexts n w fs r
      = (map (fun e => Ok (stored e)) (post ++ concat (drop (S k) chunks)), r')
      /\ reader_at (wal_path w) chunks r' k' c' []
      /\ length chunks = S k'
      /\ reader_timestamp r' = reader_timestamp r.
Proof.
  induction n as [|n IH]; intros r k pre post Hat Hlen.
  - apply length_zero_iff_nil in Hlen.
    apply app_eq_nil in Hlen as [-> Hd].
    exists r, k, pre. rewrite Hd. split; [reflexivity|].
    split; [exact Hat|]. split; [|reflexivity].
    destruct Hat as (Hk & _). apply lookup_lt_Some in Hk.
    destruct (drop (S k) chunks) as [|c' rest] eqn:Ed.
    + apply (f_equal length) in Ed. rewrite length_drop in Ed.
      cbn [length] in Ed. lia.
    + exfalso. cbn [concat] in Hd. apply app_eq_nil in Hd as [-> _].
      assert (Hc' : chunks !! S k = Some []).
      { rewrite <- (Nat.add_0_r (S k)), <- lookup_drop, Ed. reflexivity. }
      exact (view_nonempty_chunk w fs chunks V _ _ Hc' eq_refl).
  - destruct post as [|e post].
    + cbn [app] in Hlen |- *.
      destruct (drop (S k) chunks) as [|c' rest] eqn:Ed; [discriminate|].
      assert (Hc' : chunks !! S k = Some c').
      { rewrite <- (Nat.add_0_r (S k)), <- lookup_drop, Ed. reflexivity. }
      assert (Hrest : drop (S (S k)) chunks = rest).
      { rewrite (drop_S _ _ _ Hc') in Ed. injection Ed as Ed. exact Ed. }
      pose proof (view_nonempty_chunk w fs chunks V _ _ Hc') as Hne.
      destruct c' as [|e post]; [contradiction|].
      destruct (Next_crossing w fs chunks V r k pre post e Hat Hc')
        as (r1 & HN & Hat1 & Hts1).
      cbn [concat app length] in Hlen. injection Hlen as Hlen.
      destruct (IH r1 (S k) [e] post Hat1) as (r' & k' & c'' & HNs & Hat' & Hl & Hts).
      { rewrite Hrest. exact Hlen. }
      exists r', k', c''. split; [|split; [exact Hat'|split; [exact Hl|congruence]]].
      cbn [Nexts]. rewrite HN, HNs, Hrest. reflexivity.
    + destruct (Next_within w fs chunks V r k pre post e Hat)
        as (r1 & HN & Hat1 & Hts1).
      cbn [app length] in Hlen. injection Hlen as Hlen.
      destruct (IH r1 k (pre ++ [e]) post Hat1 Hlen)
        as (r' & k' & c'' & HNs & Hat' & Hl & Hts).
      exists r', k', c''. split; [|split; [exact Hat'|split; [exact Hl|congruence]]].
      cbn [Nexts]. rewrite HN, HNs. reflexivity.
Qed.
End ReadingOn.

(** * From the writer's invariant to the reader's view *)

Lemma closed_segments_lookup (dir : string) (closed : list (list Entry)) :
  forall (first : Z) (k : nat) (c : list Entry),
    closed !! k = Some c ->
    closed_segments dir first closed !! k
    = Some (seg_of dir (first + start closed k) c false).
Proof.
  induction closed as [|c0 closed IH]; intros first k c Hk; [discriminate|].
  destruct k as [|k].
  - injection Hk as ->. cbn [closed_segments]. rewrite start_0, Z.add_0_r.
    reflexivity.
  - cbn [closed_segments]. cbn [lookup list_lookup] in Hk |- *.
    rewrite (IH _ k c Hk). do 2 f_equal.
    unfold start. cbn [take]. rewrite count_cons. lia.
Qed.

Section ViewOfInvariant.
Context `{JsonCodec}.

Lemma log_inv_view (w : Wal) (fs : filesystem) (closed : list (list Entry))
    (act : list Entry) :
  log_inv w fs closed act -> act <> [] ->
  small_entries (concat (closed ++ [act])) ->
  log_view w fs (closed ++ [act]).
Proof.
  intros I Hact Hsm. constructor.
  - rewrite (inv_segments _ _ _ _ I), !length_app, length_closed_segments.
    reflexivity.
  - intros k c Hk. rewrite (inv_segments _ _ _ _ I).
    apply lookup_app_Some in Hk as [Hk|[Hge Hk]].
    + eexists. split.
      * rewrite lookup_app_l
          by (rewrite length_closed_segments; apply lookup_lt_Some in Hk; exact Hk).
        apply closed_segments_lookup. exact Hk.
      * rewrite Z.add_0_l.
        rewrite start_app_l by (apply lookup_lt_Some in Hk; lia).
        cbn [seg_of path firstIndex lastIndex firstTimestamp lastTimestamp].
        repeat split; reflexivity.
    + assert (k = length closed) as ->.
      { apply lookup_lt_Some in Hk. cbn [length] in Hk. lia. }
      rewrite Nat.sub_diag in Hk. injection Hk as <-.
      eexists. split.
      * rewrite lookup_app_r by (rewrite length_closed_segments; lia).
        rewrite length_closed_segments, Nat.sub_diag. reflexivity.
      * rewrite start_length.
        cbn [seg_of path firstIndex lastIndex firstTimestamp lastTimestamp].
        repeat split; reflexivity.
  - exact (inv_files _ _ _ _ I).
  - exact (inv_entries _ _ _ _ I).
  - exact Hsm.
  - apply Forall_app. split; [exact (inv_closed _ _ _ _ I)|].
    constructor; [exact Hact|constructor].
  - exact (inv_size _ _ _ _ I).
Qed.
End ViewOfInvariant.

(** * A reader with no option *)

Section FromTheStart.
Variables (w : Wal) (fs : filesystem) (chunks : list (list Entry)).
Hypothesis V : log_view w fs chunks.
Hypothesis Hne : chunks <> [].

Lemma find_by_index_first (target : Z) :
  target = 0 -> find_by_index target (segments w) 0 = Some 0%nat.
Proof.
  intros ->. destruct chunks as [|c0 rest] eqn:Ec; [contradiction|].
  rewrite <- Ec in *.
  assert (H0 : chunks !! 0%nat = Some c0) by (rewrite Ec; reflexivity).
  destruct (view_segments _ _ _ V 0%nat c0 H0) as (s & Hs & _ & Hf & _).
  destruct (segments w) as [|s0 segs]; [discriminate|].
  injection Hs as ->. cbn [find_by_index]. rewrite Hf, start_0.
  cbn. reflexivity.
Qed.

Lemma Wal_Reader_no_option :
  exists (r : Reader) (c0 : list Entry),
    Wal_Reader w fs [] = Ok r
    /\ reader_at (wal_path w) chunks r 0 [] c0.
Proof.
  destruct (Wal_Reader_positions w fs chunks V Hne []
              (mkReader 0 zeroTime None) eq_refl)
    as (r & pre & post & e & HR & Hat & _ & Hpre & _).
  assert (Hk : chosen_segment w (mkReader 0 zeroTime None) = 0%nat).
  { unfold chosen_segment. cbn [reader_timestamp reader_index].
    change (Time_IsZero zeroTime) with true. cbn match.
    rewrite find_by_index_first by reflexivity. reflexivity. }
  rewrite Hk in Hat. exists r, (e :: post). split; [exact HR|].
  destruct pre as [|x pre]; [exact Hat|exfalso].
  apply Forall_cons in Hpre as [Hx _].
  unfold reader_go in Hx. cbn [reader_timestamp reader_index] in Hx.
  change (Time_IsZero zeroTime) with true in Hx. cbn match in Hx.
  destruct Hat as (Hc & _).
  destruct (view_chunk_ok w fs chunks V _ _ Hc) as [Hok _].
  apply Forall_cons in Hok as [((Hi & _) & _) _].
  cbn [stored Index] in Hx. apply Z.ltb_lt in Hx. lia.
Qed.

(** A full forward read: every entry of the log in order, and then
    [ErrNoSegmentsFound]. *)
Lemma Nexts_all (r : Reader) (c0 : list Entry) :
  reader_at (wal_path w) chunks r 0 [] c0 ->
  exists r' r'',
    Nexts (length (concat chunks)) w fs r
    = (map (fun e => Ok (stored e)) (concat chunks), r')
    /\ Next w fs r' = (Err ErrNoSegmentsFound, r'').
Proof.
  intros Hat.
  assert (Hc : concat chunks = c0 ++ concat (drop 1 chunks)).
  { destruct Hat as (H0 & _). cbn [app] in H0.
    destruct chunks as [|c rest]; [discriminate|].
    injection H0 as ->. reflexivity. }
  destruct (Nexts_rest w fs chunks V (length (concat chunks)) r 0 [] c0 Hat)
    as (r' & k' & c' & HN & Hat' & Hl & _).
  { rewrite Hc. reflexivity. }
  destruct (Next_end w fs chunks V r' k' c' Hat' Hl) as (r'' & HE & _).
  exists r', r''. rewrite Hc at 2. split; assumption.
Qed.
End FromTheStart.

(** * The view of a log that was built by appends *)

Section BuiltLog.
Context `{JsonCodec}.

Lemma build_log_view (path : string) (options : list Option)
    (appends : list (Time * list byte)) (fs0 : filesystem) :
  fs_wf fs0 -> fs0 !! path = None -> Forall api_option options ->
  Forall append_ok appends -> log_bytes appends < 2 ^ 63 -> appends <> [] ->
  exists w fs chunks,
    build_log path options appends fs0 = (Ok tt, w, fs)
    /\ wal_path w = path
    /\ log_view w fs chunks
    /\ chunks <> []
    /\ concat chunks = entries_from 0 appends.
Proof.
  intros Hwf Hnone Hopts Hall Hsize Hne.
  destruct (build_log_inv path options appends fs0 Hwf Hnone Hopts)
    as (w & fs & closed & act & Hb & Hp & I & Hc & Hact); [|exact Hsize|].
  { eapply Forall_impl; [exact Hall|]. intros a. apply append_ok_fits. }
  exists w, fs, (closed ++ [act]).
  split; [exact Hb|]. split; [exact Hp|]. split; [|split; [|exact Hc]].
  - apply log_inv_view; [exact I|exact (Hact Hne)|].
    rewrite Hc. apply small_entries_from. exact Hall.
  - intros E. apply app_eq_nil in E as [_ E]. discriminate.
Qed.
End BuiltLog.

(** * The small log *)

Lemma fs_wf_empty : fs_wf ∅.
Proof. intros dir p _ [x Hx]. rewrite lookup_empty in Hx. discriminate. Qed.

Lemma Time_wf_at_second (s : Z) : - 2 ^ 63 <= s < 2 ^ 63 -> Time_wf (at_second s).
Proof.
  intros Hs. unfold Time_wf, at_second. cbn [wall ext].
  split; [lia|]. split; [exact Hs|]. intros _. lia.
Qed.

Lemma demo_appends_ok : Forall append_ok demo_appends.
Proof.
  repeat constructor; try (apply Time_wf_at_second; lia);
    vm_compute; reflexivity.
Qed.

Lemma demo_options_ok : Forall api_option [WithMaxSegmentSize 1].
Proof. repeat constructor; lia. Qed.

(** * A reader opened at an index *)

Lemma start_all (cs : list (list Entry)) : start cs (length cs) = count cs.
Proof. unfold start. rewrite firstn_all. reflexivity. Qed.

Section AtIndex.
Variables (w : Wal) (fs : filesystem) (chunks : list (list Entry)).
Hypothesis V : log_view w fs chunks.
Hypothesis Hne : chunks <> [].

Lemma find_by_index_view (i : Z) :
  0 <= i ->
  (i < count chunks ->
   exists k c, find_by_index i (segments w) 0 = Some k
               /\ chunks !! k = Some c
               /\ start chunks k <= i < start chunks k + Z.of_nat (length c))
  /\ (count chunks <= i -> find_by_index i (segments w) 0 = None).
Proof.
  intros Hi.
  assert (G : forall (segs : list segment) (j0 : nat),
             (forall j s, segs !! j = Some s ->
                exists c, chunks !! (j0 + j)%nat = Some c
                          /\ firstIndex s = start chunks (j0 + j)
                          /\ lastIndex s
                             = start chunks (j0 + j) + Z.of_nat (length c) - 1) ->
             (j0 + length segs)%nat = length chunks ->
             start chunks j0 <= i ->
             (i < count chunks ->
              exists k c, find_by_index i segs j0 = Some k
                          /\ chunks !! k = Some c
                          /\ start chunks k <= i
                             < start chunks k + Z.of_nat (length c))
             /\ (count chunks <= i -> find_by_index i segs j0 = None)).
  { induction segs as [|s segs IH]; intros j0 Hs Hlen Hj0.
    - cbn [length] in Hlen. rewrite Nat.add_0_r in Hlen. subst j0.
      rewrite start_all in Hj0. split; [lia|reflexivity].
    - cbn [length] in Hlen.
      destruct (Hs 0%nat s eq_refl) as (c & Hc & Hf & Hl).
      rewrite Nat.add_0_r in Hc, Hf, Hl.
      pose proof (view_nonempty_chunk w fs chunks V _ _ Hc) as Hcne.
      assert (Hpos : 0 < Z.of_nat (length c))
        by (destruct c; [contradiction|cbn [length]; lia]).
      pose proof (start_S _ _ _ Hc) as HS.
      pose proof (start_le_count chunks (S j0)) as Hle.
      cbn [find_by_index]. rewrite Hf, Hl.
      destruct (Z_le_gt_dec i (start chunks j0 + Z.of_nat (length c) - 1))
        as [Hin|Hout].
      + assert (Hcond :
          ((start chunks j0 <? i)
           && (i <? start chunks j0 + Z.of_nat (length c) - 1))
          || ((i =? start chunks j0)
              || (i =? start chunks j0 + Z.of_nat (length c) - 1)) = true).
        { destruct (Z.eqb_spec i (start chunks j0)) as [|N1];
            [rewrite orb_true_r; reflexivity|].
          destruct (Z.eqb_spec i (start chunks j0 + Z.of_nat (length c) - 1))
            as [|N2]; [rewrite !orb_true_r; reflexivity|].
          assert (L1 : (start chunks j0 <? i) = true) by (apply Z.ltb_lt; lia).
          assert (L2 : (i <? start chunks j0 + Z.of_nat (length c) - 1) = true)
            by (apply Z.ltb_lt; lia).
          rewrite L1, L2. reflexivity. }
        rewrite Hcond. split; [|lia].
        intros _. exists j0, c. split; [reflexivity|]. split; [exact Hc|lia].
      + assert (Hcond :
          ((start chunks j0 <? i)
           && (i <? start chunks j0 + Z.of_nat (length c) - 1))
          || ((i =? start chunks j0)
              || (i =? start chunks j0 + Z.of_nat (length c) - 1)) = false).
        { assert (L2 : (i <? start chunks j0 + Z.of_nat (length c) - 1) = false)
            by (apply Z.ltb_ge; lia).
          assert (N1 : (i =? start chunks j0) = false) by (apply Z.eqb_neq; lia).
          assert (N2 : (i =? start chunks j0 + Z.of_nat (length c) - 1) = false)
            by (apply Z.eqb_neq; lia).
          rewrite L2, N1, N2, andb_false_r. reflexivity. }
        rewrite Hcond. apply IH.
        * intros j s' Hj. destruct (Hs (S j) s' Hj) as (c' & Hc' & Hf' & Hl').
          replace (S j0 + j)%nat with (j0 + S j)%nat by lia. eauto.
        * lia.
        * lia. }
  apply (G (segments w) 0%nat).
  - intros j s Hj. cbn [Nat.add].
    destruct (lookup_lt_is_Some_2 chunks j) as [c Hc].
    { rewrite <- (view_length _ _ _ V). apply lookup_lt_Some in Hj. exact Hj. }
    destruct (view_segments _ _ _ V j c Hc) as (s' & Hs' & _ & Hf & Hl & _).
    rewrite Hj in Hs'. injection Hs' as <-.
    exists c. split; [exact Hc|]. split; [exact Hf|].
    rewrite Hl. apply (view_last_index w fs chunks V j c Hc).
  - cbn [Nat.add]. apply (view_length _ _ _ V).
  - rewrite start_0. exact Hi.
Qed.

Lemma chunk_entry_position (k : nat) (pre post : list Entry) (e : Entry) :
  chunks !! k = Some (pre ++ e :: post) ->
  concat chunks !! Z.to_nat (Index e) = Some e.
Proof.
  intros Hk.
  destruct (view_entry w fs chunks V k pre post e Hk) as (Hi & _).
  assert (Hj : (pre ++ e :: post) !! length pre = Some e)
    by (apply list_lookup_middle; reflexivity).
  pose proof (concat_lookup_chunk chunks k _ _ e Hk Hj) as Hc.
  rewrite Hi. unfold start, count.
  rewrite <- Nat2Z.inj_add, Nat2Z.id. exact Hc.
Qed.

(** [Wal.Reader] with [WithIndex i]: the first [Next] returns the entry with
    index [i], or the last entry of the log when [i] lies after it. *)
Lemma Wal_Reader_WithIndex (i : Z) :
  0 <= i ->
  exists (r r' : Reader) (e : Entry),
    Wal_Reader w fs [WithIndex i] = Ok r
    /\ Next w fs r = (Ok (stored e), r')
    /\ concat chunks !! Z.to_nat (Index e) = Some e
    /\ Index e = Z.min i (count chunks - 1).
Proof.
  intros Hi.
  set (rd := mkReader i zeroTime None).
  assert (Hopt : apply_options [WithIndex i] (mkReader 0 zeroTime None) = Ok rd)
    by reflexivity.
  destruct (Wal_Reader_positions w fs chunks V Hne _ rd Hopt)
    as (r & pre & post & e & HR & Hat & _ & Hpre & Hend).
  destruct (Next_within w fs chunks V r _ pre post e Hat) as (r' & HN & _).
  pose proof Hat as (Hk & _).
  destruct (view_entry w fs chunks V _ pre post e Hk) as (Hidx & _).
  exists r, r', e. split; [exact HR|]. split; [exact HN|].
  split; [exact (chunk_entry_position _ pre post e Hk)|].
  assert (Hgo : forall x, reader_go rd x = (Index x <? i)) by reflexivity.
  assert (Hprev : pre <> [] -> Index e <= i).
  { intros Hp. destruct (chunk_split_last pre Hp) as (pre' & x & -> & _).
    apply Forall_app in Hpre as [_ Hx]. apply Forall_cons in Hx as [Hx _].
    rewrite Hgo in Hx. cbn [stored Index] in Hx. apply Z.ltb_lt in Hx.
    rewrite <- app_assoc in Hk. cbn [app] in Hk.
    destruct (view_entry w fs chunks V _ pre' (e :: post) x Hk) as (Hix & _).
    rewrite length_app in Hidx. cbn [length] in Hidx. lia. }
  pose proof (view_last_index w fs chunks V _ _ Hk) as Hlast.
  assert (Hlen : length (pre ++ e :: post) = (length pre + S (length post))%nat)
    by (rewrite length_app; reflexivity).
  pose proof (start_le_count chunks (S (chosen_segment w rd))) as Hle.
  rewrite (start_S _ _ _ Hk) in Hle.
  destruct (find_by_index_view i Hi) as [Hin Hout].
  destruct (Z_lt_ge_dec i (count chunks)) as [L|L].
  - destruct (Hin L) as (k & c & Hf & Hc & Hrange).
    assert (Hch : chosen_segment w rd = k).
    { unfold chosen_segment. cbn [rd reader_timestamp reader_index].
      change (Time_IsZero zeroTime) with true. cbn match. rewrite Hf.
      reflexivity. }
    rewrite Hch in *. rewrite Hk in Hc. injection Hc as <-.
    rewrite Z.min_l by lia.
    destruct Hend as [Hstop| ->].
    + rewrite Hgo in Hstop. cbn [stored Index] in Hstop.
      apply Z.ltb_ge in Hstop.
      destruct pre as [|x pre]; [cbn [length] in Hidx; lia|].
      assert (Index e <= i) by (apply Hprev; discriminate). lia.
    + rewrite Hlen in Hrange. cbn [length] in Hrange.
      destruct pre as [|x pre]; [cbn [length] in *; lia|].
      assert (Index e <= i) by (apply Hprev; discriminate). lia.
  - rewrite Z.min_r by lia.
    assert (Hch : S (chosen_segment w rd) = length chunks).
    { unfold chosen_segment. cbn [rd reader_timestamp reader_index].
      change (Time_IsZero zeroTime) with true. cbn match.
      rewrite (Hout ltac:(lia)).
      pose proof (view_length _ _ _ V) as Hl.
      destruct chunks as [|c0 rest] eqn:Ec; [contradiction|].
      rewrite <- Ec in *.
      assert (H0 : chunks !! 0%nat = Some c0) by (rewrite Ec; reflexivity).
      destruct (view_segments _ _ _ V 0%nat c0 H0) as (s & Hs & _ & Hf & _).
      destruct (segments w) as [|s0 segs] eqn:Es; [discriminate|].
      injection Hs as ->. rewrite Hf, start_0.
      assert (Hlt : (i <? 0) = false) by (apply Z.ltb_ge; lia).
      rewrite Hlt, <- Hl. cbn [length]. lia. }
    pose proof (start_S _ _ _ Hk) as HS.
    rewrite Hch, start_all, Hlen in HS.
    destruct Hend as [Hstop| ->].
    + rewrite Hgo in Hstop. cbn [stored Index] in Hstop.
      apply Z.ltb_ge in Hstop. lia.
    + cbn [length] in HS. lia.
Qed.
End AtIndex.

(** * A segment that ends in an entry of 4 GiB *)

(** [loadSegment] on a file whose last entry has a payload of [2^32 - 35]
    bytes: the step back to that entry does not move, and the read after it
    meets the end of the file. *)
Lemma loadSegment_wrap (fs : filesystem) (dir : string) (first : Z)
    (c : list Entry) (el : Entry) :
  fs !! segment_path dir first = Some (File (chunk_bytes (c ++ [el]))) ->
  0 <= first < 2 ^ 64 -> Forall entry_ok (c ++ [el]) ->
  Length el = 2 ^ 32 - 35 ->
  loadSegment fs (segment_path dir first) = Err EOF.
Proof.
  intros Hf Hfirst Hok Hl.
  unfold loadSegment, os_OpenFile. rewrite Hf. cbn [rbind].
  unfold file_io. cbn [hpath hpos]. rewrite Hf.
  set (bytes := chunk_bytes (c ++ [el])).
  assert (E : fst (loadSegment_file (segment_path dir first) (mkStream bytes 0))
              = Err EOF).
  { unfold loadSegment_file.
    destruct (read_first_timestamp_chunk (c ++ [el]) Hok) as (p & E1).
    fold bytes in E1.
    rewrite (bind_ok _ _ _ _ _ E1).
    rewrite (bind_ok _ _ _ _ _ (Seek_end _)). cbn [content].
    rewrite filepath_Base_segment_path, Sscanf_Sprintf by assumption.
    unfold lift at 1. unfold bind at 1.
    assert (Hpos : 0 < Z.of_nat (length bytes)).
    { pose proof (length_chunk_bytes_lower (c ++ [el])) as Hlow.
      rewrite length_app in Hlow. cbn [length] in Hlow. fold bytes in Hlow. lia. }
    destruct (Z.gtb_spec (Z.of_nat (length bytes)) 0) as [_|]; [|lia].
    assert (Hel : entry_ok el).
    { rewrite Forall_forall in Hok. apply Hok. apply elem_of_app. right. left. }
    set (s := mkStream bytes (Z.of_nat (length bytes))).
    assert (Hg : gotoPreviousEntry s = (Ok tt, s)).
    { apply (gotoPreviousEntry_wrap s (chunk_bytes c) [] el Hel Hl).
      - cbn [content s]. unfold bytes. rewrite chunk_bytes_snoc, app_nil_r.
        reflexivity.
      - cbn [pos s]. unfold bytes. rewrite chunk_bytes_snoc, length_app. lia. }
    assert (E3 : readPreviousEntry s = (Err EOF, s)).
    { unfold readPreviousEntry. rewrite (bind_ok _ _ _ _ _ Hg).
      apply readEntry_eof. apply at_cursor_end. reflexivity. }
    assert (E4 : (let* m := readPreviousEntry in ret (Index m, Timestamp m)) s
                 = (Err EOF, s))
      by (rewrite (bind_err _ _ _ _ _ E3); reflexivity).
    rewrite (bind_err _ _ _ _ _ E4). reflexivity. }
  destruct (loadSegment_file (segment_path dir first) (mkStream bytes 0))
    as [r s]. cbn [fst] in *. exact E.
Qed.

Lemma single_chunk (closed : list (list Entry)) (act : list Entry) (x : Entry) :
  Forall (fun c => c <> []) closed -> act <> [] ->
  concat (closed ++ [act]) = [x] -> closed = [] /\ act = [x].
Proof.
  intros Hcl Hact Hc. destruct closed as [|c closed].
  - cbn in Hc. rewrite app_nil_r in Hc. auto.
  - exfalso. apply Forall_cons in Hcl as [Hcne _].
    destruct c as [|y c]; [contradiction|].
    cbn [app concat] in Hc. injection Hc as _ Hc.
    apply app_eq_nil in Hc as [_ Hc]. rewrite concat_app in Hc.
    apply app_eq_nil in Hc as [_ Hc]. cbn in Hc. rewrite app_nil_r in Hc.
    contradiction.
Qed.

(** The log with the one entry of 4 GiB: every call that builds it
    succeeds. *)
Lemma huge_log_inv :
  exists w fs,
    huge_log = (Ok tt, w, fs) /\ wal_path w = "/wal"%string
    /\ @log_inv fixed_codec w fs [] [huge_entry].
Proof.
  pose proof length_huge_payload as Hlen.
  destruct (@build_log_inv fixed_codec "/wal" [] [(zeroTime, huge_payload)] ∅)
    as (w & fs & closed & act & Hb & Hp & I & Hc & Hact).
  - exact fs_wf_empty.
  - reflexivity.
  - constructor.
  - constructor; [|constructor]. split; [exact Time_wf_zeroTime|].
    cbn [snd]. lia.
  - unfold log_bytes. cbn [fold_right snd]. lia.
  - exists w, fs. split; [exact Hb|]. split; [exact Hp|].
    assert (Hx : entries_from 0 [(zeroTime, huge_payload)] = [huge_entry]).
    { unfold huge_entry. cbn [entries_from]. reflexivity. }
    rewrite Hx in Hc.
    destruct (single_chunk closed act huge_entry (inv_closed _ _ _ _ I))
      as [-> ->]; [apply Hact; discriminate|exact Hc|exact I].
Qed.

(** * The segment of a timestamp *)

Lemma find_by_timestamp_covers (t : Time) (segs pre : list segment) :
  match find_by_timestamp t segs (length pre) with
  | Some k =>
      covers t (pre ++ segs) k = true
      /\ forall j, (length pre <= j < k)%nat -> covers t (pre ++ segs) j = false
  | None => forall j, (length pre <= j)%nat -> covers t (pre ++ segs) j = false
  end.
Proof.
  revert pre. induction segs as [|s rest IH]; intros pre.
  - cbn [find_by_timestamp]. intros j Hj. unfold covers.
    rewrite app_nil_r, lookup_ge_None_2 by lia. reflexivity.
  - cbn [find_by_timestamp].
    assert (Hhere : covers t (pre ++ s :: rest) (length pre)
                    = (Time_After t (firstTimestamp s)
                       && Time_Before t (lastTimestamp s))
                      || (Time_Equal t (firstTimestamp s)
                          || Time_Equal t (lastTimestamp s))
                      || match rest with
                         | next :: _ =>
                             Time_After t (lastTimestamp s)
                             && Time_Before t (firstTimestamp next)
                         | [] => false
                         end).
    { unfold covers. rewrite list_lookup_middle by reflexivity.
      rewrite lookup_app_r by lia.
      replace (S (length pre) - length pre)%nat with 1%nat by lia.
      destruct rest; reflexivity. }
    rewrite <- Hhere.
    destruct (covers t (pre ++ s :: rest) (length pre)) eqn:Hc.
    + split; [exact Hc|]. intros j Hj. lia.
    + specialize (IH (pre ++ [s])).
      rewrite length_app, <- app_assoc in IH. cbn [length app] in IH.
      replace (length pre + 1)%nat with (S (length pre)) in IH by lia.
      destruct (find_by_timestamp t rest (S (length pre))) as [k|].
      * destruct IH as [Hk Hlt]. split; [exact Hk|].
        intros j Hj. destruct (Nat.eq_dec j (length pre)) as [->|Hn];
          [exact Hc|apply Hlt; lia].
      * intros j Hj. destruct (Nat.eq_dec j (length pre)) as [->|Hn];
          [exact Hc|apply IH; lia].
Qed.

Lemma chosen_segment_selected (w : Wal) (t : Time) :
  Time_IsZero t = false -> segments w <> [] ->
  selected t (segments w) (chosen_segment w (mkReader 0 t None)).
Proof.
  intros Hz Hne. unfold chosen_segment, selected.
  cbn [reader_timestamp reader_index]. rewrite Hz.
  pose proof (find_by_timestamp_covers t (segments w) []) as Hf.
  cbn [length app] in Hf.
  destruct (find_by_timestamp t (segments w) 0) as [k|].
  - left. destruct Hf as [Hk Hlt]. split; [exact Hk|].
    intros j Hj. apply Hlt. lia.
  - right. split; [intros j; apply Hf; lia|].
    destruct (segments w) as [|s0 rest]; [contradiction|].
    exists s0. split; reflexivity.
Qed.

(** * Loading a log *)

Lemma fixed_codec_lawful : json_lawful fixed_codec.
Proof.
  intros [a b c d] (Ha & Hb & Hc & Hd). cbn [MaxSegmentSize MaxSegmentCount
    ExpirationTime ExpirationInterval] in *.
  unfold json_decode, json_encode, fixed_codec.
  cbn [MaxSegmentSize MaxSegmentCount ExpirationTime ExpirationInterval].
  rewrite !length_app, !length_le_bytes. cbn [Nat.add Nat.eqb].
  rewrite (take_app_length' (le_bytes 8 a)) by (symmetry; apply length_le_bytes).
  rewrite (drop_app_length' (le_bytes 8 a)) by (symmetry; apply length_le_bytes).
  rewrite (take_app_length' (le_bytes 8 b)) by (symmetry; apply length_le_bytes).
  assert (D16 : drop 16 (le_bytes 8 a ++ le_bytes 8 b ++ le_bytes 8 c ++ le_bytes 8 d)
                = le_bytes 8 c ++ le_bytes 8 d).
  { rewrite (app_assoc (le_bytes 8 a)). apply drop_app_length'.
    rewrite length_app, !length_le_bytes. reflexivity. }
  assert (D24 : drop 24 (le_bytes 8 a ++ le_bytes 8 b ++ le_bytes 8 c ++ le_bytes 8 d)
                = le_bytes 8 d).
  { rewrite (app_assoc (le_bytes 8 a)), (app_assoc (_ ++ _)).
    rewrite drop_app_length'; [reflexivity|].
    rewrite !length_app, !length_le_bytes. reflexivity. }
  rewrite D16, D24.
  rewrite (take_app_length' (le_bytes 8 c)) by (symmetry; apply length_le_bytes).
  rewrite (take_ge (le_bytes 8 d)) by (rewrite length_le_bytes; lia).
  rewrite !le_value_le_bytes.
  change (256 ^ Z.of_nat 8) with (2 ^ 64).
  rewrite (Z.mod_small a), (Z.mod_small b) by assumption.
  rewrite !signed_mod by (first [lia | change (64 - 1) with 63; lia]).
  reflexivity.
Qed.

(** ** Sorted lists of paths *)

Lemma StronglySorted_filter {A} (R : relation A) (P : A -> Prop)
    `{forall x, Decision (P x)} (l : list A) :
  StronglySorted R l -> StronglySorted R (filter P l).
Proof.
  induction 1 as [|x l Hl IH Hx]; [constructor|].
  rewrite filter_cons. destruct (decide (P x)); [|exact IH].
  constructor; [exact IH|].
  rewrite Forall_forall in Hx |- *. intros y Hy.
  apply list_elem_of_filter in Hy as [_ Hy]. apply Hx. exact Hy.
Qed.

Lemma StronglySorted_lookup {A} (R : relation A) (l : list A) :
  (forall i j x y, (i < j)%nat -> l !! i = Some x -> l !! j = Some y -> R x y) ->
  StronglySorted R l.
Proof.
  induction l as [|a l IH]; intros Hl; [constructor|].
  constructor.
  - apply IH. intros i j x y Hij Hi Hj. apply (Hl (S i) (S j) x y); [lia|exact Hi|exact Hj].
  - apply Forall_forall. intros y Hy.
    apply list_elem_of_lookup in Hy as [j Hj].
    apply (Hl 0%nat (S j) a y); [lia|reflexivity|exact Hj].
Qed.

Lemma segment_path_le (dir : string) (a b : Z) :
  0 <= a -> a <= b -> b < 2 ^ 64 ->
  String.le (segment_path dir a) (segment_path dir b).
Proof.
  intros Ha Hab Hb. unfold String.le, String.leb.
  unfold segment_path, filepath_Join, Sprintf_020d_wal.
  rewrite !compare_prepend.
  pose proof (compare_digits 20 a b ".wal") as Hc.
  destruct (String.compare (digits 20 a ++ ".wal") (digits 20 b ++ ".wal"));
    [exact I|exact I|].
  exfalso. apply Hc; [|reflexivity].
  change (10 ^ Z.of_nat 20) with 100000000000000000000.
  rewrite !Z.mod_small by lia. exact Hab.
Qed.

Lemma config_not_wal (dir : string) :
  filepath_Ext (filepath_Base (config_path dir)) <> ".wal"%string.
Proof.
  unfold config_path. rewrite filepath_Base_join by reflexivity.
  vm_compute. discriminate.
Qed.

Lemma segment_is_wal (dir : string) (first : Z) :
  filepath_Ext (filepath_Base (segment_path dir first)) = ".wal"%string.
Proof. rewrite filepath_Base_segment_path. apply filepath_Ext_segment_name. Qed.

Lemma length_loaded_segments (dir : string) (chunks : list (list Entry)) :
  forall first, length (loaded_segments dir first chunks) = length chunks.
Proof.
  induction chunks as [|c chunks IH]; intros first; [reflexivity|].
  cbn [loaded_segments length]. rewrite IH. reflexivity.
Qed.

Lemma loaded_segments_lookup (dir : string) (chunks : list (list Entry)) :
  forall (first : Z) (k : nat) (c : list Entry),
    chunks !! k = Some c ->
    loaded_segments dir first chunks !! k
    = Some (loaded dir (first + start chunks k) c).
Proof.
  induction chunks as [|c0 chunks IH]; intros first k c Hk; [discriminate|].
  destruct k as [|k].
  - injection Hk as ->. cbn [loaded_segments]. rewrite start_0, Z.add_0_r.
    reflexivity.
  - cbn [loaded_segments]. cbn [lookup list_lookup] in Hk |- *.
    rewrite (IH _ k c Hk). do 2 f_equal.
    unfold start. cbn [take]. rewrite count_cons. lia.
Qed.

Lemma loaded_segments_lookup_inv (dir : string) (chunks : list (list Entry))
    (k : nat) (s : segment) :
  loaded_segments dir 0 chunks !! k = Some s ->
  exists c, chunks !! k = Some c /\ s = loaded dir (start chunks k) c.
Proof.
  intros Hs.
  destruct (lookup_lt_is_Some_2 chunks k) as [c Hc].
  { apply lookup_lt_Some in Hs. rewrite length_loaded_segments in Hs. exact Hs. }
  exists c. split; [exact Hc|].
  rewrite (loaded_segments_lookup dir chunks 0 k c Hc), Z.add_0_l in Hs.
  congruence.
Qed.

(** ** The paths [Load] walks *)

Lemma elem_of_children (fs : filesystem) (dir p : string) :
  p ∈ children fs dir <-> is_child dir p = true /\ is_Some (fs !! p).
Proof.
  unfold children. rewrite list_elem_of_filter, list_elem_of_fmap. split.
  - intros [Hc ([q n] & -> & Hq)]. apply elem_of_map_to_list in Hq. cbn in *.
    split; [destruct (is_child dir q); [reflexivity|contradiction]|eauto].
  - intros [Hc [n Hn]]. split; [rewrite Hc; exact I|].
    exists (p, n). split; [reflexivity|]. apply elem_of_map_to_list. exact Hn.
Qed.

Lemma elem_of_slices_Sort (l : list string) (p : string) :
  p ∈ slices_Sort l <-> p ∈ l.
Proof. unfold slices_Sort. rewrite merge_sort_Permutation. reflexivity. Qed.

Section LoadSegments.
Context `{JsonCodec}.

Lemma load_segments_filter (fs : filesystem) (paths : list string) :
  forall acc,
    (forall p, p ∈ paths -> is_Some (fs !! p)) ->
    load_segments fs paths acc
    = load_segments fs (filter (fun p => wal_file fs p) paths) acc.
Proof.
  induction paths as [|p paths IH]; intros acc Hall; [reflexivity|].
  rewrite filter_cons.
  destruct (Hall p) as [n Hn]; [left|].
  assert (Hrest : forall q, q ∈ paths -> is_Some (fs !! q))
    by (intros q Hq; apply Hall; right; exact Hq).
  assert (Hw : wal_file fs p
               = match n with
                 | File _ => String.eqb (filepath_Ext (filepath_Base p)) ".wal"
                 | Dir => false
                 end)
    by (unfold wal_file; rewrite Hn; destruct n; reflexivity).
  cbn [load_segments]. unfold os_Lstat at 1. rewrite Hn. cbn [rbind].
  destruct n as [|d].
  - rewrite decide_False by (rewrite Hw; intros []). apply IH, Hrest.
  - destruct (String.eqb (filepath_Ext (filepath_Base p)) ".wal") eqn:E.
    + rewrite decide_True by (rewrite Hw; exact I).
      cbn [load_segments]. unfold os_Lstat at 1. rewrite Hn. cbn [rbind].
      rewrite E. destruct (loadSegment fs p) as [s|e|]; cbn [rbind];
        [apply IH, Hrest|reflexivity..].
    + rewrite decide_False by (rewrite Hw; intros []). apply IH, Hrest.
Qed.

Lemma load_segments_loaded (fs : filesystem) (segs : list segment) :
  forall acc,
    (forall s, s ∈ segs -> wal_file fs (path s) = true
                           /\ loadSegment fs (path s) = Ok s) ->
    load_segments fs (map path segs) acc = Ok (acc ++ segs).
Proof.
  induction segs as [|s segs IH]; intros acc Hall.
  - rewrite app_nil_r. reflexivity.
  - destruct (Hall s) as [Hw Hl]; [left|].
    cbn [map load_segments]. unfold wal_file in Hw. unfold os_Lstat.
    destruct (fs !! path s) as [[|d]|]; try discriminate.
    cbn [rbind]. rewrite Hw, Hl. cbn [rbind].
    rewrite IH by (intros q Hq; apply Hall; right; exact Hq).
    rewrite <- app_assoc. reflexivity.
Qed.

Lemma load_segments_fails (fs : filesystem) (p : string) (rest : list string)
    (acc : list segment) (e : error) :
  wal_file fs p = true -> loadSegment fs p = Err e ->
  load_segments fs (p :: rest) acc = Err e.
Proof.
  intros Hw Hl. cbn [load_segments]. unfold wal_file in Hw. unfold os_Lstat.
  destruct (fs !! p) as [[|d]|]; try discriminate.
  cbn [rbind]. rewrite Hw, Hl. reflexivity.
Qed.
End LoadSegments.

(** ** The files of a log *)

Section LogFiles.
Context `{JsonCodec}.
Variables (w : Wal) (fs : filesystem) (closed : list (list Entry))
          (act : list Entry).
Hypothesis I : log_inv w fs closed act.

Lemma chunk_start_le (j k : nat) :
  (j <= k)%nat -> (k <= length closed)%nat ->
  start (closed ++ [act]) j <= start (closed ++ [act]) k.
Proof.
  intros Hjk Hk. destruct (Nat.eq_dec j k) as [->|Hn]; [lia|].
  apply Z.lt_le_incl. apply start_lt; [|lia|rewrite length_app; cbn [length]; lia].
  intros i c Hi Hc. rewrite lookup_app_l in Hc by lia.
  pose proof (inv_closed _ _ _ _ I) as Hcl. rewrite Forall_forall in Hcl.
  apply Hcl. apply list_elem_of_lookup. eauto.
Qed.

Lemma wal_file_segment (k : nat) (c : list Entry) :
  (closed ++ [act]) !! k = Some c ->
  wal_file fs (segment_path (wal_path w) (start (closed ++ [act]) k)) = true.
Proof.
  intros Hk. unfold wal_file. rewrite (inv_files _ _ _ _ I k c Hk).
  rewrite segment_is_wal. reflexivity.
Qed.

Lemma wal_files_of_log (p : string) :
  p ∈ filter (fun p => wal_file fs p) (slices_Sort (children fs (wal_path w)))
  <-> p ∈ map path (loaded_segments (wal_path w) 0 (closed ++ [act])).
Proof.
  rewrite list_elem_of_filter, elem_of_slices_Sort, elem_of_children.
  rewrite list_elem_of_fmap. split.
  - intros (Hw & Hc & Hs).
    destruct (inv_children _ _ _ _ I p Hc Hs) as [->|(k & Hk & ->)].
    + exfalso. unfold wal_file in Hw. rewrite (inv_config _ _ _ _ I) in Hw.
      destruct (String.eqb_spec (filepath_Ext (filepath_Base (config_path (wal_path w))))
                  ".wal") as [E|E]; [exact (config_not_wal _ E)|exact Hw].
    + destruct (lookup_lt_is_Some_2 _ _ Hk) as [c Hc'].
      exists (loaded (wal_path w) (start (closed ++ [act]) k) c).
      split; [reflexivity|]. apply list_elem_of_lookup. exists k.
      rewrite (loaded_segments_lookup _ _ 0 k c Hc'), Z.add_0_l. reflexivity.
  - intros (s & -> & Hs). apply list_elem_of_lookup in Hs as [k Hk].
    apply loaded_segments_lookup_inv in Hk as (c & Hc & ->).
    cbn [loaded path].
    split; [rewrite (wal_file_segment k c Hc); constructor|].
    split; [apply is_child_segment_path|].
    rewrite (inv_files _ _ _ _ I k c Hc). eauto.
Qed.
End LogFiles.

Section LoadLog.
Context `{JsonCodec}.
Variables (w : Wal) (fs : filesystem) (closed : list (list Entry))
          (act : list Entry).
Hypothesis I : log_inv w fs closed act.

Lemma segment_paths_lookup (k : nat) (p : string) :
  map path (loaded_segments (wal_path w) 0 (closed ++ [act])) !! k = Some p ->
  (k <= length closed)%nat
  /\ p = segment_path (wal_path w) (start (closed ++ [act]) k).
Proof.
  intros Hk. rewrite list_lookup_fmap in Hk.
  destruct (loaded_segments _ _ _ !! k) as [s|] eqn:Es; [|discriminate].
  injection Hk as <-.
  pose proof (lookup_lt_Some _ _ _ Es) as Hlt.
  rewrite length_loaded_segments, length_app in Hlt. cbn [length] in Hlt.
  apply loaded_segments_lookup_inv in Es as (c & _ & ->).
  split; [lia|reflexivity].
Qed.

(** The sorted paths of the directory, less what is no segment file, are
    the paths of the segments in the order of their first indices. *)
Lemma sorted_wal_files :
  filter (fun p => wal_file fs p) (slices_Sort (children fs (wal_path w)))
  = map path (loaded_segments (wal_path w) 0 (closed ++ [act])).
Proof.
  apply (StronglySorted_unique String.le).
  - apply StronglySorted_filter. unfold slices_Sort.
    apply StronglySorted_merge_sort; apply _.
  - apply StronglySorted_lookup. intros i j x y Hij Hi Hj.
    apply segment_paths_lookup in Hi as [Hi ->].
    apply segment_paths_lookup in Hj as [Hj ->].
    pose proof (start_bound w fs closed act j I).
    pose proof (start_bound w fs closed act i I).
    apply segment_path_le; [lia| |lia].
    apply (chunk_start_le w fs closed act I); lia.
  - apply NoDup_Permutation.
    + apply NoDup_filter. unfold slices_Sort.
      rewrite merge_sort_Permutation. unfold children.
      apply NoDup_filter. apply NoDup_fst_map_to_list.
    + apply NoDup_alt. intros i j p Hi Hj.
      apply segment_paths_lookup in Hi as [Hi ->].
      apply segment_paths_lookup in Hj as [Hj Hp].
      apply segment_path_inj in Hp;
        [|apply (start_bound w fs closed act _ I)..].
      apply (start_inj w fs closed act i j I Hi Hj). exact Hp.
    + intros p. apply (wal_files_of_log w fs closed act I).
Qed.

Lemma load_segments_wrap (c : list Entry) (el : Entry) :
  closed ++ [act] = [c ++ [el]] -> Forall entry_ok (c ++ [el]) ->
  Length el = 2 ^ 32 - 35 ->
  load_segments fs (slices_Sort (children fs (wal_path w))) [] = Err EOF.
Proof.
  intros Hc Hok Hl.
  rewrite load_segments_filter.
  - rewrite sorted_wal_files, Hc. cbn [loaded_segments map loaded path].
    assert (Hf : fs !! segment_path (wal_path w) 0
                 = Some (File (chunk_bytes (c ++ [el])))).
    { pose proof (inv_files _ _ _ _ I 0%nat (c ++ [el])) as Hf.
      rewrite Hc, start_0 in Hf. apply Hf. reflexivity. }
    apply load_segments_fails.
    + unfold wal_file. rewrite Hf, segment_is_wal. reflexivity.
    + apply (loadSegment_wrap fs _ 0 c el Hf); [lia|exact Hok|exact Hl].
  - intros p Hp. apply elem_of_slices_Sort, elem_of_children in Hp as [_ Hs].
    exact Hs.
Qed.
Lemma active_last_index :
  act <> [] ->
  last_index (count closed) act + 1 = count (closed ++ [act]).
Proof.
  intros Hne. destruct (chunk_split_last act Hne) as (c' & e & -> & Hl).
  unfold last_index. rewrite Hl.
  assert (Hk : (closed ++ [c' ++ [e]]) !! length closed = Some (c' ++ [e]))
    by (apply list_lookup_middle; reflexivity).
  assert (Hj : (c' ++ [e]) !! length c' = Some e)
    by (apply list_lookup_middle; reflexivity).
  pose proof (concat_lookup_chunk _ _ _ _ e Hk Hj) as Hc.
  destruct (inv_entries _ _ _ _ I _ _ Hc) as [Hi _].
  rewrite Hi, take_app_length. rewrite count_app, count_single.
  unfold count. rewrite length_app. cbn [length]. lia.
Qed.
End LoadLog.

(** ** [Load] on the directory of a log *)

Lemma loaded_segments_app (dir : string) (a b : list (list Entry)) :
  forall first,
    loaded_segments dir first (a ++ b)
    = loaded_segments dir first a ++ loaded_segments dir (first + count a) b.
Proof.
  induction a as [|c a IH]; intros first.
  - cbn [app loaded_segments]. rewrite count_nil, Z.add_0_r. reflexivity.
  - cbn [app loaded_segments]. rewrite IH, count_cons.
    do 3 f_equal. lia.
Qed.

Lemma loaded_closed_meta (dir : string) (cs : list (list Entry)) :
  forall first,
    map segment_meta (loaded_segments dir first cs)
    = map segment_meta (closed_segments dir first cs)
    /\ map path (loaded_segments dir first cs)
       = map path (closed_segments dir first cs).
Proof.
  induction cs as [|c cs IH]; intros first; [split; reflexivity|].
  cbn [loaded_segments closed_segments map].
  destruct (IH (first + Z.of_nat (length c))) as [-> ->].
  split; reflexivity.
Qed.

Section LoadBack.
Context `{JsonCodec}.
Variables (w : Wal) (fs : filesystem) (closed : list (list Entry))
          (act : list Entry).
Hypothesis I : log_inv w fs closed act.
Hypothesis Hsm : small_entries (concat (closed ++ [act])).
Hypothesis Hlaw : json_lawful H.

Lemma chunk_loads (k : nat) (c : list Entry) :
  (closed ++ [act]) !! k = Some c ->
  loadSegment fs (segment_path (wal_path w) (start (closed ++ [act]) k))
  = Ok (loaded (wal_path w) (start (closed ++ [act]) k) c).
Proof.
  intros Hk. apply loadSegment_chunk.
  - apply (inv_files _ _ _ _ I k c Hk).
  - apply (start_bound w fs closed act k I).
  - apply Forall_forall. intros e He.
    apply list_elem_of_lookup in He as [j Hj].
    pose proof (concat_lookup_chunk _ k j c e Hk Hj) as Hc.
    apply (inv_entries _ _ _ _ I _ _ Hc).
  - intros e He. unfold small_entries in Hsm. rewrite Forall_forall in Hsm.
    apply Hsm. apply (elem_of_concat_chunk _ k c e Hk).
    apply last_Some_elem_of. exact He.
  - pose proof (inv_size _ _ _ _ I) as Hs.
    assert (E : concat (closed ++ [act])
                = concat (take k (closed ++ [act])) ++ c
                  ++ concat (drop (S k) (closed ++ [act]))).
    { rewrite <- concat_cons, <- concat_app. f_equal. symmetry.
      apply take_drop_middle. exact Hk. }
    rewrite E, !chunk_bytes_app, !length_app in Hs. lia.
Qed.

(** [Load] gives back the log the writer had: the same next index, and
    segments with the same paths, first and last indices and lengths. *)
Lemma Load_log :
  hasMeta (wal_path w) = false ->
  exists w',
    Load (wal_path w) fs = Ok w'
    /\ wal_path w' = wal_path w
    /\ wal_config w' = wal_config w
    /\ wal_index w' = wal_index w
    /\ wal_current w' = wal_current w
    /\ map segment_meta (segments w') = map segment_meta (segments w)
    /\ map path (segments w') = map path (segments w).
Proof.
  intros Hmeta.
  set (dir := wal_path w) in *.
  set (first := count closed).
  assert (Hf : fs !! segment_path dir first = Some (File (chunk_bytes act))).
  { pose proof (inv_files _ _ _ _ I (length closed) act) as Hf.
    rewrite start_length in Hf. apply Hf.
    apply list_lookup_middle. reflexivity. }
  assert (Hsegs :
    load_segments fs (slices_Sort (children fs dir)) []
    = Ok (loaded_segments dir 0 closed ++ [loaded dir first act])).
  { rewrite load_segments_filter.
    - unfold dir. rewrite (sorted_wal_files w fs closed act I).
      rewrite load_segments_loaded.
      + cbn [app]. rewrite loaded_segments_app. cbn [loaded_segments].
        rewrite Z.add_0_l. reflexivity.
      + intros s Hs. apply list_elem_of_lookup in Hs as [k Hk].
        apply loaded_segments_lookup_inv in Hk as (c & Hc & ->).
        cbn [loaded path]. split.
        * apply (wal_file_segment w fs closed act I k c Hc).
        * apply (chunk_loads k c Hc).
    - intros p Hp. apply elem_of_slices_Sort, elem_of_children in Hp as [_ Hs].
      exact Hs. }
  unfold Load, os_Lstat. fold dir. unfold dir at 1.
  rewrite (inv_dir _ _ _ _ I). cbn [rbind].
  fold (config_path dir). unfold dir at 1.
  rewrite (inv_config _ _ _ _ I), (Hlaw _ (inv_max _ _ _ _ I)).
  unfold filepath_Glob. rewrite Hmeta. cbn [rbind].
  rewrite Hsegs. cbn [rbind].
  rewrite last_snoc.
  rewrite (segment_open_loaded fs dir first act act Hf). cbn [rbind].
  unfold file_io. cbn [set_file file hpath hpos]. rewrite Hf.
  rewrite Seek_end. cbn [content pos rbind loaded fileLength lastIndex
                         firstIndex firstTimestamp lastTimestamp path
                         set_file].
  rewrite length_app, length_loaded_segments. cbn [length].
  replace (length closed + 1 - 1)%nat with (length closed) by lia.
  rewrite insert_app_r_alt by (rewrite length_loaded_segments; lia).
  rewrite length_loaded_segments, Nat.sub_diag. cbn [insert list_insert].
  eexists. split; [reflexivity|].
  cbn [wal_path wal_config wal_index wal_current segments].
  split; [reflexivity|]. split; [reflexivity|]. split; [|split; [|split]].
  - rewrite (inv_index _ _ _ _ I).
    assert (Hcase : act = [] \/ act <> [])
      by (destruct act; [left; reflexivity|right; discriminate]).
    destruct Hcase as [Hnil|Hne].
    + rewrite Hnil. cbn [chunk_bytes flat_map length].
      unfold last_index. cbn [last]. rewrite count_app, count_single.
      cbn [length]. unfold first.
      change (Z.of_nat 0 =? 0) with true. cbn match. lia.
    + pose proof (length_chunk_bytes_lower act) as Hlow.
      assert (Hpos : 0 < Z.of_nat (length act))
        by (destruct act; [contradiction|cbn [length]; lia]).
      destruct (Z.eqb_spec (Z.of_nat (length (chunk_bytes act))) 0) as [E|_];
        [lia|].
      unfold first. rewrite (active_last_index w fs closed act I Hne).
      pose proof (entries_bound w fs closed act I).
      pose proof (count_nonneg (closed ++ [act])).
      unfold uint64. apply Z.mod_small. lia.
  - symmetry. apply (inv_current _ _ _ _ I).
  - rewrite (inv_segments _ _ _ _ I), !map_app.
    rewrite (proj1 (loaded_closed_meta dir closed 0)). reflexivity.
  - rewrite (inv_segments _ _ _ _ I), !map_app.
    rewrite (proj2 (loaded_closed_meta dir closed 0)). reflexivity.
Qed.
End LoadBack.

Section CloseLog.
Context `{JsonCodec}.

Lemma Wal_Close_ok (w : Wal) (fs : filesystem) (closed : list (list Entry))
    (act : list Entry) :
  log_inv w fs closed act ->
  forall d,
    Wal_Close w fs d
    = (Ok tt, store w (seg_of (wal_path w) (count closed) act false),
       <[segment_path (wal_path w) (count closed) := chunk_bytes act]> d).
Proof.
  intros I d. unfold Wal_Close. rewrite (deref_inv w fs closed act I).
  assert (Hf : fs !! segment_path (wal_path w) (count closed)
               = Some (File (chunk_bytes act))).
  { pose proof (inv_files _ _ _ _ I (length closed) act) as Hf.
    rewrite start_length in Hf. apply Hf.
    apply list_lookup_middle. reflexivity. }
  unfold segment_flush, segment_close, file_io.
  cbn [seg_of file hpath hpos]. rewrite Hf. reflexivity.
Qed.
End CloseLog.

(** * Claims about the entry codec *)

(** C2. For every entry [E] whose timestamp is normalized to UTC, whose
    [Crc32] is the CRC-32C of its data and whose [Length] is the length of its
    data, [writeEntry] issues one write of exactly [35 + Length] bytes, and
    [readEntry] on those bytes (alone, or anywhere inside a file) returns an
    entry equal to [E], timestamp included. *)
Theorem writeEntry_readEntry_roundtrip (E : Entry) (w : stream) :
  Entry_wf E ->
  utc_normalized (Timestamp E) ->
  Crc32 E = Checksum (Data E) ->
  Length E = Z.of_nat (length (Data E)) ->
  exists bytes : list byte,
    writeEntry (Some E) w = (Ok tt, Write bytes w)
    /\ Z.of_nat (length bytes) = 35 + Length E
    /\ readEntry (mkStream bytes 0) = (Ok E, mkStream bytes (35 + Length E))
    /\ forall pre post : list byte,
         readEntry (mkStream (pre ++ bytes ++ post) (Z.of_nat (length pre)))
         = (Ok E, mkStream (pre ++ bytes ++ post)
                    (Z.of_nat (length pre) + (35 + Length E))).
Proof.
  intros Hwf Hutc Hcrc Hlen.
  assert (Hok : entry_ok E).
  { repeat split; try apply Hwf; try apply Hutc; auto. }
  assert (Hst : stored E = E).
  { unfold stored. rewrite (Time_In_UTC_id _ Hutc). destruct E; reflexivity. }
  pose proof (length_entry_bytes E) as Htot.
  exists (entry_bytes E). split; [apply writeEntry_bytes|].
  split; [lia|].
  assert (Hin : forall pre post : list byte,
             readEntry (mkStream (pre ++ entry_bytes E ++ post)
                          (Z.of_nat (length pre)))
             = (Ok E, mkStream (pre ++ entry_bytes E ++ post)
                        (Z.of_nat (length pre) + (35 + Length E)))).
  { intros pre post.
    assert (C : at_cursor (mkStream (pre ++ entry_bytes E ++ post)
                             (Z.of_nat (length pre))) (entry_bytes E ++ post))
      by (apply (at_cursor_app _ pre); reflexivity).
    rewrite (readEntry_cursor _ E post Hok C), Hst.
    unfold advance. cbn [content pos]. do 2 f_equal. lia. }
  split; [|exact Hin].
  specialize (Hin [] []). cbn [app length] in Hin.
  rewrite app_nil_r in Hin. exact Hin.
Qed.

Lemma writeEntry_readEntry_roundtrip_witness :
  exists bytes : list byte,
    writeEntry (Some sample_entry) (mkStream [] 0)
    = (Ok tt, Write bytes (mkStream [] 0))
    /\ Z.of_nat (length bytes) = 35 + Length sample_entry
    /\ readEntry (mkStream bytes 0)
       = (Ok sample_entry, mkStream bytes (35 + Length sample_entry))
    /\ forall pre post : list byte,
         readEntry (mkStream (pre ++ bytes ++ post) (Z.of_nat (length pre)))
         = (Ok sample_entry,
            mkStream (pre ++ bytes ++ post)
              (Z.of_nat (length pre) + (35 + Length sample_entry))).
Proof.
  apply (writeEntry_readEntry_roundtrip sample_entry (mkStream [] 0)).
  - split; vm_compute; split; congruence.
  - repeat split; vm_compute; congruence.
  - reflexivity.
  - reflexivity.
Defined.

Lemma readEntry_crc_mismatch (s : stream) (index crc trailer : Z)
    (data tbin rest : list byte) (t : Time) :
  at_cursor s
    (le_bytes 8 index ++ le_bytes 4 (Z.of_nat (length data)) ++ data ++ tbin
       ++ le_bytes 4 crc ++ le_bytes 4 trailer ++ rest) ->
  0 <= index < 2 ^ 64 -> Z.of_nat (length data) < 2 ^ 32 ->
  length tbin = 15%nat -> UnmarshalBinary tbin = Ok t ->
  0 <= crc < 2 ^ 32 -> 0 <= trailer < 2 ^ 32 ->
  crc <> Checksum data ->
  fst (readEntry s) = Err ErrCrc32Mismatch.
Proof.
  intros Hc Hi Hl Htl Ht Hcr Htr Hne.
  unfold readEntry.
  rewrite (bind_ok _ _ _ _ _ (binary_Read_uint_cursor 8 _ _ _ Hc Hi)).
  apply at_cursor_le_bytes in Hc.
  assert (Hl' : 0 <= Z.of_nat (length data) < 256 ^ Z.of_nat 4)
    by (change (256 ^ Z.of_nat 4) with (2 ^ 32); lia).
  rewrite (bind_ok _ _ _ _ _ (binary_Read_uint_cursor 4 _ _ _ Hc Hl')).
  apply at_cursor_le_bytes in Hc.
  rewrite Nat2Z.id.
  rewrite (bind_ok _ _ _ _ _ (ReadFull_cursor _ _ _ _ Hc eq_refl)).
  apply at_cursor_advance in Hc.
  rewrite (bind_ok _ _ _ _ _ (ReadFull_cursor 15 _ _ _ Hc Htl)).
  apply at_cursor_advance in Hc. rewrite Htl in Hc.
  unfold lift at 1. unfold bind at 1. rewrite Ht.
  rewrite (bind_ok _ _ _ _ _ (binary_Read_uint_cursor 4 _ _ _ Hc Hcr)).
  apply at_cursor_le_bytes in Hc.
  rewrite (bind_ok _ _ _ _ _ (binary_Read_uint_cursor 4 _ _ _ Hc Htr)).
  destruct (Z.eqb_spec (Checksum data) crc); [congruence|]. reflexivity.
Qed.

(** C8, as the code has it. An entry [readEntry] returns carries the CRC-32C
    of its data, and its data is as long as the header length field says; its
    [Length] is the trailer length field, which [readEntry] does not compare
    with the header. An input that holds a whole record with a timestamp of
    version 1 and a stored checksum other than the CRC-32C of the stored data
    fails with [ErrCrc32Mismatch]. *)
Theorem readEntry_checks_crc :
  (forall (s s' : stream) (e : Entry),
      0 <= pos s -> readEntry s = (Ok e, s') ->
      Crc32 e = Checksum (Data e)
      /\ Z.of_nat (length (Data e)) = field_at s 8 4
      /\ Length e = field_at s (31 + Z.of_nat (length (Data e))) 4)
  /\ (forall (s : stream) (index crc trailer : Z)
        (data tbin rest : list byte) (t : Time),
        at_cursor s
          (le_bytes 8 index ++ le_bytes 4 (Z.of_nat (length data)) ++ data
             ++ tbin ++ le_bytes 4 crc ++ le_bytes 4 trailer ++ rest) ->
        0 <= index < 2 ^ 64 -> Z.of_nat (length data) < 2 ^ 32 ->
        length tbin = 15%nat -> UnmarshalBinary tbin = Ok t ->
        0 <= crc < 2 ^ 32 -> 0 <= trailer < 2 ^ 32 ->
        crc <> Checksum data ->
        fst (readEntry s) = Err ErrCrc32Mismatch).
Proof.
  split.
  - intros s s' e Hp H.
    destruct (readEntry_inv s s' e Hp H) as (_ & Hl & Hc & _ & Ht & _). auto.
  - apply readEntry_crc_mismatch.
Qed.

Lemma readEntry_checks_crc_witness :
  (Crc32 sample_entry = Checksum (Data sample_entry)
   /\ Z.of_nat (length (Data sample_entry))
      = field_at (mkStream (entry_bytes sample_entry) 0) 8 4
   /\ Length sample_entry
      = field_at (mkStream (entry_bytes sample_entry) 0)
          (31 + Z.of_nat (length (Data sample_entry))) 4)
  /\ fst (readEntry
            (mkStream
               (le_bytes 8 0 ++ le_bytes 4 (Z.of_nat (length (@nil byte)))
                  ++ [] ++ time_bytes zeroTime ++ le_bytes 4 1
                  ++ le_bytes 4 0 ++ []) 0))
     = Err ErrCrc32Mismatch.
Proof.
  split.
  - apply (proj1 readEntry_checks_crc (mkStream (entry_bytes sample_entry) 0)
             (mkStream (entry_bytes sample_entry) 41) sample_entry).
    + vm_compute. congruence.
    + vm_compute. reflexivity.
  - apply (proj2 readEntry_checks_crc _ 0 1 0 [] (time_bytes zeroTime) []
             zeroTime).
    + split; [vm_compute; congruence | reflexivity].
    + vm_compute. split; congruence.
    + vm_compute. reflexivity.
    + reflexivity.
    + vm_compute. reflexivity.
    + vm_compute. split; congruence.
    + vm_compute. split; congruence.
    + vm_compute. congruence.
Defined.

(** C8 as stated fails: [readEntry] accepts a record whose trailer length
    differs from its header length and returns an entry whose [Length] is not
    the length of its data. *)
Lemma readEntry_length_counterexample :
  ~ (forall (s s' : stream) (e : Entry),
        readEntry s = (Ok e, s') ->
        Crc32 e = Checksum (Data e)
        /\ Z.of_nat (length (Data e)) = Length e).
Proof.
  intros H.
  destruct (H (mkStream mismatched_record 0) (mkStream mismatched_record 35)
              (mkEntry 0 5 [] zeroTime 0)) as [_ Hl].
  - vm_compute. reflexivity.
  - cbn in Hl. discriminate Hl.
Qed.

(** * The rewind and its 32-bit sum *)

Lemma uint32_wrap_alone (m : Entry) :
  entry_ok m -> Length m = 2 ^ 32 - 35 ->
  pos (mkStream (entry_bytes m) (Z.of_nat (length (entry_bytes m)))) = 2 ^ 32
  /\ gotoPreviousEntry
       (mkStream (entry_bytes m) (Z.of_nat (length (entry_bytes m))))
     = (Ok tt, mkStream (entry_bytes m) (Z.of_nat (length (entry_bytes m))))
  /\ readPreviousEntry
       (mkStream (entry_bytes m) (Z.of_nat (length (entry_bytes m))))
     = (Err EOF, mkStream (entry_bytes m) (Z.of_nat (length (entry_bytes m)))).
Proof.
  intros Hok Hl.
  set (s := mkStream (entry_bytes m) (Z.of_nat (length (entry_bytes m)))).
  assert (Hg : gotoPreviousEntry s = (Ok tt, s)).
  { apply (gotoPreviousEntry_wrap s [] [] m Hok Hl).
    - unfold s. cbn [content]. rewrite app_nil_r. reflexivity.
    - unfold s. cbn [pos]. reflexivity. }
  split; [|split; [exact Hg|]].
  - unfold s. cbn [pos]. rewrite length_entry_bytes.
    destruct Hok as (_ & Hd & _). rewrite Hd, Hl. lia.
  - unfold readPreviousEntry. rewrite (bind_ok _ _ _ _ _ Hg).
    apply readEntry_eof. apply at_cursor_end. reflexivity.
Qed.

(** C7 at its failing input: after an entry whose data is [2^32 - 35] bytes
    long the sum [length + ConstEntrySize] wraps to 0 in uint32, so
    [gotoPreviousEntry] succeeds without moving (the offset stays [2^32], the
    end of the entry), and [readPreviousEntry] then runs into the end of the
    file. *)
Theorem gotoPreviousEntry_uint32_wrap :
  entry_ok huge_entry
  /\ pos huge_stream = 2 ^ 32
  /\ gotoPreviousEntry huge_stream = (Ok tt, huge_stream)
  /\ readPreviousEntry huge_stream = (Err EOF, huge_stream).
Proof.
  destruct entry_ok_huge as [Hok Hl].
  split; [exact Hok|]. exact (uint32_wrap_alone huge_entry Hok Hl).
Qed.

(** Where the 32-bit sum does not wrap, C7 holds: after an entry [E] with
    [Length + 35 < 2^32] the rewind lands on the start of [E] and
    [readPreviousEntry] returns [E] (its timestamp in UTC); at offset 0 both
    fail with [ErrNoPreviousEntry] and move nothing. *)
Theorem previous_entry_in_range (s : stream) (pre rest : list byte) (E : Entry) :
  entry_ok E -> Length E + ConstEntrySize < 2 ^ 32 ->
  content s = pre ++ entry_bytes E ++ rest ->
  pos s = Z.of_nat (length pre) + Z.of_nat (length (entry_bytes E)) ->
  gotoPreviousEntry s = (Ok tt, mkStream (content s) (Z.of_nat (length pre)))
  /\ readPreviousEntry s = (Ok (stored E), s)
  /\ gotoPreviousEntry (mkStream (content s) 0)
     = (Err ErrNoPreviousEntry, mkStream (content s) 0)
  /\ readPreviousEntry (mkStream (content s) 0)
     = (Err ErrNoPreviousEntry, mkStream (content s) 0).
Proof.
  intros Hok Hsmall Hc Hp. split; [|split; [|split]].
  - apply (gotoPreviousEntry_entry s pre rest E); assumption.
  - apply (readPreviousEntry_entry s pre rest E); assumption.
  - apply gotoPreviousEntry_start. reflexivity.
  - apply readPreviousEntry_start. reflexivity.
Qed.

Lemma previous_entry_in_range_witness :
  gotoPreviousEntry (mkStream (entry_bytes sample_entry) 41)
  = (Ok tt, mkStream (entry_bytes sample_entry) 0)
  /\ readPreviousEntry (mkStream (entry_bytes sample_entry) 41)
     = (Ok (stored sample_entry), mkStream (entry_bytes sample_entry) 41)
  /\ gotoPreviousEntry (mkStream (entry_bytes sample_entry) 0)
     = (Err ErrNoPreviousEntry, mkStream (entry_bytes sample_entry) 0)
  /\ readPreviousEntry (mkStream (entry_bytes sample_entry) 0)
     = (Err ErrNoPreviousEntry, mkStream (entry_bytes sample_entry) 0).
Proof.
  apply (previous_entry_in_range (mkStream (entry_bytes sample_entry) 41)
           [] [] sample_entry).
  - repeat split; vm_compute; congruence.
  - vm_compute. reflexivity.
  - cbn [content app]. rewrite app_nil_r. reflexivity.
  - vm_compute. reflexivity.
Defined.

(** * Claims about the append path *)

Lemma segment_write_open (fs : filesystem) (s : segment) (h : handle)
    (data : list byte) (m : Entry) :
  file s = Some h -> fs !! hpath h = Some (File data) ->
  segment_write fs s m
  = (Ok tt,
     {| firstIndex := firstIndex s;
        lastIndex := Index m;
        firstTimestamp :=
          if fileLength s =? 0 then Timestamp m else firstTimestamp s;
        lastTimestamp := Timestamp m;
        path := path s;
        file := Some (mkHandle (hpath h)
                        (hpos h + Z.of_nat (length (entry_bytes m))));
        fileLength := uint64 (fileLength s + Entry_size m) |},
     <[hpath h := File (write_at data (hpos h) (entry_bytes m))]> fs).
Proof.
  intros Hf Hd. unfold segment_write. rewrite Hf, Hd, writeEntry_bytes.
  reflexivity.
Qed.

(** C3. [Wal.Write] on a log whose active segment is open cycles exactly
    when [MaxSegmentSize > 0] and the active segment's [fileLength] has reached
    it. The cycle flushes the old active segment (the content of its file is
    committed to stable storage), closes it and keeps it in [segments] (its
    handle cleared), creates an empty file for a segment with
    [firstIndex = lastIndex = wal.index] and [fileLength = 0], appends that
    segment to [segments] and makes it current. The new entry is then written
    to it: its file holds the encoded entry and nothing else, its
    [lastIndex] is the index of the entry, its timestamps are the entry's and
    its [fileLength] is the size of the entry. Otherwise there is no cycle:
    nothing is committed, [segments] keeps its length, and the encoded entry
    is written to the file of the active segment at the offset of its
    handle, with [lastIndex], [lastTimestamp] and [fileLength] moved on. In
    both cases [wal.index] moves up by one. *)
Theorem Wal_Write_cycles_when_full (now : Time) (message : list byte)
    (w : Wal) (fs : filesystem) (d : disk) (c : nat) (cur : segment)
    (h : handle) (data : list byte) :
  wal_current w = Some c ->
  segments w !! c = Some cur ->
  file cur = Some h ->
  fs !! hpath h = Some (File data) ->
  fs !! wal_path w = Some Dir ->
  fs !! segment_path (wal_path w) (wal_index w) <> Some Dir ->
  0 <= MaxSegmentSize (wal_config w) ->
  if (0 <? MaxSegmentSize (wal_config w))
     && (MaxSegmentSize (wal_config w) <=? fileLength cur)
  then
    cycle w fs d
    = (Ok tt,
       {| wal_path := wal_path w;
          wal_current := Some (length (segments w));
          segments :=
            <[c := set_file cur None]> (segments w)
            ++ [{| firstIndex := wal_index w;
                   lastIndex := wal_index w;
                   firstTimestamp := zeroTime;
                   lastTimestamp := zeroTime;
                   path := segment_path (wal_path w) (wal_index w);
                   file :=
                     Some (mkHandle
                             (segment_path (wal_path w) (wal_index w)) 0);
                   fileLength := 0 |}];
          wal_config := wal_config w;
          wal_index := wal_index w |},
       <[segment_path (wal_path w) (wal_index w) := File []]> fs,
       <[hpath h := data]> d)
    /\ Wal_Write now message w fs d
       = (Ok tt,
          {| wal_path := wal_path w;
             wal_current := Some (length (segments w));
             segments :=
               <[c := set_file cur None]> (segments w)
               ++ [{| firstIndex := wal_index w;
                      lastIndex := wal_index w;
                      firstTimestamp := now;
                      lastTimestamp := now;
                      path := segment_path (wal_path w) (wal_index w);
                      file :=
                        Some (mkHandle
                                (segment_path (wal_path w) (wal_index w))
                                (35 + Z.of_nat (length message)));
                      fileLength :=
                        uint64 (35 + Z.of_nat (length message)) |}];
             wal_config := wal_config w;
             wal_index := uint64 (wal_index w + 1) |},
          <[segment_path (wal_path w) (wal_index w)
            := File (entry_bytes (newMessage now (wal_index w) message))]> fs,
          <[hpath h := data]> d)
  else
    Wal_Write now message w fs d
    = (Ok tt,
       {| wal_path := wal_path w;
          wal_current := Some c;
          segments :=
            <[c := {| firstIndex := firstIndex cur;
                      lastIndex := wal_index w;
                      firstTimestamp :=
                        if fileLength cur =? 0 then now
                        else firstTimestamp cur;
                      lastTimestamp := now;
                      path := path cur;
                      file :=
                        Some (mkHandle (hpath h)
                                (hpos h + (35 + Z.of_nat (length message))));
                      fileLength :=
                        uint64 (fileLength cur
                                + uint64 (35 + Z.of_nat (length message)))
                   |}]> (segments w);
          wal_config := wal_config w;
          wal_index := uint64 (wal_index w + 1) |},
       <[hpath h
         := File (write_at data (hpos h)
                    (entry_bytes (newMessage now (wal_index w) message)))]> fs,
       d).
Proof.
  intros Hc Hcur Hf Hd Hdir Hnew Hmax.
  set (m := newMessage now (wal_index w) message).
  set (new := segment_path (wal_path w) (wal_index w)) in *.
  assert (Hlen : Z.of_nat (length (entry_bytes m))
                 = 35 + Z.of_nat (length message))
    by (rewrite length_entry_bytes; reflexivity).
  assert (Hderef : deref w = Some cur) by (unfold deref; rewrite Hc; exact Hcur).
  assert (Hfull : segment_full w cur
                  = (0 <? MaxSegmentSize (wal_config w))
                    && (MaxSegmentSize (wal_config w) <=? fileLength cur)).
  { unfold segment_full. f_equal.
    destruct (Z.eqb_spec (MaxSegmentSize (wal_config w)) 0) as [->|Hn];
      [reflexivity|].
    symmetry. apply Z.ltb_lt. lia. }
  unfold Wal_Write. rewrite Hc, Hderef, Hfull.
  destruct ((0 <? MaxSegmentSize (wal_config w))
            && (MaxSegmentSize (wal_config w) <=? fileLength cur)).
  - assert (Hcy : cycle w fs d
                  = (Ok tt,
                     {| wal_path := wal_path w;
                        wal_current := Some (length (segments w));
                        segments :=
                          <[c := set_file cur None]> (segments w)
                          ++ [{| firstIndex := wal_index w;
                                 lastIndex := wal_index w;
                                 firstTimestamp := zeroTime;
                                 lastTimestamp := zeroTime;
                                 path := new;
                                 file := Some (mkHandle new 0);
                                 fileLength := 0 |}];
                        wal_config := wal_config w;
                        wal_index := wal_index w |},
                     <[new := File []]> fs,
                     <[hpath h := data]> d)).
    { unfold cycle, Wal_Close. rewrite Hderef.
      unfold segment_flush, segment_close, file_io. rewrite Hf, Hd.
      cbn [ret fst]. fold (set_file cur None).
      unfold store. rewrite Hc.
      cbn [wal_path wal_index segments wal_config wal_current].
      unfold createSegment, os_Create.
      fold (segment_path (wal_path w) (wal_index w)).
      rewrite filepath_Dir_segment_path, Hdir. fold new.
      rewrite length_insert.
      destruct (fs !! new) as [[|d0]|] eqn:E;
        [contradiction|reflexivity|reflexivity]. }
    split; [exact Hcy|]. rewrite Hcy.
    unfold write_current, deref.
    cbn [wal_path wal_index segments wal_config wal_current].
    rewrite lookup_app_r by (rewrite length_insert; lia).
    rewrite length_insert, Nat.sub_diag. cbn [lookup list_lookup].
    fold m.
    erewrite segment_write_open; [|reflexivity|apply lookup_insert_eq].
    unfold store.
    cbn [wal_path wal_index segments wal_config wal_current
         firstIndex lastIndex firstTimestamp lastTimestamp path fileLength
         hpath hpos Index Timestamp m newMessage].
    rewrite insert_app_r_alt by (rewrite length_insert; lia).
    rewrite length_insert, Nat.sub_diag. cbn [insert list_insert].
    rewrite insert_insert_eq.
    change (write_at [] 0 (entry_bytes m))
      with (write_at [] (Z.of_nat (length (@nil byte))) (entry_bytes m)).
    rewrite write_at_end, app_nil_l.
    change (0 =? 0) with true. cbn match.
    rewrite Hlen, !Z.add_0_l.
    unfold Entry_size, ConstEntrySize.
    change (Data m) with message.
    assert (Hmm : forall x, uint64 (uint64 x) = uint64 x)
      by (intros x; unfold uint64; apply Z.mod_mod; lia).
    rewrite Hmm. reflexivity.
  - fold m.
    unfold write_current. rewrite Hderef. fold m.
    rewrite (segment_write_open fs cur h data m Hf Hd).
    unfold store. rewrite Hc.
    cbn [wal_path wal_index segments wal_config wal_current
         Index Timestamp m newMessage].
    rewrite Hlen. reflexivity.
Qed.

(** * [Load] on a directory without segments *)

Section LoadPanic.
Context `{JsonCodec}.

Lemma load_segments_skip (fs : filesystem) (paths : list string)
    (acc : list segment) :
  (forall p, p ∈ paths ->
     exists n, fs !! p = Some n
               /\ forall d, n = File d ->
                    filepath_Ext (filepath_Base p) <> ".wal"%string) ->
  load_segments fs paths acc = Ok acc.
Proof.
  induction paths as [|p paths IH]; intros Hall; [reflexivity|].
  cbn [load_segments]. unfold os_Lstat.
  destruct (Hall p) as (n & Hn & Hext); [left|].
  rewrite Hn. cbn [rbind].
  assert (Hrest : load_segments fs paths acc = Ok acc).
  { apply IH. intros q Hq. apply Hall. right. exact Hq. }
  destruct n as [|d]; [exact Hrest|].
  destruct (String.eqb_spec (filepath_Ext (filepath_Base p)) ".wal") as [E|E].
  - exfalso. exact (Hext d eq_refl E).
  - exact Hrest.
Qed.

(** C10. [Load] on a directory that holds a readable, well-formed
    [config.json] and no regular file with extension [.wal] panics: it
    indexes the last element of the empty [wal.segments]. The directory
    is given by an absolute, clean path that holds no pattern character,
    so that [filepath.Abs] leaves the path as it is and [filepath.Glob]
    lists the directory itself. *)
Theorem Load_without_segments_panics (dir : string) (fs : filesystem)
    (bytes : list byte) (cfg : config) :
  abs_clean dir = true ->
  hasMeta dir = false ->
  fs !! dir = Some Dir ->
  fs !! filepath_Join dir "config.json" = Some (File bytes) ->
  json_decode bytes = Some cfg ->
  (forall p data, is_child dir p = true -> fs !! p = Some (File data) ->
                  filepath_Ext (filepath_Base p) <> ".wal"%string) ->
  Load dir fs = Panic.
Proof.
  intros _ Hmeta Hdir Hcfg Hdec Hnone.
  unfold Load, os_Lstat. rewrite Hdir. cbn [rbind]. rewrite Hcfg, Hdec.
  unfold filepath_Glob. rewrite Hmeta. cbn [rbind].
  rewrite load_segments_skip; [reflexivity|].
  intros p Hp. apply elem_of_slices_Sort, elem_of_children in Hp as [Hc [n Hn]].
  exists n. split; [exact Hn|]. intros d ->. exact (Hnone p d Hc Hn).
Qed.
End LoadPanic.

Lemma Load_without_segments_panics_witness :
  @Load fixed_codec "/d" bare_fs = Panic.
Proof.
  apply (@Load_without_segments_panics fixed_codec "/d" bare_fs
           (@json_encode fixed_codec (mkConfig 0 0 0 0)) (mkConfig 0 0 0 0)).
  - reflexivity.
  - reflexivity.
  - reflexivity.
  - reflexivity.
  - reflexivity.
  - intros p data Hc Hp. unfold bare_fs in Hp.
    destruct (decide (p = "/d")) as [->|Hn1].
    + rewrite lookup_insert_eq in Hp. discriminate.
    + rewrite lookup_insert_ne in Hp by congruence.
      destruct (decide (p = "/d/config.json")) as [->|Hn2].
      * vm_compute. discriminate.
      * rewrite lookup_insert_ne in Hp by congruence.
        rewrite lookup_empty in Hp. discriminate.
Defined.

Lemma Wal_Write_cycles_when_full_witness :
  Wal_Write (at_second 70) (bytes_of_string "g") demo_wal demo_fs ∅
  = (Ok tt,
     {| wal_path := "/wal";
        wal_current := Some 3%nat;
        segments :=
          <[2%nat := seg_of "/wal" 2
                       [newMessage (at_second 50) 2 (bytes_of_string "def")]
                       false]> (segments demo_wal)
          ++ [seg_of "/wal" 3
                [newMessage (at_second 70) 3 (bytes_of_string "g")] true];
        wal_config := mkConfig 1 0 0 0;
        wal_index := 4 |},
     <["/wal/00000000000000000003.wal"%string
       := File (entry_bytes
                  (newMessage (at_second 70) 3 (bytes_of_string "g")))]>
       demo_fs,
     {["/wal/00000000000000000002.wal"%string
       := chunk_bytes
            [newMessage (at_second 50) 2 (bytes_of_string "def")]]}).
Proof.
  assert (Hcur : segments demo_wal !! 2%nat
                 = Some (seg_of "/wal" 2 [newMessage (at_second 50) 2
                                            (bytes_of_string "def")] true))
    by (vm_compute; reflexivity).
  pose proof (Wal_Write_cycles_when_full (at_second 70) (bytes_of_string "g")
                demo_wal demo_fs ∅ 2%nat _
                (mkHandle "/wal/00000000000000000002.wal" 38)
                (chunk_bytes [newMessage (at_second 50) 2
                                (bytes_of_string "def")])
                eq_refl Hcur eq_refl) as Hw.
  assert (Cond : (0 <? MaxSegmentSize (wal_config demo_wal))
                 && (MaxSegmentSize (wal_config demo_wal)
                     <=? fileLength
                           (seg_of "/wal" 2
                              [newMessage (at_second 50) 2
                                 (bytes_of_string "def")] true)) = true)
    by (vm_compute; reflexivity).
  rewrite Cond in Hw.
  destruct Hw as [_ Hw].
  - vm_compute. reflexivity.
  - vm_compute. reflexivity.
  - vm_compute. discriminate.
  - vm_compute. discriminate.
  - rewrite Hw. vm_compute. reflexivity.
Defined.

(** * The two reader options *)

Lemma WithIndex_ok (i : Z) (r : Reader) :
  Time_IsZero (reader_timestamp r) = true ->
  WithIndex i r = (Ok tt, mkReader i (reader_timestamp r) (reader_current r)).
Proof. intros Hz. unfold WithIndex. cbn [reader_timestamp]. rewrite Hz. reflexivity. Qed.

Lemma WithIndex_err (i : Z) (r : Reader) :
  Time_IsZero (reader_timestamp r) = false ->
  WithIndex i r
  = (Err ErrIndexAndTimestampSet,
     mkReader i (reader_timestamp r) (reader_current r)).
Proof. intros Hz. unfold WithIndex. cbn [reader_timestamp]. rewrite Hz. reflexivity. Qed.

Lemma WithTimestamp_ok (t : Time) (r : Reader) :
  reader_index r = 0 ->
  WithTimestamp t r = (Ok tt, mkReader (reader_index r) t (reader_current r)).
Proof. intros Hz. unfold WithTimestamp. cbn [reader_index]. rewrite Hz. reflexivity. Qed.

Lemma WithTimestamp_err (t : Time) (r : Reader) :
  reader_index r <> 0 ->
  WithTimestamp t r
  = (Err ErrIndexAndTimestampSet,
     mkReader (reader_index r) t (reader_current r)).
Proof.
  intros Hz. unfold WithTimestamp. cbn [reader_index].
  destruct (Z.eqb_spec (reader_index r) 0); [contradiction|]. reflexivity.
Qed.

(** C9 at its failing inputs: index 0 and the zero timestamp are what the
    options test for to tell whether the other option was given, so
    [WithIndex(0)] together with any timestamp, and any index together with
    the zero timestamp, are accepted; on the sample log the reader is then
    opened by timestamp. *)
Theorem WithIndex_zero_and_timestamp_accepted :
  (forall t : Time,
      apply_options [WithIndex 0; WithTimestamp t] (mkReader 0 zeroTime None)
      = Ok (mkReader 0 t None))
  /\ (forall t : Time,
         apply_options [WithTimestamp t; WithIndex 0]
           (mkReader 0 zeroTime None)
         = if Time_IsZero t then Ok (mkReader 0 t None)
           else Err ErrIndexAndTimestampSet)
  /\ (forall i : Z,
         apply_options [WithIndex i; WithTimestamp zeroTime]
           (mkReader 0 zeroTime None)
         = if i =? 0 then Ok (mkReader 0 zeroTime None)
           else Err ErrIndexAndTimestampSet)
  /\ (forall i : Z,
         apply_options [WithTimestamp zeroTime; WithIndex i]
           (mkReader 0 zeroTime None)
         = Ok (mkReader i zeroTime None))
  /\ exists r : Reader,
       Wal_Reader demo_wal demo_fs [WithIndex 0; WithTimestamp (at_second 20)]
       = Ok r
       /\ reader_timestamp r = at_second 20.
Proof.
  split; [|split; [|split; [|split]]].
  - intros t. reflexivity.
  - intros t. cbn [apply_options].
    rewrite WithTimestamp_ok by reflexivity. cbn [reader_index reader_current].
    destruct (Time_IsZero t) eqn:E.
    + rewrite WithIndex_ok by exact E. reflexivity.
    + rewrite WithIndex_err by exact E. reflexivity.
  - intros i. cbn [apply_options].
    rewrite WithIndex_ok by reflexivity.
    cbn [reader_timestamp reader_current].
    destruct (Z.eqb_spec i 0) as [->|Hn].
    + rewrite WithTimestamp_ok by reflexivity. reflexivity.
    + rewrite WithTimestamp_err by exact Hn. reflexivity.
  - intros i. reflexivity.
  - eexists. split; [vm_compute; reflexivity | reflexivity].
Qed.

(** With an index other than 0 and a timestamp other than the zero time,
    both options together are refused, in either order. *)
Theorem WithIndex_and_WithTimestamp_rejected (i : Z) (t : Time) (w : Wal)
    (fs : filesystem) :
  i <> 0 -> Time_IsZero t = false ->
  Wal_Reader w fs [WithIndex i; WithTimestamp t] = Err ErrIndexAndTimestampSet
  /\ Wal_Reader w fs [WithTimestamp t; WithIndex i]
     = Err ErrIndexAndTimestampSet.
Proof.
  intros Hi Ht. unfold Wal_Reader. cbn [apply_options]. split.
  - rewrite WithIndex_ok by reflexivity.
    rewrite WithTimestamp_err by exact Hi. reflexivity.
  - rewrite WithTimestamp_ok by reflexivity.
    rewrite WithIndex_err by exact Ht. reflexivity.
Qed.

Lemma WithIndex_and_WithTimestamp_rejected_witness :
  Wal_Reader demo_wal demo_fs [WithIndex 1; WithTimestamp (at_second 20)]
  = Err ErrIndexAndTimestampSet
  /\ Wal_Reader demo_wal demo_fs [WithTimestamp (at_second 20); WithIndex 1]
     = Err ErrIndexAndTimestampSet.
Proof.
  apply (WithIndex_and_WithTimestamp_rejected 1 (at_second 20) demo_wal demo_fs).
  - discriminate.
  - reflexivity.
Defined.

(** * Claims about reading a log *)




(** * Claims about a reader opened at an index *)

(** C4 at its failing input: the log holds one entry, with index 0 and a
    payload of [2^32 - 35] bytes.  [Wal.Reader] with [WithIndex i] fails with
    [io.EOF] for every [i], where the claim has the first [Next] return that
    entry: [loadSegment] looks for the last entry with [gotoPreviousEntry],
    whose 32-bit sum [length + ConstEntrySize] wraps to 0. *)
Theorem Reader_WithIndex_fails_on_huge_entry :
  exists (w : Wal) (fs : filesystem),
    huge_log = (Ok tt, w, fs)
    /\ wal_index w = 1
    /\ fs !! segment_path "/wal" 0 = Some (File (entry_bytes huge_entry))
    /\ forall i, Wal_Reader w fs [WithIndex i] = Err EOF.
Proof.
  destruct huge_log_inv as (w & fs & Hb & Hp & I).
  exists w, fs. split; [exact Hb|].
  pose proof (inv_files _ _ _ _ I 0%nat [huge_entry] eq_refl) as Hf.
  rewrite Hp, start_0 in Hf.
  destruct entry_ok_huge as [Hok Hl].
  assert (Hload : loadSegment fs (segment_path "/wal" 0) = Err EOF).
  { apply (loadSegment_wrap fs "/wal" 0 [] huge_entry); [exact Hf|lia| |exact Hl].
    constructor; [exact Hok|constructor]. }
  split; [|split].
  - rewrite (inv_index _ _ _ _ I). reflexivity.
  - rewrite Hf. cbn [chunk_bytes flat_map]. rewrite app_nil_r. reflexivity.
  - intros i. unfold Wal_Reader, start_segment.
    change (apply_options [WithIndex i] (mkReader 0 zeroTime None))
      with (Ok (mkReader i zeroTime None)).
    cbn [rbind reader_timestamp reader_index].
    change (Time_IsZero zeroTime) with true. cbn match.
    rewrite (inv_segments _ _ _ _ I), Hp.
    cbn [closed_segments app find_by_index seg_of firstIndex lastIndex path
         lookup list_lookup last].
    rewrite count_nil.
    destruct (_ || _).
    + change ([seg_of "/wal" 0 [huge_entry] true] !! 0%nat)
        with (Some (seg_of "/wal" 0 [huge_entry] true)).
      cbn [seg_of path]. rewrite Hload. reflexivity.
    + cbn [seg_of path rbind]. rewrite Hload. destruct (i <? 0); reflexivity.
Qed.



(** * Claims about a reader opened at a timestamp *)




(** * Claims about loading a log *)

(** C6 at its failing input: the log holds one entry, with a payload of
    [2^32 - 35] bytes, and is closed.  [Load] on its directory fails with
    [io.EOF], where the claim has it return the log the writer had:
    [loadSegment] looks for the last entry with [gotoPreviousEntry], whose
    32-bit sum [length + ConstEntrySize] wraps to 0. *)
Theorem Load_fails_on_huge_entry :
  exists (w : Wal) (fs : filesystem),
    huge_log = (Ok tt, w, fs)
    /\ wal_index w = 1
    /\ (forall d, fst (fst (Wal_Close w fs d)) = Ok tt)
    /\ @Load fixed_codec "/wal" fs = Err EOF.
Proof.
  destruct huge_log_inv as (w & fs & Hb & Hp & I).
  exists w, fs. split; [exact Hb|].
  destruct entry_ok_huge as [Hok Hl].
  split; [|split].
  - rewrite (inv_index _ _ _ _ I). reflexivity.
  - intros d. rewrite (@Wal_Close_ok fixed_codec w fs [] [huge_entry] I).
    reflexivity.
  - unfold Load, os_Lstat. rewrite <- Hp.
    rewrite (inv_dir _ _ _ _ I). cbn [rbind].
    fold (config_path (wal_path w)).
    rewrite (inv_config _ _ _ _ I).
    rewrite (fixed_codec_lawful _ (inv_max _ _ _ _ I)).
    assert (Hm : hasMeta (wal_path w) = false) by (rewrite Hp; reflexivity).
    unfold filepath_Glob. rewrite Hm. cbn [rbind].
    rewrite (@load_segments_wrap fixed_codec w fs [] [huge_entry] I []
               huge_entry eq_refl); [reflexivity| |exact Hl].
    constructor; [exact Hok|constructor].
Qed.



(** * Further properties of the writer *)

(** The log [New] starts from once the options are applied. *)
Lemma configured_path (dir : string) (options : list Option) :
  Forall api_option options ->
  wal_path (fold_left (fun (w : Wal) (option : Wal -> Wal) => option w)
              options (mkWal dir None [] (mkConfig 0 0 0 0) 0)) = dir.
Proof.
  intros Hopts.
  destruct (fold_api_options options (mkWal dir None [] (mkConfig 0 0 0 0) 0)
              Hopts) as (P1 & _); [unfold config_wf; cbn; lia|exact P1].
Qed.

Lemma New_fresh `{JsonCodec} (dir : string) (options : list Option)
    (fs0 : filesystem) :
  fs_wf fs0 -> Forall api_option options -> fs0 !! dir = None ->
  exists w,
    New dir options fs0
    = (Ok w,
       <[config_path dir := File (json_encode (wal_config w))]>
         (<[segment_path dir 0 := File []]> (<[dir := Dir]> fs0)))
    /\ wal_path w = dir /\ wal_index w = 0 /\ wal_current w = Some 0%nat
    /\ segments w
       = [mkSegment 0 0 zeroTime zeroTime (segment_path dir 0)
            (Some (mkHandle (segment_path dir 0) 0)) 0]
    /\ wal_config w
       = wal_config (fold_left (fun (w : Wal) (option : Wal -> Wal) => option w)
                       options (mkWal dir None [] (mkConfig 0 0 0 0) 0)).
Proof.
  intros Hwf Hopts Hnone.
  assert (Hch : forall p, is_child dir p = true -> fs0 !! p = None).
  { intros p Hp. destruct (fs0 !! p) eqn:E; [|reflexivity].
    assert (Hd : fs0 !! dir = Some Dir) by (apply (Hwf dir p); eauto).
    congruence. }
  unfold New, os_Lstat. rewrite Hnone.
  set (w0 := {| wal_path := dir; wal_current := None; segments := [];
                wal_config := mkConfig 0 0 0 0; wal_index := 0 |}).
  destruct (fold_api_options options w0 Hopts) as (P1 & P2 & P3 & P4 & P5);
    [unfold config_wf; cbn; lia|].
  set (w1 := fold_left (fun (w : Wal) (option : Wal -> Wal) => option w)
               options w0) in *.
  cbn [wal_path wal_current segments wal_index w0] in P1, P2, P3, P4.
  unfold os_MkdirAll. rewrite P1, Hnone.
  unfold createSegment, os_Create.
  fold (segment_path dir 0).
  rewrite lookup_insert_ne by path_ne.
  rewrite (Hch _ (is_child_segment_path dir 0)).
  rewrite filepath_Dir_segment_path, lookup_insert_eq.
  unfold writeConfigToDisk, os_Create. cbn [wal_path wal_config].
  fold (config_path dir).
  rewrite lookup_insert_ne by path_ne.
  rewrite lookup_insert_ne by path_ne.
  rewrite (Hch _ (is_child_config_path dir)).
  rewrite filepath_Dir_config_path.
  rewrite lookup_insert_ne by path_ne.
  rewrite lookup_insert_eq.
  rewrite P3, P4, insert_insert_eq. cbn [length app].
  exists (mkWal dir (Some 0%nat)
            [mkSegment 0 0 zeroTime zeroTime (segment_path dir 0)
               (Some (mkHandle (segment_path dir 0) 0)) 0]
            (wal_config w1) 0).
  cbn [wal_path wal_index wal_current segments wal_config].
  rewrite ?P1. repeat split; reflexivity.
Qed.

(** [New] on an absolute, clean path that does not exist, under a directory
    that does, makes the directory, an empty first segment named after
    index 0 and the configuration file, and nothing else; the log it returns
    has that one segment, open and current, the next index 0 and the
    configuration the options set.  On a path that exists it answers
    [os.ErrExist] and leaves the file system as it was. *)
Theorem New_lays_out_log `{JsonCodec} (dir : string) (options : list Option)
    (fs0 : filesystem) :
  abs_clean dir = true ->
  (fs_wf fs0 -> parent_exists fs0 dir -> Forall api_option options ->
   fs0 !! dir = None ->
   exists w,
     New dir options fs0
     = (Ok w,
        <[config_path dir := File (json_encode (wal_config w))]>
          (<[segment_path dir 0 := File []]> (<[dir := Dir]> fs0)))
     /\ wal_path w = dir /\ wal_index w = 0 /\ wal_current w = Some 0%nat
     /\ segments w
        = [mkSegment 0 0 zeroTime zeroTime (segment_path dir 0)
             (Some (mkHandle (segment_path dir 0) 0)) 0]
     /\ wal_config w = wal_config (configured dir options))
  /\ (is_Some (fs0 !! dir) -> New dir options fs0 = (Err ErrExist, fs0)).
Proof.
  intros _. split.
  - intros Hwf _ Hopts Hnone. apply New_fresh; assumption.
  - intros [n Hn]. unfold New, os_Lstat. rewrite Hn. reflexivity.
Qed.

Lemma New_lays_out_log_witness :
  (exists w,
     @New fixed_codec "/wal" [WithMaxSegmentSize 1] ∅
     = (Ok w,
        <[config_path "/wal" := File (@json_encode fixed_codec (wal_config w))]>
          (<[segment_path "/wal" 0 := File []]> (<["/wal" := Dir]> ∅)))
     /\ wal_path w = "/wal"%string /\ wal_index w = 0
     /\ wal_current w = Some 0%nat
     /\ segments w
        = [mkSegment 0 0 zeroTime zeroTime (segment_path "/wal" 0)
             (Some (mkHandle (segment_path "/wal" 0) 0)) 0]
     /\ wal_config w = wal_config (configured "/wal" [WithMaxSegmentSize 1]))
  /\ @New fixed_codec "/wal" [WithMaxSegmentSize 1] demo_fs
     = (Err ErrExist, demo_fs).
Proof.
  split.
  - apply (proj1 (@New_lays_out_log fixed_codec "/wal" [WithMaxSegmentSize 1] ∅
                    eq_refl)
             fs_wf_empty (or_introl eq_refl) demo_options_ok).
    reflexivity.
  - apply (proj2 (@New_lays_out_log fixed_codec "/wal" [WithMaxSegmentSize 1]
                    demo_fs eq_refl)).
    exists Dir. vm_compute. reflexivity.
Defined.

Section Layout.
Context `{JsonCodec}.

Lemma chunk_last_index (w : Wal) (fs : filesystem)
    (closed : list (list Entry)) (act : list Entry) (k : nat)
    (c : list Entry) :
  log_inv w fs closed act ->
  (closed ++ [act]) !! k = Some c -> c <> [] ->
  last_index (start (closed ++ [act]) k) c
  = start (closed ++ [act]) k + Z.of_nat (length c) - 1.
Proof.
  intros I Hk Hne. destruct (chunk_split_last c Hne) as (c' & e & -> & Hl).
  unfold last_index. rewrite Hl.
  assert (Hj : (c' ++ [e]) !! length c' = Some e)
    by (apply list_lookup_middle; reflexivity).
  pose proof (concat_lookup_chunk _ _ _ _ e Hk Hj) as Hc.
  destruct (inv_entries _ _ _ _ I _ _ Hc) as [Hi _].
  rewrite Hi, length_app. cbn [length]. unfold start, count. lia.
Qed.

Lemma layout_segment (w : Wal) (fs : filesystem)
    (closed : list (list Entry)) (act : list Entry) (k : nat)
    (c : list Entry) :
  log_inv w fs closed act ->
  (closed ++ [act]) !! k = Some c ->
  segments w !! k
  = Some (seg_of (wal_path w) (start (closed ++ [act]) k) c
            (bool_decide (k = length closed))).
Proof.
  intros I Hk. rewrite (inv_segments _ _ _ _ I).
  apply lookup_app_Some in Hk as [Hk|[Hge Hk]].
  - pose proof (lookup_lt_Some _ _ _ Hk) as Hlt.
    rewrite lookup_app_l by (rewrite length_closed_segments; exact Hlt).
    rewrite (closed_segments_lookup _ _ 0 k c Hk), Z.add_0_l.
    rewrite start_app_l by lia.
    rewrite bool_decide_eq_false_2 by lia. reflexivity.
  - assert (k = length closed) as ->.
    { apply lookup_lt_Some in Hk. cbn [length] in Hk. lia. }
    rewrite Nat.sub_diag in Hk. injection Hk as <-.
    rewrite lookup_app_r by (rewrite length_closed_segments; lia).
    rewrite length_closed_segments, Nat.sub_diag, start_length.
    rewrite bool_decide_eq_true_2 by reflexivity. reflexivity.
Qed.
End Layout.



(** * When segments roll over *)

Section Rollover.
Context `{JsonCodec}.

Lemma Wal_Writes_rolled (appends : list (Time * list byte)) :
  forall (w : Wal) (fs : filesystem) (closed : list (list Entry))
         (act : list Entry),
    log_inv w fs closed act ->
    Forall (rolled (MaxSegmentSize (wal_config w))) closed ->
    filling (MaxSegmentSize (wal_config w)) act ->
    Forall append_fits appends ->
    Z.of_nat (length (chunk_bytes (concat (closed ++ [act]))))
      + log_bytes appends < 2 ^ 63 ->
    exists w' fs' closed' act',
      (forall d, fst (Wal_Writes appends w fs d) = (Ok tt, w', fs'))
      /\ wal_path w' = wal_path w /\ wal_config w' = wal_config w
      /\ log_inv w' fs' closed' act'
      /\ Forall (rolled (MaxSegmentSize (wal_config w))) closed'
      /\ filling (MaxSegmentSize (wal_config w)) act'
      /\ concat (closed' ++ [act'])
         = concat (closed ++ [act]) ++ entries_from (wal_index w) appends.
Proof.
  induction appends as [|[now m] rest IH];
    intros w fs closed act I Hcl Hact Hall Hsize.
  - exists w, fs, closed, act. cbn [Wal_Writes entries_from].
    rewrite app_nil_r.
    split; [intros d; reflexivity|]. split; [reflexivity|].
    split; [reflexivity|].
    split; [exact I|]. split; [exact Hcl|]. split; [exact Hact|reflexivity].
  - apply Forall_cons in Hall as [[Hnow Hm] Hall]. cbn [fst snd] in *.
    rewrite log_bytes_cons in Hsize. cbn [snd] in Hsize.
    pose proof (log_bytes_nonneg rest) as Hrest.
    destruct (Wal_Write_inv now m w fs closed act I Hnow Hm)
      as (w1 & fs1 & HW & Hp1 & Hc1 & I1); [lia|].
    set (max := MaxSegmentSize (wal_config w)) in *.
    set (e := newMessage now (wal_index w) m) in *.
    assert (Hmax : 0 <= max) by apply (inv_max _ _ _ _ I).
    assert (Hsz : Z.of_nat (length (chunk_bytes [e]))
                  = 35 + Z.of_nat (length m)).
    { cbn [chunk_bytes flat_map]. rewrite app_nil_r, length_entry_bytes.
      reflexivity. }
    destruct (chunk_full max act) eqn:Hfull.
    + assert (Hr : rolled max act).
      { unfold chunk_full in Hfull. apply andb_true_iff in Hfull as [Hn Hle].
        apply negb_true_iff, Z.eqb_neq in Hn. apply Z.leb_le in Hle.
        split; [lia|]. destruct Hact as [Hz|Hlt]; [contradiction|exact Hlt]. }
      assert (Hf : filling max [e]).
      { right. cbn [removelast chunk_bytes flat_map length]. destruct Hr; lia. }
      destruct (IH w1 fs1 (closed ++ [act]) [e] I1)
        as (w' & fs' & closed' & act' & HWs & Hp & Hc & I' & Hcl' & Hact' & Hcat).
      * rewrite Hc1. fold max. apply Forall_app. split; [exact Hcl|].
        constructor; [exact Hr|constructor].
      * rewrite Hc1. exact Hf.
      * exact Hall.
      * rewrite (concat_app (closed ++ [act])), chunk_bytes_app, length_app.
        cbn [concat]. rewrite app_nil_r, Nat2Z.inj_add, Hsz. lia.
      * exists w', fs', closed', act'. rewrite Hc1 in Hcl', Hact'.
        split; [intros d; cbn [Wal_Writes]; rewrite HW; apply HWs|].
        split; [congruence|]. split; [congruence|].
        split; [exact I'|]. split; [exact Hcl'|]. split; [exact Hact'|].
        rewrite Hcat. rewrite (concat_app (closed ++ [act])). cbn [concat].
        rewrite app_nil_r, <- app_assoc. cbn [entries_from app].
        assert (Hi : wal_index w1 = wal_index w + 1).
        { rewrite (inv_index _ _ _ _ I1), (inv_index _ _ _ _ I).
          rewrite (count_app (closed ++ [act])), count_single. reflexivity. }
        rewrite Hi. reflexivity.
    + assert (Hf : filling max (act ++ [e])).
      { unfold filling. rewrite removelast_last. unfold chunk_full in Hfull.
        apply andb_false_iff in Hfull as [Hn|Hle].
        - left. apply negb_false_iff, Z.eqb_eq in Hn. exact Hn.
        - right. apply Z.leb_gt in Hle. exact Hle. }
      destruct (IH w1 fs1 closed (act ++ [e]) I1)
        as (w' & fs' & closed' & act' & HWs & Hp & Hc & I' & Hcl' & Hact' & Hcat).
      * rewrite Hc1. exact Hcl.
      * rewrite Hc1. exact Hf.
      * exact Hall.
      * rewrite concat_app, chunk_bytes_app, length_app. cbn [concat].
        rewrite app_nil_r, chunk_bytes_app, length_app, !Nat2Z.inj_add, Hsz.
        rewrite concat_app, chunk_bytes_app, length_app in Hsize.
        cbn [concat] in Hsize. rewrite app_nil_r in Hsize. lia.
      * exists w', fs', closed', act'. rewrite Hc1 in Hcl', Hact'.
        split; [intros d; cbn [Wal_Writes]; rewrite HW; apply HWs|].
        split; [congruence|]. split; [congruence|].
        split; [exact I'|]. split; [exact Hcl'|]. split; [exact Hact'|].
        rewrite Hcat. rewrite !concat_app. cbn [concat].
        rewrite !app_nil_r, <- !app_assoc. cbn [entries_from app].
        assert (Hi : wal_index w1 = wal_index w + 1).
        { rewrite (inv_index _ _ _ _ I1), (inv_index _ _ _ _ I).
          rewrite !count_app, !count_single, length_app. cbn [length]. lia. }
        rewrite Hi. reflexivity.
Qed.
End Rollover.



(** * A closed log *)

Lemma Wal_Close_closed (w : Wal) (fs : filesystem) (d : disk) (c : nat)
    (cur : segment) :
  wal_current w = Some c -> segments w !! c = Some cur -> file cur = None ->
  Wal_Close w fs d = (Err ErrInvalid, w, d).
Proof.
  intros Hc Hcur Hf. unfold Wal_Close, deref. rewrite Hc, Hcur.
  unfold segment_flush. rewrite Hf. reflexivity.
Qed.

Lemma Wal_Write_closed (now : Time) (message : list byte) (w : Wal)
    (fs : filesystem) (d : disk) (c : nat) (cur : segment) :
  wal_current w = Some c -> segments w !! c = Some cur -> file cur = None ->
  Wal_Write now message w fs d
  = (Err ErrInvalid,
     mkWal (wal_path w) (wal_current w) (segments w) (wal_config w)
       (if segment_full w cur then wal_index w else uint64 (wal_index w + 1)),
     fs, d).
Proof.
  intros Hc Hcur Hf. unfold Wal_Write. rewrite Hc.
  assert (Hd : deref w = Some cur) by (unfold deref; rewrite Hc; exact Hcur).
  rewrite Hd. destruct (segment_full w cur).
  - unfold cycle. rewrite (Wal_Close_closed w fs d c cur Hc Hcur Hf).
    destruct w as [wp wc ws wcfg wi]. cbn in Hc. subst wc. reflexivity.
  - unfold write_current. rewrite Hd. unfold segment_write. rewrite Hf.
    unfold store. rewrite Hc.
    cbn [wal_path wal_current segments wal_config wal_index].
    rewrite list_insert_id by exact Hcur. reflexivity.
Qed.



(** * Further properties of the entry codec and of segments *)

(** ** A record that is cut short *)

Lemma bind_assoc {A B C} (m : io A) (f : A -> io B) (g : B -> io C)
    (s : stream) :
  bind (bind m f) g s = bind m (fun x => bind (f x) g) s.
Proof. unfold bind. destruct (m s) as [[a|e|] s']; reflexivity. Qed.

(** One read of a field from a file that ends [n] bytes after the offset:
    either the file ends inside the field and the read fails, with [io.EOF]
    when nothing is left, or the field is read and the file ends
    [n - length field] bytes later. *)
Lemma ReadFull_take {A} (field rest : list byte) (m n : nat) (s : stream)
    (k : list byte -> io A) :
  length field = m -> at_cursor s (take n (field ++ rest)) ->
  ((n < m)%nat
   /\ fst (bind (ReadFull m) k s)
      = Err (if (n =? 0)%nat then EOF else ErrUnexpectedEOF))
  \/ ((m <= n)%nat
      /\ bind (ReadFull m) k s = k field (advance s (Z.of_nat m))
      /\ at_cursor (advance s (Z.of_nat m)) (take (n - m) rest)).
Proof.
  intros Hm Hc. destruct (le_lt_dec m n) as [Hle|Hlt].
  - right. split; [exact Hle|].
    rewrite take_app_ge in Hc by lia. rewrite Hm in Hc.
    rewrite (bind_ok _ _ _ _ _ (ReadFull_cursor m s _ _ Hc Hm)).
    split; [reflexivity|].
    apply at_cursor_advance in Hc. rewrite Hm in Hc. exact Hc.
  - left. split; [exact Hlt|].
    rewrite take_app_le in Hc by lia.
    destruct Hc as [Hp Hd]. unfold bind, ReadFull.
    destruct (Nat.eqb_spec m 0) as [->|Hm0]; [lia|].
    rewrite Hd, length_take, Hm, Nat.min_l by lia.
    destruct (Nat.eqb_spec n 0) as [->|Hn0]; [reflexivity|].
    destruct (Nat.ltb_spec n m); [reflexivity|lia].
Qed.

Lemma bind_ret {A B} (v : A) (k : A -> io B) (s : stream) :
  bind (ret v) k s = k v s.
Proof. reflexivity. Qed.

Ltac read_field field rest m n s Hlen Hc :=
  let T := fresh "T" in
  pose proof (fun A k => @ReadFull_take A field rest m n s k Hlen Hc) as T;
  match goal with
  | |- context [bind (ReadFull m) ?k s] => specialize (T _ k)
  end.

Ltac cut_at r n Hyes Hno Hin :=
  let Hz := fresh "Hz" in
  destruct (Nat.eq_dec r 0%nat) as [Hz|Hz];
  [ replace (r =? 0)%nat with (0 =? 0)%nat by (rewrite Hz; reflexivity);
    apply (Hyes n), Hin; lia
  | apply (Hno n r); [exact Hz | rewrite <- Hin; lia] ].

(** [readEntry] on a file that ends inside an entry, [n] bytes after its
    start: it never returns an entry.  It fails with [io.EOF] when the file
    ends at the start of one of the reads (before the index, the length, the
    data, the timestamp, the checksum or the trailer) and with
    [io.ErrUnexpectedEOF] when it ends inside one. *)
Theorem readEntry_truncated (pre : list byte) (e : Entry) (n : nat) :
  entry_ok e -> (n < length (entry_bytes e))%nat ->
  fst (readEntry (mkStream (pre ++ take n (entry_bytes e))
                    (Z.of_nat (length pre))))
  = Err (if bool_decide
              (n ∈ [0; 8; 12; 12 + length (Data e); 27 + length (Data e);
                    31 + length (Data e)]%nat)
         then EOF else ErrUnexpectedEOF).
Proof.
  intros ((Hi & Hl) & Hlen & Hcrc & Ht) Hn.
  pose proof (length_entry_bytes e) as Htot.
  set (L := length (Data e)) in *.
  assert (HL : Z.to_nat (Length e) = L) by lia.
  set (s0 := mkStream (pre ++ take n (entry_bytes e)) (Z.of_nat (length pre))).
  assert (Hc : at_cursor s0 (take n (entry_bytes e)))
    by (apply (at_cursor_app _ pre); reflexivity).
  unfold entry_bytes in Hc.
  assert (Hyes : forall k : nat,
             k ∈ [0; 8; 12; 12 + L; 27 + L; 31 + L]%nat ->
             Err (if (0 =? 0)%nat then EOF else ErrUnexpectedEOF)
             = Err (A := Entry)
                 (if bool_decide (k ∈ [0; 8; 12; 12 + L; 27 + L; 31 + L]%nat)
                  then EOF else ErrUnexpectedEOF)).
  { intros k Hk. rewrite bool_decide_eq_true_2 by exact Hk. reflexivity. }
  assert (Hno : forall k r : nat,
             r <> 0%nat -> k ∉ [0; 8; 12; 12 + L; 27 + L; 31 + L]%nat ->
             Err (if (r =? 0)%nat then EOF else ErrUnexpectedEOF)
             = Err (A := Entry)
                 (if bool_decide (k ∈ [0; 8; 12; 12 + L; 27 + L; 31 + L]%nat)
                  then EOF else ErrUnexpectedEOF)).
  { intros k r Hr Hk. rewrite bool_decide_eq_false_2 by exact Hk.
    destruct (Nat.eqb_spec r 0); [contradiction|reflexivity]. }
  unfold readEntry, binary_Read_uint.
  assert (Hin : forall k : nat,
             (k = 0 \/ k = 8 \/ k = 12 \/ k = 12 + L \/ k = 27 + L
              \/ k = 31 + L)%nat
             <-> k ∈ [0; 8; 12; 12 + L; 27 + L; 31 + L]%nat).
  { intros k. rewrite !elem_of_cons, elem_of_nil. tauto. }
  (* the index *)
  rewrite bind_assoc.
  read_field (le_bytes 8 (Index e))
    (le_bytes 4 (Length e) ++ Data e ++ time_bytes (Timestamp e)
       ++ le_bytes 4 (Crc32 e) ++ le_bytes 4 (Length e))
    8%nat n s0 (length_le_bytes 8 (Index e)) Hc.
  destruct T as [[Hlt E]|(Hle & E & Hc1)].
  { rewrite E. cut_at n n Hyes Hno Hin. }
  rewrite E. cbn beta. rewrite bind_ret.
  set (s1 := advance s0 (Z.of_nat 8)) in *.
  (* the length *)
  rewrite bind_assoc.
  read_field (le_bytes 4 (Length e))
    (Data e ++ time_bytes (Timestamp e) ++ le_bytes 4 (Crc32 e)
       ++ le_bytes 4 (Length e))
    4%nat (n - 8)%nat s1 (length_le_bytes 4 (Length e)) Hc1.
  destruct T as [[Hlt E2]|(Hle2 & E2 & Hc2)].
  { rewrite E2. cut_at (n - 8)%nat n Hyes Hno Hin. }
  rewrite E2. cbn beta. rewrite bind_ret.
  rewrite le_value_le_bytes_small by exact Hl. rewrite HL.
  set (s2 := advance s1 (Z.of_nat 4)) in *.
  (* the data *)
  read_field (Data e)
    (time_bytes (Timestamp e) ++ le_bytes 4 (Crc32 e) ++ le_bytes 4 (Length e))
    L (n - 8 - 4)%nat s2 (eq_refl L) Hc2.
  destruct T as [[Hlt E3]|(Hle3 & E3 & Hc3)].
  { rewrite E3. cut_at (n - 8 - 4)%nat n Hyes Hno Hin. }
  rewrite E3. cbn beta.
  set (s3 := advance s2 (Z.of_nat L)) in *.
  (* the timestamp *)
  read_field (time_bytes (Timestamp e))
    (le_bytes 4 (Crc32 e) ++ le_bytes 4 (Length e))
    15%nat (n - 8 - 4 - L)%nat s3 (length_time_bytes (Timestamp e)) Hc3.
  destruct T as [[Hlt E4]|(Hle4 & E4 & Hc4)].
  { rewrite E4. cut_at (n - 8 - 4 - L)%nat n Hyes Hno Hin. }
  rewrite E4. cbn beta.
  set (s4 := advance s3 (Z.of_nat 15)) in *.
  unfold lift at 1. unfold bind at 1.
  rewrite UnmarshalBinary_time_bytes by exact Ht.
  (* the checksum *)
  rewrite bind_assoc.
  read_field (le_bytes 4 (Crc32 e)) (le_bytes 4 (Length e))
    4%nat (n - 8 - 4 - L - 15)%nat s4 (length_le_bytes 4 (Crc32 e)) Hc4.
  destruct T as [[Hlt E5]|(Hle5 & E5 & Hc5)].
  { rewrite E5. cut_at (n - 8 - 4 - L - 15)%nat n Hyes Hno Hin. }
  rewrite E5. cbn beta. rewrite bind_ret.
  set (s5 := advance s4 (Z.of_nat 4)) in *.
  (* the trailer *)
  rewrite bind_assoc.
  rewrite <- (app_nil_r (le_bytes 4 (Length e))) in Hc5.
  read_field (le_bytes 4 (Length e)) (@nil byte)
    4%nat (n - 8 - 4 - L - 15 - 4)%nat s5 (length_le_bytes 4 (Length e)) Hc5.
  destruct T as [[Hlt E6]|(Hle6 & _)].
  { rewrite E6. cut_at (n - 8 - 4 - L - 15 - 4)%nat n Hyes Hno Hin. }
  lia.
Qed.

Lemma readEntry_truncated_witness :
  fst (readEntry
         (mkStream ([] ++ take 20 (entry_bytes
                                     (newMessage (at_second 10) 0
                                        (bytes_of_string "abc"))))
            (Z.of_nat (length (@nil byte)))))
  = Err (if bool_decide
              (20%nat ∈ [0; 8; 12;
                         12 + length (Data (newMessage (at_second 10) 0
                                              (bytes_of_string "abc")));
                         27 + length (Data (newMessage (at_second 10) 0
                                              (bytes_of_string "abc")));
                         31 + length (Data (newMessage (at_second 10) 0
                                              (bytes_of_string "abc")))]%nat)
         then EOF else ErrUnexpectedEOF).
Proof.
  apply (readEntry_truncated []
           (newMessage (at_second 10) 0 (bytes_of_string "abc")) 20).
  - apply newMessage_ok.
    + apply Time_wf_at_second. lia.
    + lia.
    + vm_compute. reflexivity.
  - vm_compute. lia.
Defined.

(** * Segment files: names, metadata, stable storage *)

(** The name [createSegment] gives a segment file carries the first index
    of the segment: [loadSegment] reads that index back from the name, [Load]
    takes the file for a segment by its extension, different indices give
    different paths, and the byte-wise order [slices.Sort] puts the paths of
    a directory in is the order of the indices. *)
Theorem segment_names_sort_by_index (dir : string) (a b : Z) :
  0 <= a < 2 ^ 64 -> 0 <= b < 2 ^ 64 ->
  Sscanf_d_wal (filepath_Base (segment_path dir a)) = Ok a
  /\ filepath_Ext (filepath_Base (segment_path dir a)) = ".wal"%string
  /\ (segment_path dir a = segment_path dir b <-> a = b)
  /\ (String.le (segment_path dir a) (segment_path dir b) <-> a <= b).
Proof.
  intros Ha Hb.
  assert (Hinj : segment_path dir a = segment_path dir b -> a = b)
    by (apply segment_path_inj; assumption).
  split; [rewrite filepath_Base_segment_path; apply Sscanf_Sprintf; exact Ha|].
  split; [apply segment_is_wal|]. split; [|split].
  - split; [exact Hinj|intros ->; reflexivity].
  - intros Hle. destruct (Z.le_gt_cases a b) as [H|H]; [exact H|].
    assert (Hba : String.le (segment_path dir b) (segment_path dir a))
      by (apply segment_path_le; lia).
    assert (E : segment_path dir a = segment_path dir b)
      by (apply (anti_symm String.le); assumption).
    apply Hinj in E. lia.
  - intros Hab. apply segment_path_le; lia.
Qed.

Lemma segment_names_sort_by_index_witness :
  Sscanf_d_wal (filepath_Base (segment_path "/wal" 24)) = Ok 24
  /\ filepath_Ext (filepath_Base (segment_path "/wal" 24)) = ".wal"%string
  /\ (segment_path "/wal" 24 = segment_path "/wal" 100 <-> 24 = 100)
  /\ (String.le (segment_path "/wal" 24) (segment_path "/wal" 100)
      <-> 24 <= 100).
Proof.
  apply (segment_names_sort_by_index "/wal" 24 100); lia.
Defined.

(** [loadSegment] on a segment file that holds well-formed entries, the last
    of them shorter than [2^32 - 35] bytes: the first index is the one in the
    name of the file, the last index is the index of the last entry in the
    file, the timestamps are those of the first and the last entry, in UTC,
    the length is the size of the file, and the file is not left open.  For
    an empty file the last index is the first one and both timestamps are
    the zero time. *)
Theorem loadSegment_reads_metadata (fs : filesystem) (dir : string)
    (first : Z) (c : list Entry) :
  fs !! segment_path dir first = Some (File (chunk_bytes c)) ->
  0 <= first < 2 ^ 64 ->
  Forall entry_ok c ->
  (forall e, last c = Some e -> Length e + ConstEntrySize < 2 ^ 32) ->
  Z.of_nat (length (chunk_bytes c)) < 2 ^ 63 ->
  exists s : segment,
    loadSegment fs (segment_path dir first) = Ok s
    /\ firstIndex s = first
    /\ path s = segment_path dir first
    /\ file s = None
    /\ fileLength s = Z.of_nat (length (chunk_bytes c))
    /\ match head c, last c with
       | Some e0, Some el =>
           lastIndex s = Index el
           /\ firstTimestamp s = Time_In (Timestamp e0) UTC
           /\ lastTimestamp s = Time_In (Timestamp el) UTC
       | _, _ =>
           lastIndex s = first
           /\ firstTimestamp s = zeroTime /\ lastTimestamp s = zeroTime
       end.
Proof.
  intros Hf Hfirst Hok Hsmall Hsize.
  exists (loaded dir first c).
  split; [apply loadSegment_chunk; assumption|].
  cbn [loaded firstIndex path file fileLength lastIndex firstTimestamp
       lastTimestamp].
  split; [reflexivity|]. split; [reflexivity|]. split; [reflexivity|].
  split; [reflexivity|].
  destruct c as [|e0 c']; [cbn; auto|].
  cbn [head]. unfold last_index, last_timestamp, first_timestamp.
  rewrite last_map. cbn [map].
  destruct (last (e0 :: c')) as [el|] eqn:El.
  - cbn. auto.
  - apply last_None in El. discriminate.
Qed.

Lemma loadSegment_reads_metadata_witness :
  exists s : segment,
    loadSegment demo_fs (segment_path "/wal" 2) = Ok s
    /\ firstIndex s = 2
    /\ path s = segment_path "/wal" 2
    /\ file s = None
    /\ fileLength s
       = Z.of_nat (length (chunk_bytes
                             [newMessage (at_second 50) 2
                                (bytes_of_string "def")]))
    /\ match head [newMessage (at_second 50) 2 (bytes_of_string "def")],
             last [newMessage (at_second 50) 2 (bytes_of_string "def")] with
       | Some e0, Some el =>
           lastIndex s = Index el
           /\ firstTimestamp s = Time_In (Timestamp e0) UTC
           /\ lastTimestamp s = Time_In (Timestamp el) UTC
       | _, _ =>
           lastIndex s = 2
           /\ firstTimestamp s = zeroTime /\ lastTimestamp s = zeroTime
       end.
Proof.
  apply (loadSegment_reads_metadata demo_fs "/wal" 2
           [newMessage (at_second 50) 2 (bytes_of_string "def")]).
  - vm_compute. reflexivity.
  - lia.
  - constructor; [|constructor]. apply newMessage_ok.
    + apply Time_wf_at_second. lia.
    + lia.
    + vm_compute. reflexivity.
  - intros e He. injection He as <-. vm_compute. reflexivity.
  - vm_compute. reflexivity.
Defined.

(** A log without segments, such as the zero value of [Wal]: [Write] answers
    [ErrNoSegmentsFound] and changes nothing, while [Flush], [Close] and
    [Reader] (once its options are accepted) panic, on a nil segment or on
    the empty list of segments. *)
Theorem log_without_segments (p : string) (cfg : config) (i : Z)
    (fs : filesystem) (d : disk) (now : Time) (message : list byte)
    (options : list ReaderOption) :
  Wal_Write now message (mkWal p None [] cfg i) fs d
  = (Err ErrNoSegmentsFound, mkWal p None [] cfg i, fs, d)
  /\ Wal_Flush (mkWal p None [] cfg i) fs d = (Panic, d)
  /\ Wal_Close (mkWal p None [] cfg i) fs d = (Panic, mkWal p None [] cfg i, d)
  /\ Wal_Reader (mkWal p None [] cfg i) fs options
     = match apply_options options (mkReader 0 zeroTime None) with
       | Ok _ => Panic
       | Err e => Err e
       | Panic => Panic
       end.
Proof.
  split; [reflexivity|]. split; [reflexivity|]. split; [reflexivity|].
  unfold Wal_Reader.
  destruct (apply_options options (mkReader 0 zeroTime None)) as [r| |];
    [|reflexivity|reflexivity].
  cbn [rbind segments find_by_index find_by_timestamp].
  destruct (Time_IsZero (reader_timestamp r)); reflexivity.
Qed.

(** * What reaches stable storage *)

Section Committed.
Context `{JsonCodec}.

Lemma Wal_Writes_committed (appends : list (Time * list byte)) :
  forall (w : Wal) (fs : filesystem) (d : disk)
         (closed : list (list Entry)) (act : list Entry),
    log_inv w fs closed act ->
    (forall p data,
        d !! p = Some data
        <-> exists k c, closed !! k = Some c
                        /\ p = segment_path (wal_path w) (start closed k)
                        /\ data = chunk_bytes c) ->
    Forall append_fits appends ->
    Z.of_nat (length (chunk_bytes (concat (closed ++ [act]))))
      + log_bytes appends < 2 ^ 63 ->
    exists w' fs' d' closed' act',
      Wal_Writes appends w fs d = (Ok tt, w', fs', d')
      /\ wal_path w' = wal_path w
      /\ log_inv w' fs' closed' act'
      /\ (forall p data,
             d' !! p = Some data
             <-> exists k c, closed' !! k = Some c
                             /\ p = segment_path (wal_path w)
                                      (start closed' k)
                             /\ data = chunk_bytes c).
Proof.
  induction appends as [|[now m] rest IH];
    intros w fs d closed act I D Hall Hsize.
  - exists w, fs, d, closed, act. cbn [Wal_Writes]. auto.
  - apply Forall_cons in Hall as [[Hnow Hm] Hall]. cbn [fst snd] in *.
    rewrite log_bytes_cons in Hsize. cbn [snd] in Hsize.
    pose proof (log_bytes_nonneg rest) as Hrest.
    destruct (Wal_Write_inv now m w fs closed act I Hnow Hm)
      as (w1 & fs1 & HW & Hp1 & Hc1 & I1); [lia|].
    set (e := newMessage now (wal_index w) m) in *.
    set (dir := wal_path w) in *.
    assert (Hsz : Z.of_nat (length (chunk_bytes [e]))
                  = 35 + Z.of_nat (length m)).
    { cbn [chunk_bytes flat_map]. rewrite app_nil_r, length_entry_bytes.
      reflexivity. }
    cbn [Wal_Writes]. rewrite HW.
    destruct (chunk_full (MaxSegmentSize (wal_config w)) act) eqn:Hfull.
    + destruct (IH w1 fs1
                  (<[segment_path dir (count closed) := chunk_bytes act]> d)
                  (closed ++ [act]) [e] I1)
        as (w' & fs' & d' & closed' & act' & HWs & Hp & I' & D').
      * rewrite Hp1. fold dir. intros p data. split.
        -- intros Hl.
           destruct (decide (p = segment_path dir (count closed)))
             as [->|Hne].
           ++ rewrite lookup_insert_eq in Hl. injection Hl as <-.
              exists (length closed), act.
              split; [apply list_lookup_middle; reflexivity|].
              rewrite start_length. auto.
           ++ rewrite lookup_insert_ne in Hl by congruence.
              apply D in Hl as (k & c & Hk & -> & ->).
              exists k, c. pose proof (lookup_lt_Some _ _ _ Hk).
              split; [apply lookup_app_l_Some; exact Hk|].
              rewrite start_app_l by lia. auto.
        -- intros (k & c & Hk & -> & ->).
           apply lookup_app_Some in Hk as [Hk|[Hge Hk]].
           ++ pose proof (lookup_lt_Some _ _ _ Hk) as Hlt.
              rewrite lookup_insert_ne.
              ** apply D. exists k, c. rewrite start_app_l by lia. auto.
              ** intros E. apply segment_path_inj in E.
                 --- rewrite <- (start_length closed [act]) in E.
                     apply (start_inj w fs closed act _ _ I) in E; lia.
                 --- rewrite <- (start_length closed [act]).
                     apply (start_bound w fs closed act _ I).
                 --- apply (start_bound w fs closed act _ I).
           ++ assert (k = length closed) as ->.
              { apply lookup_lt_Some in Hk. cbn [length] in Hk. lia. }
              rewrite Nat.sub_diag in Hk. injection Hk as <-.
              rewrite start_length. apply lookup_insert_eq.
      * exact Hall.
      * rewrite (concat_app (closed ++ [act])), chunk_bytes_app, length_app.
        cbn [concat]. rewrite app_nil_r, Nat2Z.inj_add, Hsz. lia.
      * exists w', fs', d', closed', act'.
        split; [exact HWs|]. split; [congruence|]. split; [exact I'|].
        rewrite Hp1 in D'. exact D'.
    + destruct (IH w1 fs1 d closed (act ++ [e]) I1)
        as (w' & fs' & d' & closed' & act' & HWs & Hp & I' & D').
      * rewrite Hp1. exact D.
      * exact Hall.
      * rewrite concat_app, chunk_bytes_app, length_app. cbn [concat].
        rewrite app_nil_r, chunk_bytes_app, length_app, !Nat2Z.inj_add, Hsz.
        rewrite concat_app, chunk_bytes_app, length_app in Hsize.
        cbn [concat] in Hsize. rewrite app_nil_r in Hsize. lia.
      * exists w', fs', d', closed', act'.
        split; [exact HWs|]. split; [congruence|]. split; [exact I'|].
        rewrite Hp1 in D'. exact D'.
Qed.
End Committed.


